(** * TileDB-Vector-Search: Vamana graph engine, k-means trainer, flat kernels

    A shallow embedding of the parts of the repository that the
    specification's claims are about, and the proofs that settle them.

    Layout of the file:
    - [Scalar]: the element types the C++ templates range over, and the
      scoring kernel [sum_of_squares];
    - [adj_list] and [k_min_heap]: the containers the graph engine uses;
    - [robust_prune], [greedy_search], [medioid] and [train] of
      [detail/graph/vamana.h];
    - [write_index] and the loading constructor of [vamana_index];
    - [kmeans_pp] and [train_no_init] of [ivf_index.h];
    - [vq_query_heap] and [qv_partition] of [flat_query.h] and the recall
      loop of [ivf_flat.cc].

    Numbers.  Feature values are elements of a [Scalar] type; scores (the C++
    [float]/[double] results of the scoring kernel) are exact rationals [Q]:
    rounding, infinities and NaN are not modelled.  A theorem that says
    which vector is nearest carries the premise that the scores are computed
    without rounding ([exact_scores], [exact_medioid]).  Sizes and node ids
    are [nat]; fixed-width on-disk integers are [Z] with the wrap-around
    written out where the code narrows a value.

    Builds.  [assert] is compiled out when [NDEBUG] is defined: a function
    that asserts takes the build as an argument ([greedy_search_in],
    [query_in], [load_index_in]). *)

From Stdlib Require Import QArith Qminmax Qabs Qround Lqa Lia ZArith String List Permutation.
From stdpp Require Import base option list gmap strings.

Local Open Scope nat_scope.

(** ** Errors

    C++ exceptions and failed assertions end the call; the embedding returns
    them on the left of a sum.  [OutOfFuel] is the embedding's own: a loop
    that is given too little fuel.  The theorems show that the fuel the
    embedding passes is enough. *)

Inductive error : Type :=
| AssertionFailed (what : string)
| RuntimeError (what : string)
| OutOfFuel.

Definition result (A : Type) : Type := (error + A)%type.

#[global] Instance result_ret : MRet result := fun A a => inr a.
#[global] Instance result_bind : MBind result :=
  fun A B f m => match m with inl e => inl e | inr a => f a end.

Definition succeeded {A : Type} (r : result A) : Prop :=
  match r with inr _ => True | inl _ => False end.

(** [assert] is the macro of [<cassert>]: a build that defines [NDEBUG]
    compiles it to nothing, any other build ends the program where the
    condition fails.  The functions that assert take the build as their
    first argument; a name without [_in] is the function in a build that
    checks its assertions. *)
Inductive build : Type :=
| Checked
| NDEBUG.

Definition checks (b : build) : bool :=
  match b with Checked => true | NDEBUG => false end.

(** ** Element types and the scoring kernel *)

(** The index classes are templates over the element type of the vectors.
    The embedding asks of an element type what the code uses: the literal
    zero, [+=], [/=] by a count, and the conversion to the score type. *)
Class Scalar (T : Type) : Type := {
  scalar_zero : T;
  scalar_add : T -> T -> T;
  scalar_div : T -> nat -> T;
  to_Q : T -> Q
}.

(** [float] and [double] elements, idealised as exact rationals. *)
#[global] Instance Scalar_Q : Scalar Q := {
  scalar_zero := 0%Q;
  scalar_add := Qplus;
  scalar_div := fun x n => (x / inject_Z (Z.of_nat n))%Q;
  to_Q := fun x => x
}.

(** [uint8_t] elements: values in [0, 256), addition wraps, division is the
    integer one. *)
#[global] Instance Scalar_uint8 : Scalar Z := {
  scalar_zero := 0%Z;
  scalar_add := fun x y => ((x + y) mod 256)%Z;
  scalar_div := fun x n => (x / Z.of_nat n)%Z;
  to_Q := inject_Z
}.

Definition Qltb (a b : Q) : bool := negb (Qle_bool b a).

(** [std::numeric_limits<float>::max()]. *)
Definition FLT_MAX : Q := inject_Z ((2 ^ 24 - 1) * 2 ^ 104).

(** Modelled from the spec: [scoring.h] is not among the sources.  "L2(a, b):
    sum of squared element-wise differences, over equal-length inputs". *)
Fixpoint sum_sq (a b : list Q) : Q :=
  match a, b with
  | x :: a', y :: b' => ((x - y) * (x - y) + sum_sq a' b')%Q
  | _, _ => 0%Q
  end.

Definition sum_of_squares {T U : Type} `{Scalar T} `{Scalar U}
    (a : list T) (b : list U) : Q :=
  sum_sq (map to_Q a) (map to_Q b).

(** ** Column-major matrices

    [ColMajorMatrix<T>(rows, cols)]: column [j] is the [j]-th vector.  The
    embedding keeps the columns as a list; [M[j]] out of range is undefined
    in C++ and the empty vector here. *)
Record ColMajorMatrix (T : Type) : Type := mkMatrix {
  num_rows : nat;
  columns : list (list T)
}.
Arguments mkMatrix {T} _ _.
Arguments num_rows {T} _.
Arguments columns {T} _.

Definition num_vectors {T : Type} (M : ColMajorMatrix T) : nat :=
  length (columns M).

Definition dimension {T : Type} (M : ColMajorMatrix T) : nat := num_rows M.

Definition col {T : Type} (M : ColMajorMatrix T) (j : nat) : list T :=
  default [] (columns M !! j).

(** Every column of a well-formed matrix has [num_rows] elements. *)
Definition matrix_wf {T : Type} (M : ColMajorMatrix T) : Prop :=
  Forall (fun c => length c = num_rows M) (columns M).

(** ** Adjacency lists *)

(** An out-edge is a [(score, id)] tuple, as in the C++ code. *)
Abbreviation edge := (Q * nat)%type (only parsing).

(** Modelled from the spec: [detail/graph/adj_list.h] is not among the
    sources.  "Per-node ... list of (score, id) pairs; out_edges(p) returns
    the current list; add_edge(p, q, s) appends (ignoring duplicate target
    ids); clear() empties the list."  The list of a node is kept in insertion
    order and [add_edge] appends without looking for an earlier edge to the
    same target. *)
Abbreviation adj_list := (list (list edge)) (only parsing).

Definition empty_adj_list (n : nat) : adj_list := replicate n [].

Definition num_vertices (G : adj_list) : nat := length G.

Definition out_edges (G : adj_list) (p : nat) : list edge :=
  default [] (G !! p).

Definition out_degree (G : adj_list) (p : nat) : nat := length (out_edges G p).

Definition add_edge (G : adj_list) (src dst : nat) (score : Q) : adj_list :=
  alter (fun l => l ++ [(score, dst)]) src G.

Definition clear_out_edges (G : adj_list) (p : nat) : adj_list :=
  <[p := []]> G.

Definition num_edges (G : adj_list) : nat :=
  fold_right (fun l n => length l + n) 0 G.

Definition targets (l : list edge) : list nat := map snd l.

(** ** robust_prune *)

Section RobustPrune.
Context {T : Type} `{Scalar T}.

(** The order in which a [std::unordered_map] hands out its entries is left
    to the implementation; [map_order] stands for it. *)
Variable map_order : list (nat * Q) -> list (nat * Q).

Definition try_emplace (m : gmap nat Q) (k : nat) (v : Q) : gmap nat Q :=
  match m !! k with
  | Some _ => m
  | None => <[k := v]> m
  end.

(** [std::min_element] with the comparison on scores: the first of the
    smallest entries. *)
Definition min_element (V : list edge) : option edge :=
  match V with
  | [] => None
  | e :: V' =>
      Some (fold_left (fun m x => if Qltb (fst x) (fst m) then x else m) V' e)
  end.

(** The candidates that survive the choice of [p_star]: those [pp] with
    [alpha * d(p_star, pp) > d(p, pp)], and never [p] itself. *)
Definition keep_candidate (db : ColMajorMatrix T) (p p_star : nat) (alpha : Q)
    (e : edge) : bool :=
  if Qle_bool (alpha * sum_of_squares (col db p_star) (col db (snd e))) (fst e)
  then false
  else negb (snd e =? p).

(** The [while (!V.empty())] loop.  A pass adds one out-edge to [p] and
    stops at degree [R], or goes on with the candidates that survive; the
    chosen [p_star] itself survives only if its stored score is negative.
    [fuel] bounds the number of passes: [robust_prune] gives one more than
    [length V + R], which is never used up when [p] is a node of the graph
    and [R >= 1] (lemma [robust_prune_returns]).  With [R = 0] the loop ends
    only when the candidates run out; a candidate with a negative stored
    score then keeps the loop of the code going for ever, and the embedding
    reports [OutOfFuel]. *)
Fixpoint prune_loop (fuel : nat) (db : ColMajorMatrix T) (p : nat)
    (alpha : Q) (R : nat) (G : adj_list) (V : list edge) : result adj_list :=
  match fuel with
  | 0 => inl OutOfFuel
  | S fuel' =>
      match min_element V with
      | None => inr G
      | Some (s_star, p_star) =>
          if p_star =? p then inl (AssertionFailed "p_star != p") else
          let G' := add_edge G p p_star s_star in
          if out_degree G' p =? R then inr G' else
          prune_loop fuel' db p alpha R G'
            (List.filter (keep_candidate db p p_star alpha) V)
      end
  end.

(** The candidate map: the members of [V_in] other than [p] with their
    distance to [p], then the out-neighbours of [p] not yet present with the
    score the graph stores for them. *)
Definition candidate_map (G : adj_list) (db : ColMajorMatrix T) (p : nat)
    (V_in : list nat) : gmap nat Q :=
  let from_V :=
    fold_left (fun m v =>
      if v =? p then m
      else try_emplace m v (sum_of_squares (col db v) (col db p))) V_in ∅ in
  fold_left (fun m e =>
      if snd e =? p then m else try_emplace m (snd e) (fst e))
    (out_edges G p) from_V.

Definition robust_prune (G : adj_list) (db : ColMajorMatrix T) (p : nat)
    (V_in : list nat) (alpha : Q) (R : nat) : result adj_list :=
  let V_map := candidate_map G db p V_in in
  let V := map (fun kv => (snd kv, fst kv)) (map_order (map_to_list V_map)) in
  prune_loop (S (length V + R)) db p alpha R (clear_out_edges G p) V.

End RobustPrune.

(** ** The fixed-capacity heap *)

(** Modelled from the spec: [utils/fixed_min_heap.h] is not among the
    sources.  "FixedMinHeap(capacity = k) conceptually holds the k smallest
    (score, id) pairs seen so far ... insert(score, id): if size < k, push;
    else if score < current max, replace max and re-heapify; else no-op.
    Optionally deduplicate by id ... Drain-sorted returns entries in
    ascending score order."  Ties on the score are not broken
    deterministically by the spec; the embedding keeps the entries in the
    order they were pushed and resolves a tie by position. *)
Record k_min_heap : Type := mkHeap {
  capacity : nat;
  entries : list edge
}.

Definition empty_heap (L : nat) : k_min_heap := mkHeap L [].

(** The first entry that no other entry beats, and the entries left. *)
Fixpoint extract_by (better : Q -> Q -> bool) (l : list edge)
    : option (edge * list edge) :=
  match l with
  | [] => None
  | e :: l' =>
      match extract_by better l' with
      | None => Some (e, [])
      | Some (m, rest) =>
          if better (fst m) (fst e) then Some (m, e :: rest) else Some (e, l')
      end
  end.

Definition extract_min : list edge -> option (edge * list edge) :=
  extract_by Qltb.
Definition extract_max : list edge -> option (edge * list edge) :=
  extract_by (fun a b => Qltb b a).

Definition resident (l : list edge) (id : nat) : bool :=
  existsb (fun e => snd e =? id) l.

(** [insert] and [insert<unique_id>]: the flag tells whether the pair
    entered the heap. *)
Definition heap_insert (unique_id : bool) (h : k_min_heap) (score : Q)
    (id : nat) : bool * k_min_heap :=
  if unique_id && resident (entries h) id then (false, h)
  else if length (entries h) <? capacity h
  then (true, mkHeap (capacity h) (entries h ++ [(score, id)]))
  else
    match extract_max (entries h) with
    | Some (m, rest) =>
        if Qltb score (fst m)
        then (true, mkHeap (capacity h) (rest ++ [(score, id)]))
        else (false, h)
    | None => (false, h)
    end.

Fixpoint insert_sorted (e : edge) (l : list edge) : list edge :=
  match l with
  | [] => [e]
  | x :: l' =>
      if Qle_bool (fst e) (fst x) then e :: l else x :: insert_sorted e l'
  end.

(** Ascending by score; of two entries with one score the later pushed comes
    first, as when a binary heap of two entries is drained. *)
Definition sort_heap (l : list edge) : list edge :=
  fold_left (fun acc e => insert_sorted e acc) l [].

(** The first [min k size] sorted entries are copied over vectors of length
    [k] that were value-initialised. *)
Definition get_top_k_with_scores_from_heap (h : k_min_heap) (k : nat)
    : list Q * list nat :=
  let s := take k (sort_heap (entries h)) in
  (map fst s ++ replicate (k - length s) 0%Q,
   map snd s ++ replicate (k - length s) 0).

(** ** greedy_search *)

Definition visited_contains (visited : list nat) (v : nat) : bool :=
  existsb (Nat.eqb v) visited.

Section GreedySearch.
Context {T U : Type} `{Scalar T} `{Scalar U}.

(** [q2 <- L \ V]: the entries of the result list that are not visited. *)
Definition unvisited_of (visited : list nat) (res : k_min_heap)
    : k_min_heap :=
  fold_left (fun q e =>
      if visited_contains visited (snd e) then q
      else snd (heap_insert false q (fst e) (snd e)))
    (entries res) (empty_heap (capacity res)).

(** [L <- L ∪ Nout(p_star)]: one out-neighbour of [p_star]. *)
Definition expand_neighbor (db : ColMajorMatrix T) (query : list U)
    (visited : list nat) (st : k_min_heap * k_min_heap) (e : edge)
    : k_min_heap * k_min_heap :=
  let '(res, q2) := st in
  let p := snd e in
  if visited_contains visited p then (res, q2)
  else
    let score := sum_of_squares (col db p) query in
    let '(entered, res') := heap_insert true res score p in
    if entered then (res', snd (heap_insert false q2 score p))
    else (res', q2).

Fixpoint search_loop (fuel : nat) (G : adj_list) (db : ColMajorMatrix T)
    (query : list U) (res q1 : k_min_heap) (visited : list nat)
    : result (k_min_heap * list nat) :=
  match fuel with
  | 0 => inl OutOfFuel
  | S fuel' =>
      match extract_min (entries q1) with
      | None => inr (res, visited)
      | Some ((s_star, p_star), q1') =>
          if visited_contains visited p_star
          then search_loop fuel' G db query res
                 (mkHeap (capacity q1) q1') visited
          else
            let visited' := visited ++ [p_star] in
            let q2 := unvisited_of visited' res in
            let '(res', q2') :=
              fold_left (expand_neighbor db query visited')
                (out_edges G p_star) (res, q2) in
            search_loop fuel' G db query res' q2' visited'
      end
  end.

(** Every pass through the loop that does not [continue] visits a node that
    was not visited before, and a visited node is the source or the target of
    an edge: this many passes are enough. *)
Definition search_fuel (G : adj_list) : nat := 2 + num_edges G.

Definition greedy_search_in (b : build) (G : adj_list)
    (db : ColMajorMatrix T) (source : nat) (query : list U) (k_nn L : nat)
    : result (list Q * list nat * list nat) :=
  if checks b && (L <? k_nn) then inl (AssertionFailed "L >= k_nn") else
  let d := sum_of_squares (col db source) query in
  let res := snd (heap_insert false (empty_heap L) d source) in
  let q1 := snd (heap_insert false (empty_heap L) d source) in
  '(res', visited) ← search_loop (search_fuel G) G db query res q1 [];
  let '(top_k_scores, top_k) := get_top_k_with_scores_from_heap res' k_nn in
  mret (top_k_scores, top_k, visited).

Definition greedy_search (G : adj_list) (db : ColMajorMatrix T)
    (source : nat) (query : list U) (k_nn L : nat)
    : result (list Q * list nat * list nat) :=
  greedy_search_in Checked G db source query k_nn L.

End GreedySearch.

(** ** medioid and vamana_index::train *)

Fixpoint fold_result {A B : Type} (f : A -> B -> result A) (l : list B)
    (a : A) : result A :=
  match l with
  | [] => inr a
  | x :: l' => a' ← f a x; fold_result f l' a'
  end.

(** The index class.  [id_type] is taken to be as wide as the [uint64_t] the
    metadata table declares for [medioid_]. *)
Record vamana_index (T : Type) : Type := mkIndex {
  feature_vectors_ : ColMajorMatrix T;
  dimension_ : nat;
  num_vectors_ : nat;
  L_build_ : nat;
  R_max_degree_ : nat;
  B_backtrack_ : nat;
  alpha_min_ : Q;
  alpha_max_ : Q;
  graph_ : adj_list;
  medioid_ : nat
}.
Arguments mkIndex {T} _ _ _ _ _ _ _ _ _ _.
Arguments feature_vectors_ {T} _.
Arguments dimension_ {T} _.
Arguments num_vectors_ {T} _.
Arguments L_build_ {T} _.
Arguments R_max_degree_ {T} _.
Arguments B_backtrack_ {T} _.
Arguments alpha_min_ {T} _.
Arguments alpha_max_ {T} _.
Arguments graph_ {T} _.
Arguments medioid_ {T} _.

Section Train.
Context {T : Type} `{Scalar T}.
Variable map_order : list (nat * Q) -> list (nat * Q).

(** [centroid[i] += p[i]] for [i < p.size()]. *)
Fixpoint accumulate (centroid : list Q) (p : list T) : list Q :=
  match centroid, p with
  | c :: cs, x :: xs => (c + to_Q x)%Q :: accumulate cs xs
  | _, _ => centroid
  end.

(** [min_score] starts at [FLT_MAX] and [med] at 0; a vector replaces the
    one found so far when its score is below [min_score]. *)
Definition medioid (P : ColMajorMatrix T) : nat :=
  let n := num_vectors P in
  let sums :=
    fold_left accumulate (columns P) (replicate (length (col P 0)) 0%Q) in
  let centroid := map (fun c => (c / inject_Z (Z.of_nat n))%Q) sums in
  let scan :=
    fold_left (fun (st : nat * Q * nat) (p : list T) =>
        let '(med, min_score, i) := st in
        let score := sum_of_squares p centroid in
        if Qltb score min_score then (i, score, S i)
        else (med, min_score, S i))
      (columns P) (0, FLT_MAX, 0) in
  fst (fst scan).

(** [vamana_index(num_nodes, L, R, B)].  [alpha_max_{1.2}] is taken as the
    decimal it is written as. *)
Definition new_index (num_nodes L R B : nat) : vamana_index T :=
  mkIndex (mkMatrix 0 []) 0 num_nodes L R (if B =? 0 then L else B)
    1%Q (6 # 5)%Q (empty_adj_list num_nodes) 0.

(** The vector the build hands to [robust_prune] for the neighbour [j] of
    [p]: [std::vector<size_t>(out_degree(j) + 1)] holds [out_degree(j) + 1]
    zeros, and [p] and the out-neighbours of [j] are pushed behind them. *)
Definition train_tmp (G : adj_list) (p j : nat) : list nat :=
  replicate (out_degree G j + 1) 0 ++ p :: targets (out_edges G j).

Definition post_search_prune (db : ColMajorMatrix T) (p : nat) (alpha : Q)
    (R : nat) (G : adj_list) (j : nat) : result adj_list :=
  let tmp := train_tmp G p j in
  if R <? length tmp
  then robust_prune map_order G db j tmp alpha R
  else inr (add_edge G j p (sum_of_squares (col db p) (col db j))).

(** One pass of the loop over [p].  The C++ loop walks the live list
    [out_edges(p)] while its body rewrites the lists of the neighbours [j];
    the embedding walks the list as [robust_prune] left it, which is the same
    as long as [p] is not its own neighbour. *)
Definition train_node (db : ColMajorMatrix T) (medoid L R : nat) (alpha : Q)
    (G : adj_list) (p : nat) : result adj_list :=
  '(_, _, visited) ← greedy_search G db medoid (col db p) 1 L;
  G1 ← robust_prune map_order G db p visited alpha R;
  fold_result (post_search_prune db p alpha R)
    (targets (out_edges G1 p)) G1.

Definition train (idx : vamana_index T) (training_set : ColMajorMatrix T)
    : result (vamana_index T) :=
  let fv := training_set in
  let n := num_vectors fv in
  let med := medioid fv in
  G ← fold_result (fun G alpha =>
         fold_result
           (train_node fv med (L_build_ idx) (R_max_degree_ idx) alpha)
           (seq 0 n) G)
       [alpha_max_ idx] (empty_adj_list n);
  mret (mkIndex fv (dimension fv) n (L_build_ idx) (R_max_degree_ idx)
          (B_backtrack_ idx) (alpha_min_ idx) (alpha_max_ idx) G med).

End Train.

(** ** vamana_index::query *)

(** [vamana_index::query] on a single query vector. *)
Definition query_vector_in {T U : Type} `{Scalar T} `{Scalar U} (b : build)
    (idx : vamana_index T) (query_vec : list U) (k : nat)
    (opt_L : option nat) : result (list Q * list nat) :=
  let L := default (L_build_ idx) opt_L in
  '(top_k_scores, top_k, V) ←
    greedy_search_in b (graph_ idx) (feature_vectors_ idx) (medioid_ idx)
      query_vec k L;
  mret (top_k_scores, top_k).

Definition query_vector {T U : Type} `{Scalar T} `{Scalar U}
    (idx : vamana_index T) (query_vec : list U) (k : nat)
    (opt_L : option nat) : result (list Q * list nat) :=
  query_vector_in Checked idx query_vec k opt_L.

(** The state of the loop of [vamana_index::query] over a query set: the
    two matrices that are filled column by column, and the counter
    [num_visited_vertices_]. *)
Record query_state : Type := mkQueryState {
  top_k_scores : ColMajorMatrix Q;
  top_k : ColMajorMatrix nat;
  num_visited_vertices_ : nat
}.

(** One pass of the loop: the [k] scores and ids of the search are copied
    over column [i]. *)
Definition query_column_in {T U : Type} `{Scalar T} `{Scalar U} (b : build)
    (idx : vamana_index T) (query_set : ColMajorMatrix U) (k L : nat)
    (st : query_state) (i : nat) : result query_state :=
  '(tk_scores, tk, V) ←
    greedy_search_in b (graph_ idx) (feature_vectors_ idx) (medioid_ idx)
      (col query_set i) k L;
  mret (mkQueryState
          (mkMatrix k (<[i := tk_scores]> (columns (top_k_scores st))))
          (mkMatrix k (<[i := tk]> (columns (top_k st))))
          (num_visited_vertices_ st + length V)).

Definition query_column {T U : Type} `{Scalar T} `{Scalar U}
    (idx : vamana_index T) (query_set : ColMajorMatrix U) (k L : nat)
    (st : query_state) (i : nat) : result query_state :=
  query_column_in Checked idx query_set k L st i.

(** [vamana_index::query] on a set of query vectors; [visited] is the value
    of [num_visited_vertices_] before the call. *)
Definition query_in {T U : Type} `{Scalar T} `{Scalar U} (b : build)
    (idx : vamana_index T) (visited : nat) (query_set : ColMajorMatrix U)
    (k : nat) (opt_L : option nat) : result query_state :=
  let L := default (L_build_ idx) opt_L in
  let n := num_vectors query_set in
  fold_result (query_column_in b idx query_set k L) (seq 0 n)
    (mkQueryState (mkMatrix k (replicate n (replicate k 0%Q)))
       (mkMatrix k (replicate n (replicate k 0))) visited).

Definition query {T U : Type} `{Scalar T} `{Scalar U}
    (idx : vamana_index T) (visited : nat) (query_set : ColMajorMatrix U)
    (k : nat) (opt_L : option nat) : result query_state :=
  query_in Checked idx visited query_set k opt_L.

(** ** Persistence of a Vamana index *)

(** The array store is an external collaborator.  The embedding keeps what
    the index code relies on: a group is a directory with typed metadata,
    named members, and the arrays stored under it; the array at
    [group_uri + "/name"] is the array [name] of the group at [group_uri]. *)
Inductive metadata_value : Type :=
| MetaUInt64 (v : nat)
| MetaFloat32 (v : Q).

Inductive array_data (T : Type) : Type :=
| FeatureArray (M : ColMajorMatrix T)
| ScoreArray (v : list Q)
| IdArray (v : list nat)
| IndexArray (v : list Z).
Arguments FeatureArray {T} _.
Arguments ScoreArray {T} _.
Arguments IdArray {T} _.
Arguments IndexArray {T} _.

Record group (T : Type) : Type := mkGroup {
  group_metadata : gmap string metadata_value;
  group_members : list string;
  group_arrays : gmap string (array_data T)
}.
Arguments mkGroup {T} _ _ _.
Arguments group_metadata {T} _.
Arguments group_members {T} _.
Arguments group_arrays {T} _.

(** [index_type] is [uint32_t]: an offset is narrowed when it is stored. *)
Definition to_index_type (n : nat) : Z := (Z.of_nat n mod 2 ^ 32)%Z.

Section Persistence.
Context {T : Type}.

Definition put_metadata (name : string) (v : metadata_value) (g : group T)
    : group T :=
  mkGroup (<[name := v]> (group_metadata g)) (group_members g)
    (group_arrays g).

Definition write_array (name : string) (a : array_data T) (g : group T)
    : group T :=
  mkGroup (group_metadata g) (group_members g)
    (<[name := a]> (group_arrays g)).

Definition add_member (name : string) (g : group T) : group T :=
  mkGroup (group_metadata g) (group_members g ++ [name]) (group_arrays g).

(** The metadata table of the index: name and value of each field. *)
Definition metadata (idx : vamana_index T) : list (string * metadata_value) :=
  [ ("dimension"%string, MetaUInt64 (dimension_ idx));
    ("ntotal"%string, MetaUInt64 (num_vectors_ idx));
    ("L"%string, MetaUInt64 (L_build_ idx));
    ("R"%string, MetaUInt64 (R_max_degree_ idx));
    ("B"%string, MetaUInt64 (B_backtrack_ idx));
    ("alpha_min"%string, MetaFloat32 (alpha_min_ idx));
    ("alpha_max"%string, MetaFloat32 (alpha_max_ idx));
    ("medioid"%string, MetaUInt64 (medioid_ idx)) ].

(** The state of the loop that flattens the graph: the three vectors and
    [edge_offset]. *)
Record csr : Type := mkCsr {
  adj_scores : list Q;
  adj_ids : list nat;
  adj_index : list Z;
  edge_offset : nat
}.

Definition csr_edge (c : csr) (e : edge) : csr :=
  mkCsr (<[edge_offset c := fst e]> (adj_scores c))
        (<[edge_offset c := snd e]> (adj_ids c))
        (adj_index c)
        (S (edge_offset c)).

Definition csr_node (G : adj_list) (c : csr) (i : nat) : csr :=
  fold_left csr_edge (out_edges G i)
    (mkCsr (adj_scores c) (adj_ids c)
       (<[i := to_index_type (edge_offset c)]> (adj_index c))
       (edge_offset c)).

Definition csr_of_graph (G : adj_list) : csr :=
  let c0 := mkCsr (replicate (num_edges G) 0%Q) (replicate (num_edges G) 0)
              (replicate (num_vertices G + 1) 0%Z) 0 in
  let c := fold_left (csr_node G) (seq 0 (num_vertices G)) c0 in
  mkCsr (adj_scores c) (adj_ids c)
    (<[num_vertices G := to_index_type (edge_offset c)]> (adj_index c))
    (edge_offset c).

(** What [write_index] puts under the group URI. *)
Definition written_group (idx : vamana_index T) : group T :=
  let g0 := mkGroup ∅ [] ∅ in
  let g1 := fold_left (fun g nv => put_metadata (fst nv) (snd nv) g)
              (metadata idx) g0 in
  let g2 := add_member "feature_vectors"
              (write_array "feature_vectors"
                 (FeatureArray (feature_vectors_ idx)) g1) in
  let c := csr_of_graph (graph_ idx) in
  let g3 := add_member "adj_scores"
              (write_array "adj_scores" (ScoreArray (adj_scores c)) g2) in
  let g4 := add_member "adj_ids"
              (write_array "adj_ids" (IdArray (adj_ids c)) g3) in
  add_member "adj_index"
    (write_array "adj_index" (IndexArray (adj_index c)) g4).

(** [write_index]: the flag it returns and the store it leaves. *)
Definition write_index (idx : vamana_index T) (vfs : gmap string (group T))
    (group_uri : string) (overwrite : bool)
    : bool * gmap string (group T) :=
  match vfs !! group_uri with
  | Some _ =>
      if overwrite
      then (true, <[group_uri := written_group idx]> (delete group_uri vfs))
      else (false, vfs)
  | None => (true, <[group_uri := written_group idx]> vfs)
  end.

(** The loading constructor reads each entry of the metadata table with the
    datatype the group stores for it.  A group written by [write_index]
    stores every entry with the datatype of its field.  For an entry stored
    with the other datatype the code copies the bytes into the field as they
    are; the embedding has no bytes for a field and reports an error there. *)
Definition read_u64 (g : group T) (name : string) : result nat :=
  match group_metadata g !! name with
  | None => inl (RuntimeError ("Missing metadata: " ++ name))
  | Some (MetaUInt64 v) => inr v
  | Some (MetaFloat32 _) => inl (RuntimeError "Unsupported datatype")
  end.

Definition read_f32 (g : group T) (name : string) : result Q :=
  match group_metadata g !! name with
  | None => inl (RuntimeError ("Missing metadata: " ++ name))
  | Some (MetaFloat32 v) => inr v
  | Some (MetaUInt64 _) => inl (RuntimeError "Unsupported datatype")
  end.

Definition read_feature_vectors (g : group T) : result (ColMajorMatrix T) :=
  match group_arrays g !! "feature_vectors"%string with
  | Some (FeatureArray M) => inr M
  | _ => inl (RuntimeError "feature_vectors")
  end.

Definition read_scores (g : group T) : result (list Q) :=
  match group_arrays g !! "adj_scores"%string with
  | Some (ScoreArray v) => inr v
  | _ => inl (RuntimeError "adj_scores")
  end.

Definition read_ids (g : group T) : result (list nat) :=
  match group_arrays g !! "adj_ids"%string with
  | Some (IdArray v) => inr v
  | _ => inl (RuntimeError "adj_ids")
  end.

Definition read_index (g : group T) : result (list Z) :=
  match group_arrays g !! "adj_index"%string with
  | Some (IndexArray v) => inr v
  | _ => inl (RuntimeError "adj_index")
  end.

(** [for (j = start; j < end; ++j) add_edge(i, adj_ids[j], adj_scores[j])]. *)
Definition load_node (scores : list Q) (ids : list nat) (index : list Z)
    (G : adj_list) (i : nat) : adj_list :=
  let start := Z.to_nat (default 0%Z (index !! i)) in
  let stop := Z.to_nat (default 0%Z (index !! S i)) in
  fold_left (fun G j =>
      add_edge G i (default 0 (ids !! j)) (default 0%Q (scores !! j)))
    (seq start (stop - start)) G.

(** The constructor [vamana_index(ctx, group_uri)]. *)
Definition load_index_in (b : build) (vfs : gmap string (group T))
    (group_uri : string) : result (vamana_index T) :=
  match vfs !! group_uri with
  | None => inl (RuntimeError "group")
  | Some g =>
      fv ← read_feature_vectors g;
      dim ← read_u64 g "dimension";
      ntotal ← read_u64 g "ntotal";
      L ← read_u64 g "L";
      R ← read_u64 g "R";
      B ← read_u64 g "B";
      amin ← read_f32 g "alpha_min";
      amax ← read_f32 g "alpha_max";
      med ← read_u64 g "medioid";
      if checks b && negb (ntotal =? num_vectors fv)
      then inl (AssertionFailed "num_vectors_ == num_vectors(feature_vectors_)")
      else
        scores ← read_scores g;
        ids ← read_ids g;
        index ← read_index g;
        let G := fold_left (load_node scores ids index) (seq 0 ntotal)
                   (empty_adj_list ntotal) in
        mret (mkIndex fv dim ntotal L R B amin amax G med)
  end.

Definition load_index (vfs : gmap string (group T)) (group_uri : string)
    : result (vamana_index T) :=
  load_index_in Checked vfs group_uri.

End Persistence.

(** ** The comparisons of two indexes *)

(** The values of a matrix as [data()] exposes them: column after column. *)
Definition data {T : Type} (M : ColMajorMatrix T) : list T :=
  concat (columns M).

(** [std::equal(first1, last1, first2)] on element values.  The second range
    must be as long as the first; the embedding answers [false] where the
    code would read past its end. *)
Fixpoint std_equal {T : Type} `{Scalar T} (a b : list T) : bool :=
  match a, b with
  | [], _ => true
  | x :: a', y :: b' => Qeq_bool (to_Q x) (to_Q y) && std_equal a' b'
  | _ :: _, [] => false
  end.

Section Compare.
Context {T : Type} `{Scalar T}.

(** [compare_metadata]: the eight fields, in the order of the code. *)
Definition compare_metadata (lhs rhs : vamana_index T) : bool :=
  if negb (dimension_ lhs =? dimension_ rhs) then false else
  if negb (num_vectors_ lhs =? num_vectors_ rhs) then false else
  if negb (L_build_ lhs =? L_build_ rhs) then false else
  if negb (R_max_degree_ lhs =? R_max_degree_ rhs) then false else
  if negb (B_backtrack_ lhs =? B_backtrack_ rhs) then false else
  if negb (Qeq_bool (alpha_min_ lhs) (alpha_min_ rhs)) then false else
  if negb (Qeq_bool (alpha_max_ lhs) (alpha_max_ rhs)) then false else
  if negb (medioid_ lhs =? medioid_ rhs) then false else
  true.

(** [compare_adj_scores]: for every node of the left graph, the two lists
    have the same length and the same scores, place by place. *)
Definition compare_adj_scores (lhs rhs : vamana_index T) : bool :=
  forallb (fun i =>
      let l := out_edges (graph_ lhs) i in
      let r := out_edges (graph_ rhs) i in
      (length l =? length r) &&
      forallb (fun ab : edge * edge => Qeq_bool (fst (fst ab)) (fst (snd ab)))
        (zip l r))
    (seq 0 (num_vertices (graph_ lhs))).

(** [compare_adj_ids]: the same walk, on the ids. *)
Definition compare_adj_ids (lhs rhs : vamana_index T) : bool :=
  forallb (fun i =>
      let l := out_edges (graph_ lhs) i in
      let r := out_edges (graph_ rhs) i in
      (length l =? length r) &&
      forallb (fun ab : edge * edge => snd (fst ab) =? snd (snd ab))
        (zip l r))
    (seq 0 (num_vertices (graph_ lhs))).

(** [compare_feature_vectors]: the loop over the elements only prints; the
    answer is that of [std::equal] over the [dimension * num_vectors] values
    of the left matrix. *)
Definition compare_feature_vectors (lhs rhs : vamana_index T) : bool :=
  std_equal
    (take (dimension (feature_vectors_ lhs)
           * num_vectors (feature_vectors_ lhs))
       (data (feature_vectors_ lhs)))
    (data (feature_vectors_ rhs)).

End Compare.

(** ** The k-means trainer *)

Record kmeans_index (T : Type) : Type := mkKmeans {
  km_dimension_ : nat;
  nlist_ : nat;
  max_iter_ : nat;
  nthreads_ : nat;
  centroids_ : ColMajorMatrix T
}.
Arguments mkKmeans {T} _ _ _ _ _.
Arguments km_dimension_ {T} _.
Arguments nlist_ {T} _.
Arguments max_iter_ {T} _.
Arguments nthreads_ {T} _.
Arguments centroids_ {T} _.

(** [std::uniform_int_distribution<>(0, n - 1)] and
    [std::discrete_distribution] are the C++ library's.  The generator is
    modelled by the fraction [u] in [0, 1) that a draw consumes: the uniform
    draw is [floor (u * n)], the weighted draw is the first index at which
    the running sum of the weights exceeds [u] times their total. *)
Definition uniform_index (n : nat) (u : Q) : nat :=
  Z.to_nat (Qfloor (u * inject_Z (Z.of_nat n))).

Fixpoint first_exceeding (weights : list Q) (x : Q) : nat :=
  match weights with
  | [] => 0
  | w :: ws => if Qltb x w then 0 else S (first_exceeding ws (x - w))
  end.

Definition total_weight (weights : list Q) : Q :=
  fold_right Qplus 0%Q weights.

Definition discrete_distribution (weights : list Q) (u : Q) : nat :=
  first_exceeding weights (u * total_weight weights).

(** [std::numeric_limits<double>::max() / 8]. *)
Definition initial_distance : Q := inject_Z ((2 ^ 53 - 1) * 2 ^ 968).

Section Kmeans.
Context {T : Type} `{Scalar T}.

(** [kmeans_index(dimension, nlist, max_iter, tol, nthreads)]: the centroid
    matrix is [dimension] by [nlist], value-initialised. *)
Definition new_kmeans (dim nlist max_iter nthreads : nat) : kmeans_index T :=
  mkKmeans dim nlist max_iter nthreads
    (mkMatrix dim (replicate nlist (replicate dim scalar_zero))).

(** [std::copy(begin(training_set[c]), end(training_set[c]),
    begin(centroids_[i]))]: the training vectors have as many rows as the
    centroids, so the copy overwrites column [i]. *)
Definition set_centroid (C : ColMajorMatrix T) (i : nat) (v : list T)
    : ColMajorMatrix T :=
  mkMatrix (num_rows C) (<[i := v]> (columns C)).

(** [std::min(distances[j], distance)]. *)
Definition min_distance (dj distance : Q) : Q :=
  if Qltb distance dj then distance else dj.

(** The state of the seeding loop: the centroids, the weights, and the
    indices picked so far (the embedding's record of [choice] and of every
    [nextIndex]). *)
Record seeding : Type := mkSeeding {
  seed_centroids : ColMajorMatrix T;
  seed_distances : list Q;
  seed_picks : list nat
}.

(** One pass of the loop over [i]; [u] is the fraction the draw consumes. *)
Definition kmeans_pp_step (training_set : ColMajorMatrix T) (st : seeding)
    (iu : nat * Q) : seeding :=
  let '(i, u) := iu in
  let newest := col (seed_centroids st) (i - 1) in
  let distances :=
    zip_with (fun vec dj => min_distance dj (sum_of_squares vec newest))
      (columns training_set) (seed_distances st) in
  let nextIndex := discrete_distribution distances u in
  mkSeeding (set_centroid (seed_centroids st) i (col training_set nextIndex))
    (<[nextIndex := 0%Q]> distances)
    (seed_picks st ++ [nextIndex]).

(** [kmeans_pp]: [draws 0] feeds the uniform choice of the first centroid,
    [draws i] the weighted choice of centroid [i]. *)
Definition kmeans_pp_run (idx : kmeans_index T)
    (training_set : ColMajorMatrix T) (draws : nat -> Q) : seeding :=
  let choice := uniform_index (num_vectors training_set) (draws 0) in
  let st0 :=
    mkSeeding (set_centroid (centroids_ idx) 0 (col training_set choice))
      (replicate (num_vectors training_set) initial_distance)
      [choice] in
  fold_left (kmeans_pp_step training_set)
    (map (fun i => (i, draws i)) (seq 1 (nlist_ idx - 1))) st0.

Definition kmeans_pp (idx : kmeans_index T) (training_set : ColMajorMatrix T)
    (draws : nat -> Q) : kmeans_index T :=
  mkKmeans (km_dimension_ idx) (nlist_ idx) (max_iter_ idx) (nthreads_ idx)
    (seed_centroids (kmeans_pp_run idx training_set draws)).

(** Modelled from the spec: [detail/flat/qv.h] is not among the sources.
    "a partitioning primitive that assigns each database vector to its
    nearest centroid".  Of several nearest centroids the first is taken. *)
Definition nearest_centroid (C : ColMajorMatrix T) (v : list T) : nat :=
  let scan :=
    fold_left (fun (st : nat * option Q * nat) (c : list T) =>
        let '(best, min_score, j) := st in
        let score := sum_of_squares v c in
        match min_score with
        | Some m => if Qltb score m then (j, Some score, S j)
                    else (best, min_score, S j)
        | None => (j, Some score, S j)
        end)
      (columns C) (0, None, 0) in
  fst (fst scan).

Definition qv_partition (C : ColMajorMatrix T) (training_set : ColMajorMatrix T)
    : list nat :=
  map (nearest_centroid C) (columns training_set).

(** [f] applied to the first [n] entries of a list. *)
Definition on_first {A : Type} (n : nat) (f : A -> A) (l : list A) : list A :=
  map f (take n l) ++ drop n l.

(** [centroid[j] += vector[j]] for [j < dimension_]. *)
Fixpoint add_vector (dim : nat) (centroid vector : list T) : list T :=
  match dim, centroid, vector with
  | S d, c :: cs, x :: xs => scalar_add c x :: add_vector d cs xs
  | _, _, _ => centroid
  end.

(** [if (degrees[j] != 0) centroid[k] /= degrees[j]] for [k < dimension_]. *)
Definition divide_centroid (dim degree : nat) (centroid : list T) : list T :=
  if degree =? 0 then centroid
  else on_first dim (fun x => scalar_div x degree) centroid.

(** The sums and the degrees after the loop over the training vectors. *)
Definition accumulate_parts (dim : nat) (training_set : ColMajorMatrix T)
    (parts : list nat) (cols : list (list T)) (degrees : list nat)
    : list (list T) * list nat :=
  fold_left (fun (st : list (list T) * list nat) (iv : nat * list T) =>
      let '(part, vector) := iv in
      (alter (fun centroid => add_vector dim centroid vector) part (fst st),
       alter S part (snd st)))
    (zip parts (columns training_set)) (cols, degrees).

(** One pass of the loop over [iter] in [train_no_init]. *)
Definition lloyd_iteration (idx : kmeans_index T)
    (training_set : ColMajorMatrix T) : kmeans_index T :=
  let C := centroids_ idx in
  let parts := qv_partition C training_set in
  let zeroed :=
    on_first (nlist_ idx) (map (fun _ => scalar_zero)) (columns C) in
  let degrees0 := replicate (nlist_ idx) 0 in
  let '(sums, degrees) :=
    accumulate_parts (km_dimension_ idx) training_set parts zeroed degrees0 in
  let divided :=
    zip_with (fun j centroid =>
        if j <? nlist_ idx
        then divide_centroid (km_dimension_ idx) (default 0 (degrees !! j))
               centroid
        else centroid)
      (seq 0 (length sums)) sums in
  mkKmeans (km_dimension_ idx) (nlist_ idx) (max_iter_ idx) (nthreads_ idx)
    (mkMatrix (num_rows C) divided).

(** The number of training vectors assigned to centroid [j] at the start of
    an iteration. *)
Definition degree_of (idx : kmeans_index T) (training_set : ColMajorMatrix T)
    (j : nat) : nat :=
  length (List.filter (Nat.eqb j)
            (qv_partition (centroids_ idx) training_set)).

Definition train_no_init (idx : kmeans_index T)
    (training_set : ColMajorMatrix T) : kmeans_index T :=
  Nat.iter (max_iter_ idx) (fun idx' => lloyd_iteration idx' training_set) idx.

End Kmeans.

(** ** kmeans_random_init *)

(** [kmeans_random_init]: [nlist_] indices are drawn uniformly, one after the
    other and with repetitions allowed, and the training vector at the
    [i]-th index is copied over centroid [i]; [draws i] is the fraction that
    the [i]-th draw consumes. *)
Definition kmeans_random_init {T : Type} (idx : kmeans_index T)
    (training_set : ColMajorMatrix T) (draws : nat -> Q) : kmeans_index T :=
  let indices :=
    map (fun i => uniform_index (num_vectors training_set) (draws i))
      (seq 0 (nlist_ idx)) in
  mkKmeans (km_dimension_ idx) (nlist_ idx) (max_iter_ idx) (nthreads_ idx)
    (fold_left (fun C (ic : nat * nat) =>
         mkMatrix (num_rows C)
           (<[fst ic := col training_set (snd ic)]> (columns C)))
       (imap (fun i c => (i, c)) indices) (centroids_ idx)).

(** ** vq_query_heap *)

(** A matrix that may be streamed in blocks of columns: the block that is
    resident, its absolute column offset, and the blocks still in the store.
    A matrix that is not blocked has nothing pending: its [advance] returns
    [false] and its [offset] is 0. *)
Record blocked_matrix (T : Type) : Type := mkBlocked {
  is_blocked : bool;
  window : list (list T);
  offset : nat;
  pending : list (list (list T))
}.
Arguments mkBlocked {T} _ _ _ _.
Arguments is_blocked {T} _.
Arguments window {T} _.
Arguments offset {T} _.
Arguments pending {T} _.

Definition advance {T : Type} (m : blocked_matrix T)
    : bool * blocked_matrix T :=
  match pending m with
  | [] => (false, m)
  | b :: rest =>
      (true, mkBlocked (is_blocked m) b (offset m + length (window m)) rest)
  end.

(** What the kernel does that a caller could observe had it happened before
    a failure: a score computed, a heap updated. *)
Inductive event : Type :=
| ScoreComputed
| HeapUpdated.

(** Modelled from the spec: [algorithm.h] is not among the sources.  "each
    worker receives (item, worker_id n, global_index i)"; the outer axis is
    cut into [nthreads] runs of consecutive items. *)
Definition worker_of (nthreads size i : nat) : nat :=
  i / ((size + nthreads - 1) / nthreads).

Section VqQueryHeap.
Context {T U : Type} `{Scalar T} `{Scalar U}.

Abbreviation heaps := (list (list k_min_heap)) (only parsing).

Definition insert_at (scores : heaps) (n j : nat) (score : Q) (id : nat)
    : heaps :=
  alter (alter (fun h => snd (heap_insert false h score id)) j) n scores.

(** The body of the parallel loop for the database vector [db_vec] with
    index [i], run by worker [n]. *)
Definition scan_vector (db : blocked_matrix T) (q : blocked_matrix U)
    (size_q n : nat) (st : heaps * list event) (i : nat) (db_vec : list T)
    : heaps * list event :=
  fold_left (fun (st : heaps * list event) (j : nat) =>
      let score := sum_of_squares (default [] (window q !! j)) db_vec in
      let scores' :=
        if is_blocked db then insert_at (fst st) n j score (i + offset db)
        else if is_blocked q then insert_at (fst st) n (j + offset q) score i
        else insert_at (fst st) n j score i in
      (scores', snd st ++ [ScoreComputed; HeapUpdated]))
    (seq 0 size_q) st.

Definition scan_block (nthreads : nat) (db : blocked_matrix T)
    (q : blocked_matrix U) (size_q : nat) (st : heaps * list event)
    : heaps * list event :=
  fold_left (fun st (iv : nat * list T) =>
      scan_vector db q size_q
        (worker_of nthreads (length (window db)) (fst iv)) st (fst iv) (snd iv))
    (imap (fun i v => (i, v)) (window db)) st.

(** The [for (;;)] loop: scan the resident block, advance the matrix that is
    streamed, stop when it has no further block. *)
Fixpoint scan_all (fuel nthreads : nat) (db : blocked_matrix T)
    (q : blocked_matrix U) (size_q : nat) (st : heaps * list event)
    : result (heaps * list event * blocked_matrix U) :=
  match fuel with
  | 0 => inl OutOfFuel
  | S fuel' =>
      let st' := scan_block nthreads db q size_q st in
      if is_blocked db then
        let '(more, db') := advance db in
        if more then scan_all fuel' nthreads db' q size_q st'
        else inr (st', q)
      else
        let '(more, q') := advance q in
        if more then scan_all fuel' nthreads db q' size_q st'
        else inr (st', q)
  end.

(** The heaps of the workers 1, 2, ... are merged into those of worker 0. *)
Definition merge_heaps (nthreads size_q : nat) (scores : heaps) : heaps :=
  fold_left (fun sc j =>
      fold_left (fun sc n =>
          fold_left (fun sc (e : edge) => insert_at sc 0 j (fst e) (snd e))
            (entries (default (empty_heap 0)
                        (default [] (sc !! n) !! j))) sc)
        (seq 1 (nthreads - 1)) sc)
    (seq 0 size_q) scores.

(** Column [j] of [top_k]: the ids of the sorted heap over a column of [k]
    zeros. *)
Definition top_k_column (k : nat) (h : k_min_heap) : list nat :=
  let ids := take k (map snd (sort_heap (entries h))) in
  ids ++ replicate (k - length ids) 0.

Definition vq_query_heap (db : blocked_matrix T) (q : blocked_matrix U)
    (k nthreads : nat) : result (list (list nat)) * list event :=
  let block_db := is_blocked db in
  let block_q := is_blocked q in
  if block_db && block_q
  then (inl (RuntimeError "Can't block both db and q"), [])
  else
    let size_q := length (window q) in
    let scores : heaps :=
      replicate nthreads (replicate size_q (empty_heap k)) in
    match scan_all (S (length (pending db) + length (pending q))) nthreads
            db q size_q (scores, []) with
    | inl e => (inl e, [])
    | inr (st, q') =>
        let merged := merge_heaps nthreads (length (window q')) (fst st) in
        let top_k :=
          map (fun j =>
              top_k_column k
                (default (empty_heap k) (default [] (merged !! 0) !! j)))
            (seq 0 (length (window q'))) in
        (inr top_k, snd st)
    end.

End VqQueryHeap.

(** ** qv_partition of the IVF query kernels *)

Module IvfQuery.

(** [top_k] is a [std::vector<unsigned>]: the index [idx], a [size_t], is
    stored modulo [2 ^ 32]. *)
Definition to_unsigned (idx : nat) : nat :=
  Z.to_nat (Z.of_nat idx mod 2 ^ 32).

Section QvPartition.
Context {T U : Type} `{Scalar T} `{Scalar U}.

(** The loop over [i] for one query vector: [(min_score, idx)] after the
    database vectors were scored in turn.  [score] and [min_score] are
    [float]s; the embedding keeps their exact values. *)
Definition best_match (db : ColMajorMatrix T) (q_vec : list U) : Q * nat :=
  fold_left (fun (st : Q * nat) (iv : nat * list T) =>
      let score := sum_of_squares q_vec (snd iv) in
      if Qltb score (fst st) then (score, fst iv) else st)
    (imap (fun i v => (i, v)) (columns db)) (FLT_MAX, 0).

(** The task of one thread: [top_k[j] = idx] for [start <= j < stop]. *)
Definition partition_block (db : ColMajorMatrix T) (q : ColMajorMatrix U)
    (start stop : nat) (top_k : list nat) : list nat :=
  fold_left (fun top_k j =>
      <[j := to_unsigned (snd (best_match db (col q j)))]> top_k)
    (seq start (stop - start)) top_k.

(** [qv_partition(db, q, nthreads)].  The tasks write distinct entries of
    [top_k]; the embedding runs them one after the other.  With
    [nthreads = 0] the block size is a division by zero, whose behaviour is
    undefined: the embedding returns [None]. *)
Definition qv_partition (db : ColMajorMatrix T) (q : ColMajorMatrix U)
    (nthreads : nat) : option (list nat) :=
  let size_q := num_vectors q in
  let container_size := size_q in
  if nthreads =? 0 then None
  else
    let block_size := (container_size + nthreads - 1) / nthreads in
    Some
      (fold_left (fun top_k n =>
           let start := Nat.min (n * block_size) container_size in
           let stop := Nat.min ((n + 1) * block_size) container_size in
           if start =? stop then top_k
           else partition_block db q start stop top_k)
         (seq 0 nthreads) (replicate (num_vectors q) 0)).

End QvPartition.

End IvfQuery.

(** ** The recall loop of the IVF query driver *)

(** [top_k] holds [size_t] values and [groundtruth] holds [int32_t] values:
    in a comparison of the two the ground-truth value is converted to
    [size_t]. *)
Definition to_size_t (x : Z) : Z := (x mod 2 ^ 64)%Z.

Fixpoint insert_Z (x : Z) (l : list Z) : list Z :=
  match l with
  | [] => [x]
  | y :: l' => if (x <=? y)%Z then x :: l else y :: insert_Z x l'
  end.

(** [std::sort] on a range of integers. *)
Definition sort_Z (l : list Z) : list Z := fold_right insert_Z [] l.

(** [std::set_intersection] into an output iterator that counts: the walk
    over the two ranges, whatever they hold. *)
Fixpoint set_intersection (a : list Z) : list Z -> nat :=
  fix walk (b : list Z) : nat :=
    match a, b with
    | x :: a', y :: b' =>
        if (x <? to_size_t y)%Z then set_intersection a' b
        else if (to_size_t y <? x)%Z then walk b'
        else S (set_intersection a' b')
    | _, _ => 0
    end.

(** One pass of the loop over the queries: [top_k[i]] is sorted, the first
    [k_nn] entries of [groundtruth[i]] are sorted, and the whole of
    [top_k[i]] is intersected with the whole of [groundtruth[i]]. *)
Definition intersect_column (k_nn : nat) (top_k_i groundtruth_i : list Z)
    : nat :=
  set_intersection (sort_Z top_k_i)
    (sort_Z (take k_nn groundtruth_i) ++ drop k_nn groundtruth_i).

Definition total_intersected (k_nn : nat) (top_k groundtruth : ColMajorMatrix Z)
    : nat :=
  fold_left (fun total i =>
      total + intersect_column k_nn (col top_k i) (col groundtruth i))
    (seq 0 (num_vectors top_k)) 0.

Definition total_groundtruth (top_k : ColMajorMatrix Z) : nat :=
  num_vectors top_k * num_rows top_k.

Definition recall (k_nn : nat) (top_k groundtruth : ColMajorMatrix Z) : Q :=
  (inject_Z (Z.of_nat (total_intersected k_nn top_k groundtruth)) /
   inject_Z (Z.of_nat (total_groundtruth top_k)))%Q.

(** The recall of the specification, for comparison with the loop above:
    the number of ids of [result_i] that occur in [truth_i], summed over the
    queries and divided by [k] times the number of queries.  [truth_i] is
    the ground-truth top-[k] of query [i]. *)
Definition spec_intersection (result_i truth_i : list Z) : nat :=
  length (List.filter (fun x => existsb (Z.eqb x) truth_i)
            (nodup Z.eq_dec result_i)).

Definition spec_total_intersected (k_nn : nat)
    (top_k groundtruth : ColMajorMatrix Z) : nat :=
  fold_left (fun total i =>
      total + spec_intersection (col top_k i) (take k_nn (col groundtruth i)))
    (seq 0 (num_vectors top_k)) 0.

Definition spec_recall (k_nn : nat) (top_k groundtruth : ColMajorMatrix Z) : Q :=
  (inject_Z (Z.of_nat (spec_total_intersected k_nn top_k groundtruth)) /
   inject_Z (Z.of_nat (k_nn * num_vectors top_k)))%Q.

(** * Invariants, specification-side definitions and sample inputs

    What the statements of the proofs refer to beyond the program itself. *)

(** ** Sorted lists of entries *)

(** The head of a list in ascending order of score is a smallest entry. *)
Definition head_least (l : list edge) : Prop :=
  match l with
  | [] => True
  | x :: l' => forall e, In e l' -> (fst x <= fst e)%Q
  end.

Fixpoint ascending (l : list edge) : Prop :=
  match l with
  | [] => True
  | x :: l' => head_least l /\ ascending l'
  end.

(** ** The nodes a search can meet *)

(** The targets of all the edges of a graph. *)
Definition all_targets (G : adj_list) : list nat := concat (map targets G).

Section SearchInvariants.
Variables (G : adj_list) (source : nat).

Definition nodes_of_search : list nat := source :: all_targets G.

Definition ids_known (l : list edge) : Prop :=
  forall e, In e l -> In (snd e) nodes_of_search.

End SearchInvariants.

Section SourceKept.
Context {T : Type} `{Scalar T}.
Variables (G : adj_list) (db : ColMajorMatrix T) (s : nat).

(** The result list while [DB[s]] is searched for from [s]: the entry of [s]
    is there, every entry is [s] or the target of an edge, and its score is
    its distance to [DB[s]]. *)
Definition source_kept (res : k_min_heap) : Prop :=
  (exists e, In e (entries res) /\ snd e = s) /\
  (forall e, In e (entries res) ->
     (snd e = s \/ In (snd e) (all_targets G)) /\
     (fst e == sum_of_squares (col db (snd e)) (col db s))%Q).

End SourceKept.

(** ** The flattened graph *)

(** The offset of the out-edges of node [i] in the flattened graph. *)
Definition offset_of (G : adj_list) (i : nat) : nat :=
  length (concat (take i G)).

(** The state of the flattening loop after the first [i] nodes. *)
Definition csr_after (G : adj_list) (i : nat) : csr :=
  mkCsr
    (map fst (concat (take i G))
       ++ replicate (num_edges G - offset_of G i) 0%Q)
    (map snd (concat (take i G))
       ++ replicate (num_edges G - offset_of G i) 0)
    (map (fun j => to_index_type (offset_of G j)) (seq 0 i)
       ++ replicate (num_vertices G + 1 - i) 0%Z)
    (offset_of G i).

(** ** Distinct training vectors and the seeding invariant *)

(** Two vectors hold the same values, as [std::equal] compares them. *)
Definition same_vector {T : Type} `{Scalar T} (a b : list T) : Prop :=
  Forall2 (fun x y => (to_Q x == to_Q y)%Q) a b.

Definition pairwise_distinct {T : Type} `{Scalar T} (M : ColMajorMatrix T)
    : Prop :=
  forall i j, i < num_vectors M -> j < num_vectors M -> i <> j ->
              ~ same_vector (col M i) (col M j).

Section SeedingInvariant.
Context {T : Type} `{Scalar T}.
Variables (training_set : ColMajorMatrix T) (K : nat).

(** What holds of the seeding state when [i] centroids have been chosen. *)
Record seeding_inv (i : nat) (st : seeding) : Prop := mkSeedingInv {
  inv_length : length (seed_picks st) = i;
  inv_nodup : NoDup (seed_picks st);
  inv_bound : forall c, In c (seed_picks st) -> c < num_vectors training_set;
  inv_columns : length (columns (seed_centroids st)) = K;
  inv_centroid : forall t c, seed_picks st !! t = Some c ->
    col (seed_centroids st) t = col training_set c;
  inv_distances : length (seed_distances st) = num_vectors training_set;
  inv_weight : forall j w, seed_distances st !! j = Some w ->
    (0 <= w)%Q /\
    (~ In j (seed_picks st) -> (0 < w)%Q) /\
    (In j (seed_picks st) -> i = 1 \/ (w == 0)%Q)
}.

End SeedingInvariant.

(** ** The second pass of the build, as the specification has it *)

(** The build of the specification, for comparison with [train_tmp] and
    [post_search_prune]: "form tmp = {p} ∪ N_out(j); if |tmp| > R_max,
    robust_prune(G, F, j, tmp, alpha, R_max); else add_edge(j, p,
    L2(F[p], F[j]))". *)
Definition spec_tmp (G : adj_list) (p j : nat) : list nat :=
  p :: targets (out_edges G j).

Definition spec_post_search_prune {T : Type} `{Scalar T}
    (map_order : list (nat * Q) -> list (nat * Q)) (db : ColMajorMatrix T)
    (p : nat) (alpha : Q) (R : nat) (G : adj_list) (j : nat)
    : result adj_list :=
  let tmp := spec_tmp G p j in
  if R <? length tmp
  then robust_prune map_order G db j tmp alpha R
  else inr (add_edge G j p (sum_of_squares (col db p) (col db j))).

(** ** Pruned lists, result lists and built graphs *)

(** Of two out-edges of a list, the later one survived the pruning that
    followed the choice of the earlier one: [alpha * d(a, b) > d(p, b)], with
    [d(p, b)] the score the edge to [b] stores. *)
Definition alpha_diverse {T : Type} `{Scalar T} (db : ColMajorMatrix T)
    (alpha : Q) (l : list edge) : Prop :=
  forall i j a b, i < j -> l !! i = Some a -> l !! j = Some b ->
    (fst b < alpha * sum_of_squares (col db (snd a)) (col db (snd b)))%Q.

(** What holds of the result list of a search for [query]: no id twice, and
    every entry scored with the distance of its vector to the query. *)
Definition scored_by {T U : Type} `{Scalar T} `{Scalar U}
    (db : ColMajorMatrix T) (query : list U) (l : list edge) : Prop :=
  forall e, In e l -> fst e = sum_of_squares (col db (snd e)) query.

Definition result_inv {T U : Type} `{Scalar T} `{Scalar U}
    (db : ColMajorMatrix T) (query : list U) (res : k_min_heap) : Prop :=
  NoDup (targets (entries res)) /\ scored_by db query (entries res).

(** The centroid that [medioid] compares the vectors with: the mean of the
    vectors of [P], coordinate by coordinate. *)
Definition medioid_centroid {T : Type} `{Scalar T} (P : ColMajorMatrix T)
    : list Q :=
  map (fun c => (c / inject_Z (Z.of_nat (num_vectors P)))%Q)
    (fold_left accumulate (columns P) (replicate (length (col P 0)) 0%Q)).

(** What the build keeps of a graph over [n] vectors with degree bound [R]:
    one list per vector, and on every list at most [R] edges, each to
    another node and scored with the distance between its two ends. *)
Definition build_inv {T : Type} `{Scalar T} (db : ColMajorMatrix T)
    (n R : nat) (G : adj_list) : Prop :=
  num_vertices G = n /\
  forall p, out_degree G p <= R /\
    forall e, In e (out_edges G p) ->
      snd e < n /\ snd e <> p /\
      fst e = sum_of_squares (col db (snd e)) (col db p).

(** ** Stored metadata and compared edges *)

(** Two out-edges that the comparisons take for the same. *)
Definition same_edge (a b : edge) : Prop :=
  (fst a == fst b)%Q /\ snd a = snd b.

(** The names of the metadata table, in the order in which the loading
    constructor asks for them, and the two that are stored as [float]. *)
Definition metadata_names : list string :=
  ["dimension"; "ntotal"; "L"; "R"; "B"; "alpha_min"; "alpha_max";
   "medioid"]%string.

Definition stored_as_float (name : string) : bool :=
  (String.eqb name "alpha_min" || String.eqb name "alpha_max")%bool.

(** The group stores the entry [name] with the datatype the table declares
    for it. *)
Definition stored_as_declared {T : Type} (g : group T) (name : string)
    : Prop :=
  match group_metadata g !! name with
  | Some (MetaUInt64 _) => stored_as_float name = false
  | Some (MetaFloat32 _) => stored_as_float name = true
  | None => False
  end.

(** ** Assigned vectors and sorted id columns *)

(** The training vectors that an iteration assigns to centroid [j], in the
    order of the training set. *)
Definition assigned_vectors {T : Type} `{Scalar T} (idx : kmeans_index T)
    (training_set : ColMajorMatrix T) (j : nat) : list (list T) :=
  map snd
    (List.filter (fun pv : nat * list T => fst pv =? j)
       (zip (qv_partition (centroids_ idx) training_set)
          (columns training_set))).

(** A list of integers in ascending order. *)
Fixpoint sorted_Z (l : list Z) : Prop :=
  match l with
  | [] => True
  | x :: l' => (forall y, In y l' -> (x <= y)%Z) /\ sorted_Z l'
  end.

(** ** The heaps of the workers and the nearest vectors *)

(** A heap after the pairs of a list were offered to it one after the
    other. *)
Definition insert_all (h : k_min_heap) (l : list edge) : k_min_heap :=
  fold_left (fun h (e : edge) => snd (heap_insert false h (fst e) (snd e)))
    l h.

(** The heap of worker [n] for query [j]. *)
Definition heap_at (scores : list (list k_min_heap)) (n j : nat)
    : k_min_heap :=
  default (empty_heap 0) (default [] (scores !! n) !! j).

(** One row of heaps per worker, one heap per query in every row. *)
Definition rows_ok (nthreads size_q : nat) (sc : list (list k_min_heap))
    : Prop :=
  length sc = nthreads /\ Forall (fun row => length row = size_q) sc.

(** A heap of capacity [k] holds a selection of [k] smallest pairs of [S]:
    its entries are distinct pairs of [S], and a pair of [S] that it does not
    hold is at least as large as every entry of the heap, which is then
    full. *)
Definition selects (h : k_min_heap) (S : list edge) : Prop :=
  NoDup (entries h) /\
  incl (entries h) S /\
  length (entries h) <= capacity h /\
  forall e, In e S ->
    In e (entries h) \/
    (length (entries h) = capacity h /\
     forall x, In x (entries h) -> (fst x <= fst e)%Q).

(** [ids] are the indices of [k] nearest vectors of [db] to [qv], nearest
    first: as many as [k] and the size of [db] allow, no index twice, in
    ascending order of distance, and no vector left out is nearer than one
    that is listed. *)
Definition k_nearest {T U : Type} `{Scalar T} `{Scalar U}
    (db : list (list T)) (qv : list U) (k : nat) (ids : list nat) : Prop :=
  let score := fun i => sum_of_squares qv (default [] (db !! i)) in
  length ids = Nat.min k (length db) /\
  NoDup ids /\
  (forall i, In i ids -> i < length db) /\
  (forall a b ia ib, a <= b -> ids !! a = Some ia -> ids !! b = Some ib ->
     (score ia <= score ib)%Q) /\
  (forall i i', In i ids -> i' < length db -> ~ In i' ids ->
     (score i <= score i')%Q).

(** The id under which the kernel offers the vector [i] of the resident
    block: its position in the whole database when the database is
    streamed. *)
Definition scanned_id {T : Type} (db : blocked_matrix T) (i : nat) : nat :=
  if is_blocked db then i + offset db else i.

(** The pair that the kernel offers to the heap of query [j] for the vector
    [i] of the resident block. *)
Definition offer {T U : Type} `{Scalar T} `{Scalar U}
    (db : blocked_matrix T) (q : blocked_matrix U) (j i : nat) : edge :=
  (sum_of_squares (default [] (window q !! j)) (default [] (window db !! i)),
   scanned_id db i).

(** The pairs of the resident block that worker [n] offers to its heap of
    query [j], and the pairs that it offers over a whole stream of
    blocks. *)
Definition block_pairs {T U : Type} `{Scalar T} `{Scalar U}
    (nthreads : nat) (db : blocked_matrix T) (q : blocked_matrix U)
    (j n : nat) : list edge :=
  map (offer db q j)
    (List.filter (fun i => worker_of nthreads (length (window db)) i =? n)
       (seq 0 (length (window db)))).

Fixpoint stream_pairs {T U : Type} `{Scalar T} `{Scalar U}
    (nthreads : nat) (q : blocked_matrix U) (j n : nat) (w : list (list T))
    (off : nat) (ps : list (list (list T))) : list edge :=
  block_pairs nthreads (mkBlocked true w off ps) q j n ++
  match ps with
  | [] => []
  | b :: rest => stream_pairs nthreads q j n b (off + length w) rest
  end.

(** The pairs of all the vectors of a database whose first vector has the
    id [off]. *)
Definition all_pairs {T U : Type} `{Scalar T} `{Scalar U}
    (qv : list U) (db : list (list T)) (off : nat) : list edge :=
  map (fun a => (sum_of_squares qv (default [] (db !! a)), a + off))
    (seq 0 (length db)).

(** [idx] is the first of the database vectors nearest to [q_vec]; for an
    empty database it is 0. *)
Definition first_nearest {T U : Type} `{Scalar T} `{Scalar U}
    (db : ColMajorMatrix T) (q_vec : list U) (idx : nat) : Prop :=
  let score := fun i => sum_of_squares q_vec (col db i) in
  (idx < num_vectors db /\
   (forall i, i < num_vectors db -> (score idx <= score i)%Q) /\
   (forall i, i < idx -> (score idx < score i)%Q))
  \/
  (num_vectors db = 0 /\ idx = 0).

(** ** Inputs on which the arithmetic of float is exact *)

(** The kernels compute centroids and scores in [float]; the embedding
    computes them in [Q].  The two agree where no operation rounds.  A
    [float] holds every integer of magnitude at most [2 ^ 24]: sums,
    differences and squares of integers that stay within this bound, and a
    quotient that is such an integer, come out as they are in [Q]. *)
Definition float_integer (x : Q) : Prop :=
  exists z : Z, x == inject_Z z /\ (Z.abs z <= 2 ^ 24)%Z.

Definition integer_vectors {T : Type} `{Scalar T} (l : list (list T))
    : Prop :=
  Forall (Forall (fun x => float_integer (to_Q x))) l.

(** The scores of the queries [qs] against the vectors [db]: integer
    entries on both sides, and no score above [2 ^ 24]. *)
Definition exact_scores {T U : Type} `{Scalar T} `{Scalar U}
    (qs : list (list U)) (db : list (list T)) : Prop :=
  integer_vectors qs /\ integer_vectors db /\
  forall qv v, In qv qs -> In v db ->
    (sum_of_squares qv v <= inject_Z (2 ^ 24))%Q.

(** The centroid and the scores of [medioid]: integer entries whose sums
    stay within the bound ([B] bounds every entry), a centroid with integer
    coordinates, and no score above [2 ^ 24]. *)
Definition exact_medioid {T : Type} `{Scalar T} (P : ColMajorMatrix T)
    : Prop :=
  integer_vectors (columns P) /\
  (exists B : Z,
     Forall (Forall (fun x => (Qabs (to_Q x) <= inject_Z B)%Q)) (columns P) /\
     (Z.of_nat (num_vectors P) * B <= 2 ^ 24)%Z) /\
  Forall float_integer (medioid_centroid P) /\
  forall j, j < num_vectors P ->
    (sum_of_squares (col P j) (medioid_centroid P) <= inject_Z (2 ^ 24))%Q.

(** ** Sample inputs *)

(** A hash map that hands out its entries as [map_to_list] lists them. *)
Definition insertion_order (l : list (nat * Q)) : list (nat * Q) := l.

(** Four vectors on a line, and a graph on them with the edge from 1 to 2. *)
Definition line_db : ColMajorMatrix Z :=
  mkMatrix 1 [[0%Z]; [1%Z]; [3%Z]; [7%Z]].

Definition line_graph : adj_list := [[]; [(4%Q, 2)]; []; []].

(** Two nodes that hold the same vector, the second pointing at the
    first. *)
Definition twin_db : ColMajorMatrix Z := mkMatrix 1 [[1%Z]; [1%Z]].

Definition twin_graph : adj_list := [[]; [(0%Q, 0)]].

(** Two nodes with different vectors that point at each other, and the
    index that holds them. *)
Definition pair_db : ColMajorMatrix Z := mkMatrix 1 [[0%Z]; [1%Z]].

Definition pair_graph : adj_list := [[(1%Q, 1)]; [(1%Q, 0)]].

Definition trained_pair : vamana_index Z :=
  mkIndex pair_db 1 2 2 2 2 1%Q (6 # 5)%Q pair_graph 0.

(** Centroids 0 and 5 before an iteration over the training vectors 0
    and 1. *)
Definition stale_kmeans : kmeans_index Q :=
  mkKmeans 1 2 1 1 (mkMatrix 1 [[0%Q]; [5%Q]]).

Definition near_zero : ColMajorMatrix Q := mkMatrix 1 [[0%Q]; [1%Q]].

(** A random source whose every draw is one half. *)
Definition half_draws (i : nat) : Q := (1 # 2)%Q.

(** A database and a query matrix that are both read block by block. *)
Definition streamed_db : blocked_matrix Z :=
  mkBlocked true [[0%Z]; [5%Z]] 0 [[[7%Z]; [1%Z]]].

Definition streamed_q : blocked_matrix Z := mkBlocked true [[1%Z]] 0 [].

(** The graph on the line after node 1 was pruned against all four nodes. *)
Definition pruned_line_graph : adj_list :=
  [[]; [(1%Q, 0); (4%Q, 2)]; []; []].

(** What the index of the two nodes answers to its own two vectors. *)
Definition answered_pair : query_state :=
  mkQueryState (mkMatrix 1 [[0%Q]; [0%Q]]) (mkMatrix 1 [[0]; [1]]) 4.

(** A group that stores the feature vectors and the entry [dimension]
    only, and a group with a wrong [ntotal]: the two feature vectors of the
    two-node index under the metadata and the arrays of a graph of three
    nodes. *)
Definition partial_group : group Z :=
  mkGroup {[ "dimension"%string := MetaUInt64 1 ]} ["feature_vectors"%string]
    {[ "feature_vectors"%string := FeatureArray pair_db ]}.

Definition miscounted_group : group Z :=
  written_group
    (mkIndex pair_db 1 3 2 2 2 1%Q (6 # 5)%Q (pair_graph ++ [[]]) 0).

(** One query with the result ids 1 and 5, and a ground truth of two rows. *)
Definition found_ids : ColMajorMatrix Z := mkMatrix 2 [[1; 5]%Z].

Definition true_ids : ColMajorMatrix Z := mkMatrix 2 [[5; 3]%Z].

(** Four vectors on a line whose centroid is the integer 3. *)
Definition centred_db : ColMajorMatrix Z :=
  mkMatrix 1 [[0%Z]; [1%Z]; [3%Z]; [8%Z]].

(** A database and two queries that are wholly resident, and the same
    database streamed in two blocks. *)
Definition resident_db : blocked_matrix Z :=
  mkBlocked false [[0%Z]; [5%Z]; [2%Z]] 0 [].

Definition resident_q : blocked_matrix Z :=
  mkBlocked false [[1%Z]; [4%Z]] 0 [].

Definition two_block_db : blocked_matrix Z :=
  mkBlocked true [[0%Z]; [5%Z]] 0 [[[2%Z]]].

(** Three queries on the line. *)
Definition line_queries : ColMajorMatrix Z :=
  mkMatrix 1 [[2%Z]; [9%Z]; [0%Z]].

(** * Proofs *)

(** [greedy_search] is [greedy_search_in] in a build that checks the
    assertion. *)
Ltac unfold_greedy_search :=
  unfold greedy_search, greedy_search_in; simpl checks; simpl andb.

Ltac fold_greedy_search :=
  repeat match goal with
  | |- context [@greedy_search_in ?T ?U ?H ?H0 Checked ?G ?db ?s ?q ?k ?L] =>
      change (@greedy_search_in T U H H0 Checked G db s q k L)
        with (@greedy_search T U H H0 G db s q k L)
  end.

(** The functions of [vamana_index::query] in a build that checks the
    assertion of [greedy_search]. *)
Ltac unfold_query_column :=
  unfold query_column, query_column_in; fold_greedy_search.

Ltac unfold_query :=
  unfold query, query_in;
  repeat match goal with
  | |- context [@query_column_in ?T ?U ?H ?H0 Checked ?idx ?qs ?k ?L] =>
      change (@query_column_in T U H H0 Checked idx qs k L)
        with (@query_column T U H H0 idx qs k L)
  end.

(** ** Scores *)

Lemma Qltb_lt (a b : Q) : Qltb a b = true <-> (a < b)%Q.
Proof.
  unfold Qltb. rewrite negb_true_iff. split.
  - intros Hle. apply Qnot_le_lt. intros Hba.
    apply Qle_bool_iff in Hba. congruence.
  - intros Hlt. destruct (Qle_bool b a) eqn:Hle; [|reflexivity].
    apply Qle_bool_iff in Hle. exfalso. exact (Qlt_not_le _ _ Hlt Hle).
Qed.

Lemma Qltb_ge (a b : Q) : Qltb a b = false <-> (b <= a)%Q.
Proof.
  unfold Qltb. rewrite negb_false_iff. apply Qle_bool_iff.
Qed.

Lemma Qsquare_nonneg (a : Q) : (0 <= a * a)%Q.
Proof.
  unfold Qle, Qmult. simpl. rewrite Z.mul_1_r. apply Z.square_nonneg.
Qed.

Lemma sum_sq_nonneg (a b : list Q) : (0 <= sum_sq a b)%Q.
Proof.
  revert b. induction a as [|x a IH]; intros [|y b]; simpl;
    try apply Qle_refl.
  specialize (IH b). pose proof (Qsquare_nonneg (x - y)). lra.
Qed.

Lemma sum_sq_diag (a : list Q) : (sum_sq a a == 0)%Q.
Proof.
  induction a as [|x a IH]; simpl; [reflexivity|]. rewrite IH. ring.
Qed.

Lemma sum_of_squares_nonneg {T U : Type} `{Scalar T} `{Scalar U}
    (a : list T) (b : list U) : (0 <= sum_of_squares a b)%Q.
Proof. apply sum_sq_nonneg. Qed.

Lemma sum_of_squares_diag {T : Type} `{Scalar T} (a : list T) :
  (sum_of_squares a a == 0)%Q.
Proof. apply sum_sq_diag. Qed.

(** ** Adjacency lists *)

Lemma num_vertices_add_edge (G : adj_list) (p q : nat) (s : Q) :
  num_vertices (add_edge G p q s) = num_vertices G.
Proof. apply length_alter. Qed.

Lemma num_vertices_clear (G : adj_list) (p : nat) :
  num_vertices (clear_out_edges G p) = num_vertices G.
Proof. apply length_insert. Qed.

Lemma out_edges_add_edge_eq (G : adj_list) (p q : nat) (s : Q) :
  p < num_vertices G ->
  out_edges (add_edge G p q s) p = out_edges G p ++ [(s, q)].
Proof.
  intros Hp. unfold out_edges, add_edge. rewrite list_lookup_alter_eq.
  destruct (lookup_lt_is_Some_2 G p Hp) as [l Hl]. rewrite Hl. reflexivity.
Qed.

Lemma out_edges_add_edge_ne (G : adj_list) (p p' q : nat) (s : Q) :
  p <> p' -> out_edges (add_edge G p q s) p' = out_edges G p'.
Proof.
  intros Hne. unfold out_edges, add_edge.
  rewrite list_lookup_alter_ne by exact Hne. reflexivity.
Qed.

Lemma out_edges_clear_eq (G : adj_list) (p : nat) :
  out_edges (clear_out_edges G p) p = [].
Proof.
  unfold out_edges, clear_out_edges.
  destruct (decide (p < length G)) as [Hp|Hp].
  - rewrite list_lookup_insert_eq by exact Hp. reflexivity.
  - rewrite list_insert_ge by lia. rewrite lookup_ge_None_2 by lia.
    reflexivity.
Qed.

Lemma out_edges_clear_ne (G : adj_list) (p p' : nat) :
  p <> p' -> out_edges (clear_out_edges G p) p' = out_edges G p'.
Proof.
  intros Hne. unfold out_edges, clear_out_edges.
  rewrite list_lookup_insert_ne by exact Hne. reflexivity.
Qed.

(** ** robust_prune *)

Lemma min_element_In (V : list edge) (e : edge) :
  min_element V = Some e -> In e V.
Proof.
  destruct V as [|e0 V]; simpl; [discriminate|].
  intros Heq. injection Heq as <-.
  assert (Hgen : forall l m,
    In (fold_left (fun m x : edge => if Qltb (fst x) (fst m) then x else m)
          l m) (m :: l)).
  { induction l as [|x l IH]; intros m; simpl; [left; reflexivity|].
    destruct (IH (if Qltb (fst x) (fst m) then x else m)) as [Hhd|Htl].
    - destruct (Qltb (fst x) (fst m)); [right; left|left]; exact Hhd.
    - right; right; exact Htl. }
  apply Hgen.
Qed.

Lemma min_element_None (V : list edge) : min_element V = None -> V = [].
Proof. destruct V; [reflexivity|discriminate]. Qed.

Lemma filter_length_lt {A : Type} (f : A -> bool) (l : list A) (x : A) :
  In x l -> f x = false -> length (List.filter f l) < length l.
Proof.
  induction l as [|y l IH]; simpl; [contradiction|].
  intros [->|Hin] Hfx.
  - rewrite Hfx. pose proof (List.filter_length_le f l). lia.
  - specialize (IH Hin Hfx). destruct (f y); simpl; lia.
Qed.

Lemma NoDup_targets_inj (V : list edge) (e1 e2 : edge) :
  NoDup (targets V) -> In e1 V -> In e2 V -> snd e1 = snd e2 -> e1 = e2.
Proof.
  unfold targets. induction V as [|e V IH]; simpl; [contradiction|].
  intros Hnd H1 H2 Heq. apply NoDup_cons in Hnd as [Hnotin Hnd].
  destruct H1 as [->|H1], H2 as [->|H2].
  - reflexivity.
  - exfalso. apply Hnotin. apply list_elem_of_In. rewrite Heq.
    apply in_map. exact H2.
  - exfalso. apply Hnotin. apply list_elem_of_In. rewrite <- Heq.
    apply in_map. exact H1.
  - apply IH; assumption.
Qed.

Lemma NoDup_targets_filter (f : edge -> bool) (V : list edge) :
  NoDup (targets V) -> NoDup (targets (List.filter f V)).
Proof.
  unfold targets. induction V as [|e V IH]; simpl; [intros; constructor|].
  intros Hnd. apply NoDup_cons in Hnd as [Hnotin Hnd].
  destruct (f e); simpl; [|apply IH; exact Hnd].
  apply NoDup_cons. split; [|apply IH; exact Hnd].
  intros Hin. apply Hnotin. apply list_elem_of_In in Hin.
  apply list_elem_of_In. apply in_map_iff in Hin as (e' & He' & Hin').
  apply in_map_iff. exists e'. split; [exact He'|].
  apply List.filter_In in Hin'. tauto.
Qed.

Section RobustPruneProofs.
Context {T : Type} `{Scalar T}.
Variable map_order : list (nat * Q) -> list (nat * Q).
Hypothesis map_order_perm : forall l, Permutation (map_order l) l.

Lemma keep_candidate_star (db : ColMajorMatrix T) (p p_star : nat)
    (alpha s_star : Q) :
  (0 <= s_star)%Q -> keep_candidate db p p_star alpha (s_star, p_star) = false.
Proof.
  intros Hs. unfold keep_candidate. simpl.
  assert (Hle : (alpha * sum_of_squares (col db p_star) (col db p_star)
                 <= s_star)%Q).
  { rewrite sum_of_squares_diag. rewrite Qmult_0_r. exact Hs. }
  apply Qle_bool_iff in Hle. rewrite Hle. reflexivity.
Qed.

(** The loop of [robust_prune], from a state in which the candidates are
    distinct, different from [p], at non-negative distance, and none of them
    is an out-neighbour of [p] yet. *)
Lemma prune_loop_spec (fuel : nat) (db : ColMajorMatrix T) (p : nat)
    (alpha : Q) (R : nat) :
  forall (G : adj_list) (V : list edge),
  p < num_vertices G ->
  length V < fuel ->
  NoDup (targets V) ->
  ~ In p (targets V) ->
  (forall e, In e V -> (0 <= fst e)%Q) ->
  NoDup (targets (out_edges G p)) ->
  ~ In p (targets (out_edges G p)) ->
  (forall x, In x (targets (out_edges G p)) -> ~ In x (targets V)) ->
  out_degree G p < R ->
  exists G',
    prune_loop fuel db p alpha R G V = inr G' /\
    num_vertices G' = num_vertices G /\
    (forall p', p' <> p -> out_edges G' p' = out_edges G p') /\
    NoDup (targets (out_edges G' p)) /\
    ~ In p (targets (out_edges G' p)) /\
    out_degree G' p <= R.
Proof.
  induction fuel as [|fuel IH]; intros G V Hp Hfuel HndV HpV Hpos HndG HpG
    Hdisj Hdeg; [lia|].
  simpl. destruct (min_element V) as [[s_star p_star]|] eqn:Hmin.
  - pose proof (min_element_In _ _ Hmin) as Hin.
    assert (Hne : p_star <> p).
    { intros ->. apply HpV. unfold targets.
      change p with (snd (s_star, p)). apply in_map. exact Hin. }
    apply Nat.eqb_neq in Hne as Hneb. rewrite Hneb.
    assert (Hout : out_edges (add_edge G p p_star s_star) p
                   = out_edges G p ++ [(s_star, p_star)])
      by (apply out_edges_add_edge_eq; exact Hp).
    assert (Hstar_in : In p_star (targets V)).
    { unfold targets. change p_star with (snd (s_star, p_star)).
      apply in_map. exact Hin. }
    assert (HndG' : NoDup (targets (out_edges (add_edge G p p_star s_star) p))).
    { rewrite Hout. unfold targets. rewrite map_app. simpl.
      apply NoDup_app. split; [exact HndG|]. split.
      - intros x Hx Hx'. apply list_elem_of_In in Hx.
        apply list_elem_of_In in Hx'. destruct Hx' as [<-|[]].
        exact (Hdisj _ Hx Hstar_in).
      - apply NoDup_singleton. }
    assert (HpG' : ~ In p (targets (out_edges (add_edge G p p_star s_star) p))).
    { rewrite Hout. unfold targets. rewrite map_app. simpl.
      rewrite in_app_iff. simpl. intros [Hold|[Heq|[]]].
      - exact (HpG Hold).
      - exact (Hne Heq). }
    assert (Hdeg' : out_degree (add_edge G p p_star s_star) p
                    = S (out_degree G p)).
    { unfold out_degree. rewrite Hout. rewrite length_app. simpl. lia. }
    destruct (out_degree (add_edge G p p_star s_star) p =? R) eqn:HR.
    + apply Nat.eqb_eq in HR. eexists. split; [reflexivity|].
      split; [apply num_vertices_add_edge|].
      split; [intros p' Hp'; apply out_edges_add_edge_ne; congruence|].
      split; [exact HndG'|]. split; [exact HpG'|]. lia.
    + apply Nat.eqb_neq in HR.
      set (V' := List.filter (keep_candidate db p p_star alpha) V).
      assert (Hlen : length V' < length V).
      { apply (filter_length_lt _ _ (s_star, p_star) Hin).
        apply keep_candidate_star. exact (Hpos _ Hin). }
      destruct (IH (add_edge G p p_star s_star) V') as (G' & Hrun & Hnv & Hfr & Hres).
      * rewrite num_vertices_add_edge. exact Hp.
      * lia.
      * apply NoDup_targets_filter. exact HndV.
      * intros Hin'. apply HpV. unfold targets in *.
        apply in_map_iff in Hin' as (e & He & Hin').
        apply in_map_iff. exists e. split; [exact He|].
        apply List.filter_In in Hin'. tauto.
      * intros e He. apply Hpos. apply List.filter_In in He. tauto.
      * exact HndG'.
      * exact HpG'.
      * intros x Hx Hx'. rewrite Hout in Hx. unfold targets in Hx, Hx'.
        rewrite map_app in Hx. apply in_app_iff in Hx.
        apply in_map_iff in Hx' as (e & He & Hin').
        apply List.filter_In in Hin' as [HeV Hkeep].
        destruct Hx as [Hold|[Heq|[]]].
        -- apply (Hdisj x Hold). unfold targets. apply in_map_iff.
           exists e. split; assumption.
        -- simpl in Heq. subst x.
           assert (e = (s_star, p_star)).
           { apply (NoDup_targets_inj V); try assumption. }
           subst e. rewrite keep_candidate_star in Hkeep; [discriminate|].
           exact (Hpos _ Hin).
      * lia.
      * exists G'. split; [exact Hrun|].
        split; [rewrite Hnv; apply num_vertices_add_edge|].
        split; [|exact Hres].
        intros p' Hp'. rewrite (Hfr p' Hp').
        apply out_edges_add_edge_ne. congruence.
  - exists G. split; [reflexivity|]. split; [reflexivity|].
    split; [reflexivity|]. split; [exact HndG|]. split; [exact HpG|]. lia.
Qed.

(** The loop ends within [R] passes when it starts below the degree [R],
    whatever the scores: every pass adds an out-edge to [p]. *)
Lemma prune_loop_returns (fuel : nat) (db : ColMajorMatrix T) (p : nat)
    (alpha : Q) (R : nat) :
  forall (G : adj_list) (V : list edge),
  p < num_vertices G ->
  ~ In p (targets V) ->
  out_degree G p < R ->
  R - out_degree G p <= fuel ->
  exists G', prune_loop fuel db p alpha R G V = inr G'.
Proof.
  induction fuel as [|fuel IH]; intros G V Hp HpV Hdeg Hfuel; [lia|].
  simpl. destruct (min_element V) as [[s_star p_star]|] eqn:Hmin;
    [|eexists; reflexivity].
  pose proof (min_element_In _ _ Hmin) as Hin.
  assert (Hne : p_star <> p).
  { intros ->. apply HpV. unfold targets.
    change p with (snd (s_star, p)). apply in_map. exact Hin. }
  apply Nat.eqb_neq in Hne. rewrite Hne.
  assert (Hdeg' : out_degree (add_edge G p p_star s_star) p
                  = S (out_degree G p)).
  { unfold out_degree. rewrite (out_edges_add_edge_eq _ _ _ _ Hp).
    rewrite length_app. simpl. lia. }
  destruct (out_degree (add_edge G p p_star s_star) p =? R) eqn:HR;
    [eexists; reflexivity|].
  apply Nat.eqb_neq in HR. apply IH.
  - rewrite num_vertices_add_edge. exact Hp.
  - intros Hin'. apply HpV. unfold targets in *.
    apply in_map_iff in Hin' as (e & He & Hin').
    apply in_map_iff. exists e. split; [exact He|].
    apply List.filter_In in Hin'. tauto.
  - lia.
  - lia.
Qed.

End RobustPruneProofs.

Section RobustPruneCandidates.
Context {T : Type} `{Scalar T}.

Lemma try_emplace_inv (P : nat -> Q -> Prop) (m : gmap nat Q) (k : nat)
    (v : Q) :
  (forall k' v', m !! k' = Some v' -> P k' v') -> P k v ->
  forall k' v', try_emplace m k v !! k' = Some v' -> P k' v'.
Proof.
  intros Hm Hkv k' v'. unfold try_emplace.
  destruct (m !! k) eqn:Hk; [apply Hm|].
  destruct (decide (k = k')) as [<-|Hne].
  - rewrite lookup_insert_eq. intros [= <-]. exact Hkv.
  - rewrite lookup_insert_ne by exact Hne. apply Hm.
Qed.

Lemma fold_try_emplace_inv {A : Type} (P : nat -> Q -> Prop)
    (key : A -> nat) (val : A -> Q) (skip : A -> bool) (l : list A) :
  (forall a, In a l -> skip a = false -> P (key a) (val a)) ->
  forall m : gmap nat Q,
  (forall k v, m !! k = Some v -> P k v) ->
  forall k v,
    fold_left (fun m a => if skip a then m else try_emplace m (key a) (val a))
      l m !! k = Some v -> P k v.
Proof.
  induction l as [|a l IH]; intros Hl m Hm; simpl; [exact Hm|].
  apply IH.
  - intros a' Ha'. apply Hl. right. exact Ha'.
  - destruct (skip a) eqn:Hs; [exact Hm|].
    apply try_emplace_inv; [exact Hm|]. apply Hl; [left; reflexivity|exact Hs].
Qed.

(** Every candidate differs from [p]; its score is a distance or a score
    the graph stores for an out-edge of [p]. *)
Lemma candidate_map_inv (G : adj_list) (db : ColMajorMatrix T) (p : nat)
    (V_in : list nat) (k : nat) (v : Q) :
  (forall e, In e (out_edges G p) -> (0 <= fst e)%Q) ->
  candidate_map G db p V_in !! k = Some v -> k <> p /\ (0 <= v)%Q.
Proof.
  intros Hpos. unfold candidate_map.
  apply (fold_try_emplace_inv (fun k v => k <> p /\ (0 <= v)%Q)
           (fun e : edge => snd e) (fun e : edge => fst e)
           (fun e : edge => snd e =? p)).
  - intros e He Hskip. apply Nat.eqb_neq in Hskip. split; [exact Hskip|].
    apply Hpos. exact He.
  - apply (fold_try_emplace_inv (fun k v => k <> p /\ (0 <= v)%Q)
             (fun v : nat => v)
             (fun v : nat => sum_of_squares (col db v) (col db p))
             (fun v : nat => v =? p)).
    + intros a _ Hskip. apply Nat.eqb_neq in Hskip. split; [exact Hskip|].
      apply sum_of_squares_nonneg.
    + intros k' v'. rewrite lookup_empty. discriminate.
Qed.

(** No candidate is [p] itself. *)
Lemma candidate_map_not_self (G : adj_list) (db : ColMajorMatrix T) (p : nat)
    (V_in : list nat) (k : nat) (v : Q) :
  candidate_map G db p V_in !! k = Some v -> k <> p.
Proof.
  unfold candidate_map.
  apply (fold_try_emplace_inv (fun k _ => k <> p)
           (fun e : edge => snd e) (fun e : edge => fst e)
           (fun e : edge => snd e =? p)).
  - intros e _ Hskip. apply Nat.eqb_neq in Hskip. exact Hskip.
  - apply (fold_try_emplace_inv (fun k _ => k <> p)
             (fun v : nat => v)
             (fun v : nat => sum_of_squares (col db v) (col db p))
             (fun v : nat => v =? p)).
    + intros a _ Hskip. apply Nat.eqb_neq in Hskip. exact Hskip.
    + intros k' v'. rewrite lookup_empty. discriminate.
Qed.

End RobustPruneCandidates.

Section RobustPruneResult.
Context {T : Type} `{Scalar T}.
Variable map_order : list (nat * Q) -> list (nat * Q).
Hypothesis map_order_perm : forall l, Permutation (map_order l) l.

(** What [robust_prune] leaves: the list of [p] rewritten, every other list
    and the number of nodes as they were. *)
Lemma robust_prune_spec (G : adj_list) (db : ColMajorMatrix T) (p : nat)
    (V_in : list nat) (alpha : Q) (R : nat) :
  p < num_vertices G ->
  1 <= R ->
  (forall e, In e (out_edges G p) -> (0 <= fst e)%Q) ->
  exists G',
    robust_prune map_order G db p V_in alpha R = inr G' /\
    num_vertices G' = num_vertices G /\
    (forall p', p' <> p -> out_edges G' p' = out_edges G p') /\
    NoDup (targets (out_edges G' p)) /\
    ~ In p (targets (out_edges G' p)) /\
    out_degree G' p <= R.
Proof.
  intros Hp HR Hpos. unfold robust_prune.
  set (m := candidate_map G db p V_in).
  set (V := map (fun kv : nat * Q => (snd kv, fst kv))
              (map_order (map_to_list m))).
  assert (Hmem : forall e, In e V -> m !! snd e = Some (fst e)).
  { intros [s k] He. unfold V in He. apply in_map_iff in He as ([k' s'] & Heq & Hin).
    simpl in Heq. injection Heq as -> ->. simpl.
    apply elem_of_map_to_list.
    apply (Permutation_in _ (map_order_perm _)) in Hin.
    apply list_elem_of_In. exact Hin. }
  assert (Htargets : targets V = (map_order (map_to_list m)).*1).
  { unfold V, targets. rewrite map_map. reflexivity. }
  destruct (prune_loop_spec (S (length V + R)) db p alpha R
              (clear_out_edges G p) V) as (G' & Hrun & Hnv & Hfr & Hres).
  - rewrite num_vertices_clear. exact Hp.
  - lia.
  - rewrite Htargets. rewrite (Permutation_map fst (map_order_perm _)).
    apply NoDup_fst_map_to_list.
  - intros Hin. unfold targets in Hin. apply in_map_iff in Hin as (e & He & Hin).
    apply Hmem in Hin. rewrite He in Hin.
    destruct (candidate_map_inv G db p V_in p (fst e) Hpos Hin) as [Hne _].
    congruence.
  - intros e He. apply Hmem in He.
    destruct (candidate_map_inv G db p V_in _ _ Hpos He) as [_ Hge]. exact Hge.
  - rewrite out_edges_clear_eq. constructor.
  - rewrite out_edges_clear_eq. simpl. tauto.
  - rewrite out_edges_clear_eq. simpl. tauto.
  - unfold out_degree. rewrite out_edges_clear_eq. simpl. lia.
  - exists G'. split; [exact Hrun|].
    split; [rewrite Hnv; apply num_vertices_clear|].
    split; [|exact Hres].
    intros p' Hp'. rewrite (Hfr p' Hp'). apply out_edges_clear_ne. congruence.
Qed.

(** [robust_prune] returns for every node [p] and every [R >= 1], whatever
    scores the graph stores. *)
Lemma robust_prune_returns (G : adj_list) (db : ColMajorMatrix T) (p : nat)
    (V_in : list nat) (alpha : Q) (R : nat) :
  p < num_vertices G ->
  1 <= R ->
  exists G', robust_prune map_order G db p V_in alpha R = inr G'.
Proof.
  intros Hp HR. unfold robust_prune.
  apply prune_loop_returns.
  - rewrite num_vertices_clear. exact Hp.
  - unfold targets. rewrite map_map. simpl. intros Hin.
    apply in_map_iff in Hin as ([k v] & Hk & Hin). simpl in Hk. subst k.
    apply (Permutation_in _ (map_order_perm _)) in Hin.
    apply list_elem_of_In in Hin. apply elem_of_map_to_list in Hin.
    exact (candidate_map_not_self G db p V_in p v Hin eq_refl).
  - unfold out_degree. rewrite out_edges_clear_eq. simpl. lia.
  - unfold out_degree. rewrite out_edges_clear_eq. simpl. lia.
Qed.

(** C3. After [robust_prune(G, DB, p, V, alpha, R_max)] returns, the out-edge
    list of [p] holds no edge to [p] itself, no target twice, and at most
    [R_max] edges: for every graph whose stored scores for the out-edges of
    [p] are not negative (they are squared distances), every database, node
    [p] of the graph, candidate set, [alpha] and [R_max >= 1]; and the call
    does return. *)
Theorem robust_prune_no_self_loop_no_duplicate_bounded
    (G : adj_list) (db : ColMajorMatrix T) (p : nat) (V_in : list nat)
    (alpha : Q) (R_max : nat) :
  p < num_vertices G ->
  1 <= R_max ->
  (forall e, In e (out_edges G p) -> (0 <= fst e)%Q) ->
  exists G',
    robust_prune map_order G db p V_in alpha R_max = inr G' /\
    ~ In p (targets (out_edges G' p)) /\
    NoDup (targets (out_edges G' p)) /\
    out_degree G' p <= R_max.
Proof.
  intros Hp HR Hpos.
  destruct (robust_prune_spec G db p V_in alpha R_max Hp HR Hpos)
    as (G' & Hrun & _ & _ & Hnd & Hself & Hdeg).
  exists G'. repeat split; assumption.
Qed.

End RobustPruneResult.

(** ** The heap *)

Lemma extract_by_In (better : Q -> Q -> bool) (l : list edge) (m : edge)
    (rest : list edge) :
  extract_by better l = Some (m, rest) ->
  forall e, In e l <-> e = m \/ In e rest.
Proof.
  revert m rest. induction l as [|x l IH]; intros m rest; simpl;
    [discriminate|].
  destruct (extract_by better l) as [[m' rest']|] eqn:Hex.
  - specialize (IH m' rest' eq_refl).
    destruct (better (fst m') (fst x)); intros [= <- <-]; intros e; simpl;
      rewrite ?IH; intuition congruence.
  - intros [= <- <-]. destruct l as [|y l]; [|simpl in Hex;
      destruct (extract_by better l) as [[? ?]|];
      [destruct (better _ _)|]; discriminate].
    intros e. simpl. intuition congruence.
Qed.

Lemma extract_by_None (better : Q -> Q -> bool) (l : list edge) :
  extract_by better l = None -> l = [].
Proof.
  destruct l as [|x l]; [reflexivity|]. simpl.
  destruct (extract_by better l) as [[? ?]|]; [destruct (better _ _)|];
    discriminate.
Qed.

Lemma extract_by_length (better : Q -> Q -> bool) (l : list edge) (m : edge)
    (rest : list edge) :
  extract_by better l = Some (m, rest) -> length l = S (length rest).
Proof.
  revert m rest. induction l as [|x l IH]; intros m rest; simpl;
    [discriminate|].
  destruct (extract_by better l) as [[m' rest']|] eqn:Hex.
  - specialize (IH m' rest' eq_refl).
    destruct (better (fst m') (fst x)); intros [= <- <-]; simpl; lia.
  - intros [= <- <-]. apply extract_by_None in Hex. subst l. reflexivity.
Qed.

(** The entry [extract_max] takes has the largest score. *)
Lemma extract_max_greatest (l : list edge) (m : edge) (rest : list edge) :
  extract_max l = Some (m, rest) -> forall e, In e l -> (fst e <= fst m)%Q.
Proof.
  unfold extract_max. revert m rest.
  induction l as [|x l IH]; intros m rest; simpl; [discriminate|].
  destruct (extract_by (fun a b => Qltb b a) l) as [[m' rest']|] eqn:Hex.
  - specialize (IH m' rest' eq_refl).
    destruct (Qltb (fst x) (fst m')) eqn:Hlt; intros [= <- <-]; intros e [<-|He].
    + apply Qltb_lt in Hlt. lra.
    + apply IH. exact He.
    + lra.
    + apply Qltb_ge in Hlt. specialize (IH e He). lra.
  - intros [= <- <-]. apply extract_by_None in Hex. subst l.
    intros e [<-|[]]. lra.
Qed.

Lemma heap_insert_capacity (u : bool) (h : k_min_heap) (sc : Q) (id : nat) :
  capacity (snd (heap_insert u h sc id)) = capacity h.
Proof.
  unfold heap_insert.
  destruct (u && resident (entries h) id); [reflexivity|].
  destruct (length (entries h) <? capacity h); [reflexivity|].
  destruct (extract_max (entries h)) as [[m rest]|]; [|reflexivity].
  destruct (Qltb sc (fst m)); reflexivity.
Qed.

(** Whatever is in the heap after an insertion was there before or is the
    pair inserted. *)
Lemma heap_insert_In (u : bool) (h : k_min_heap) (sc : Q) (id : nat)
    (e : edge) :
  In e (entries (snd (heap_insert u h sc id))) ->
  In e (entries h) \/ e = (sc, id).
Proof.
  unfold heap_insert.
  destruct (u && resident (entries h) id); [left; assumption|].
  destruct (length (entries h) <? capacity h).
  { simpl. rewrite in_app_iff. simpl. intuition. }
  destruct (extract_max (entries h)) as [[m rest]|] eqn:Hex; [|left; assumption].
  destruct (Qltb sc (fst m)); [|left; assumption].
  simpl. rewrite in_app_iff. simpl.
  pose proof (extract_by_In _ _ _ _ Hex e) as Hiff. intuition.
Qed.

(** An entry whose score does not exceed the score inserted stays. *)
Lemma heap_insert_keeps (u : bool) (h : k_min_heap) (sc : Q) (id : nat)
    (e : edge) :
  In e (entries h) -> (fst e <= sc)%Q ->
  In e (entries (snd (heap_insert u h sc id))).
Proof.
  intros He Hle. unfold heap_insert.
  destruct (u && resident (entries h) id); [assumption|].
  destruct (length (entries h) <? capacity h).
  { simpl. apply in_app_iff. left. assumption. }
  destruct (extract_max (entries h)) as [[m rest]|] eqn:Hex; [|assumption].
  destruct (Qltb sc (fst m)) eqn:Hlt; [|assumption].
  simpl. apply in_app_iff. left.
  apply (extract_by_In _ _ _ _ Hex e) in He as [->|He]; [|exact He].
  apply Qltb_lt in Hlt. lra.
Qed.

Lemma heap_insert_length (u : bool) (h : k_min_heap) (sc : Q) (id : nat) :
  length (entries h) <= capacity h ->
  length (entries (snd (heap_insert u h sc id))) <= capacity h.
Proof.
  intros Hle. unfold heap_insert.
  destruct (u && resident (entries h) id); [assumption|].
  destruct (length (entries h) <? capacity h) eqn:Hlt.
  { apply Nat.ltb_lt in Hlt. simpl. rewrite length_app. simpl. lia. }
  destruct (extract_max (entries h)) as [[m rest]|] eqn:Hex; [|assumption].
  destruct (Qltb sc (fst m)); [|assumption].
  simpl. rewrite length_app. simpl.
  apply extract_by_length in Hex. lia.
Qed.

Lemma insert_sorted_In (e x : edge) (l : list edge) :
  In x (insert_sorted e l) <-> x = e \/ In x l.
Proof.
  induction l as [|y l IH]; simpl; [intuition|].
  destruct (Qle_bool (fst e) (fst y)); simpl; rewrite ?IH; intuition.
Qed.

Lemma sort_heap_In (l : list edge) (x : edge) : In x (sort_heap l) <-> In x l.
Proof.
  unfold sort_heap.
  assert (Hgen : forall acc, In x (fold_left (fun acc e => insert_sorted e acc)
                                     l acc) <-> In x l \/ In x acc).
  { induction l as [|e l IH]; intros acc; simpl; [intuition|].
    rewrite IH, insert_sorted_In. intuition. }
  rewrite Hgen. simpl. intuition.
Qed.

Lemma insert_sorted_ascending (e : edge) (l : list edge) :
  ascending l -> ascending (insert_sorted e l).
Proof.
  induction l as [|y l IH]; simpl; [intros _; split; [intros ? []|exact I]|].
  intros [Hhd Htl].
  destruct (Qle_bool (fst e) (fst y)) eqn:Hle.
  - apply Qle_bool_iff in Hle. simpl. split; [|split; assumption].
    intros x [<-|Hx]; [exact Hle|]. specialize (Hhd x Hx). lra.
  - simpl. split; [|apply IH; exact Htl].
    intros x Hx. apply insert_sorted_In in Hx as [->|Hx]; [|apply Hhd; exact Hx].
    destruct (Qle_bool (fst e) (fst y)) eqn:Hle'; [discriminate|].
    assert (Hnle : ~ (fst e <= fst y)%Q).
    { intros Hc. apply Qle_bool_iff in Hc. congruence. }
    apply Qnot_le_lt in Hnle. lra.
Qed.

Lemma sort_heap_ascending (l : list edge) : ascending (sort_heap l).
Proof.
  unfold sort_heap.
  assert (Hgen : forall acc, ascending acc ->
    ascending (fold_left (fun acc e => insert_sorted e acc) l acc)).
  { induction l as [|e l IH]; intros acc Hacc; simpl; [exact Hacc|].
    apply IH. apply insert_sorted_ascending. exact Hacc. }
  apply Hgen. exact I.
Qed.

(** ** greedy_search *)

Lemma all_targets_length (G : adj_list) :
  length (all_targets G) = num_edges G.
Proof.
  unfold all_targets, num_edges, targets.
  induction G as [|l G IH]; simpl; [reflexivity|].
  rewrite length_app, length_map, IH. reflexivity.
Qed.

Lemma out_edges_all_targets (G : adj_list) (p : nat) (e : edge) :
  In e (out_edges G p) -> In (snd e) (all_targets G).
Proof.
  unfold out_edges, all_targets. intros He.
  destruct (G !! p) as [l|] eqn:Hl; simpl in He; [|contradiction].
  apply in_concat. exists (targets l). split.
  - apply in_map. apply list_elem_of_In. eapply list_elem_of_lookup_2.
    exact Hl.
  - unfold targets. apply in_map. exact He.
Qed.

Lemma visited_contains_In (visited : list nat) (v : nat) :
  visited_contains visited v = true <-> In v visited.
Proof.
  unfold visited_contains. rewrite existsb_exists. split.
  - intros (x & Hx & Heq). apply Nat.eqb_eq in Heq. subst. exact Hx.
  - intros Hv. exists v. split; [exact Hv|apply Nat.eqb_refl].
Qed.

Lemma visited_contains_not_In (visited : list nat) (v : nat) :
  visited_contains visited v = false <-> ~ In v visited.
Proof.
  rewrite <- visited_contains_In. destruct (visited_contains visited v);
    intuition congruence.
Qed.

Section SearchLoop.
Context {T U : Type} `{Scalar T} `{Scalar U}.
Variables (G : adj_list) (db : ColMajorMatrix T) (query : list U).
Variable source : nat.

(** A property of the result list that every insertion of a scored
    out-neighbour preserves is preserved by the search. *)
Variable Pres : k_min_heap -> Prop.
Hypothesis Pres_step : forall res p,
  Pres res -> In p (all_targets G) ->
  Pres (snd (heap_insert true res (sum_of_squares (col db p) query) p)).

Lemma unvisited_of_In (visited : list nat) (res : k_min_heap) (e : edge) :
  In e (entries (unvisited_of visited res)) ->
  In e (entries res) /\ ~ In (snd e) visited.
Proof.
  unfold unvisited_of.
  assert (Hgen : forall l q,
    In e (entries (fold_left (fun q e =>
        if visited_contains visited (snd e) then q
        else snd (heap_insert false q (fst e) (snd e))) l q)) ->
    In e (entries q) \/ (In e l /\ ~ In (snd e) visited)).
  { induction l as [|x l IH]; intros q; simpl; [left; assumption|].
    intros Hin. apply IH in Hin as [Hin|[Hin Hnv]]; [|right; tauto].
    destruct (visited_contains visited (snd x)) eqn:Hv; [left; exact Hin|].
    apply heap_insert_In in Hin as [Hin| ->]; [left; exact Hin|].
    right. split; [left; destruct x; reflexivity|].
    apply visited_contains_not_In. exact Hv. }
  intros Hin. apply Hgen in Hin as [Hin|Hin]; [destruct Hin|exact Hin].
Qed.

Lemma expand_neighbors_spec (visited : list nat) (l : list edge) :
  (forall e, In e l -> In (snd e) (all_targets G)) ->
  forall res q2 res' q2',
  fold_left (expand_neighbor db query visited) l (res, q2) = (res', q2') ->
  Pres res -> ids_known G source (entries res) ->
  Pres res' /\ ids_known G source (entries res') /\
  (forall e, In e (entries q2') ->
     In e (entries q2) \/
     (In (snd e) (all_targets G) /\ ~ In (snd e) visited)).
Proof.
  induction l as [|x l IH]; intros Hl res q2 res' q2'; simpl.
  - intros [= <- <-] HP Hids. split; [exact HP|]. split; [exact Hids|].
    intros e He. left. exact He.
  - assert (Hx : In (snd x) (all_targets G)) by (apply Hl; left; reflexivity).
    assert (Hl' : forall e, In e l -> In (snd e) (all_targets G))
      by (intros e He; apply Hl; right; exact He).
    destruct (visited_contains visited (snd x)) eqn:Hv.
    { intros Hfold HP Hids. exact (IH Hl' _ _ _ _ Hfold HP Hids). }
    set (score := sum_of_squares (col db (snd x)) query).
    destruct (heap_insert true res score (snd x)) as [entered res1] eqn:Hins.
    assert (Hres1 : res1 = snd (heap_insert true res score (snd x)))
      by (rewrite Hins; reflexivity).
    intros Hfold HP Hids.
    assert (HP1 : Pres res1) by (rewrite Hres1; apply Pres_step; assumption).
    assert (Hids1 : ids_known G source (entries res1)).
    { intros e He. rewrite Hres1 in He.
      apply heap_insert_In in He as [He| ->]; [apply Hids; exact He|].
      right. exact Hx. }
    destruct entered.
    + destruct (IH Hl' _ _ _ _ Hfold HP1 Hids1) as (HP' & Hids' & Hq).
      split; [exact HP'|]. split; [exact Hids'|].
      intros e He. apply Hq in He as [He|He]; [|right; exact He].
      apply heap_insert_In in He as [He| ->]; [left; exact He|].
      right. split; [exact Hx|]. apply visited_contains_not_In. exact Hv.
    + exact (IH Hl' _ _ _ _ Hfold HP1 Hids1).
Qed.

Lemma search_loop_spec (fuel : nat) :
  forall (res q1 : k_min_heap) (visited : list nat),
  Pres res ->
  ids_known G source (entries res) ->
  (forall e, In e (entries q1) ->
     In (snd e) (nodes_of_search G source) /\ ~ In (snd e) visited) ->
  NoDup visited ->
  incl visited (nodes_of_search G source) ->
  length (nodes_of_search G source) < fuel + length visited ->
  exists res' visited',
    search_loop fuel G db query res q1 visited = inr (res', visited') /\
    Pres res'.
Proof.
  induction fuel as [|fuel IH]; intros res q1 visited HP Hids Hq1 Hnd Hincl
    Hfuel.
  { assert (Hsub : visited ⊆+ (nodes_of_search G source)).
    { apply NoDup_submseteq; [exact Hnd|]. intros x Hx.
      apply list_elem_of_In. apply Hincl. apply list_elem_of_In. exact Hx. }
    apply submseteq_length in Hsub. unfold nodes_of_search in *.
    simpl in *. lia. }
  simpl. destruct (extract_min (entries q1)) as [[[s_star p_star] q1']|] eqn:Hex.
  - assert (Hin : In (s_star, p_star) (entries q1)).
    { apply (extract_by_In _ _ _ _ Hex). left. reflexivity. }
    destruct (Hq1 _ Hin) as [Hnode Hnv]. simpl in Hnode, Hnv.
    apply visited_contains_not_In in Hnv as Hnvb. rewrite Hnvb.
    destruct (fold_left (expand_neighbor db query (visited ++ [p_star]))
                (out_edges G p_star)
                (res, unvisited_of (visited ++ [p_star]) res))
      as [res' q2'] eqn:Hfold.
    destruct (expand_neighbors_spec (visited ++ [p_star])
                (out_edges G p_star)
                (fun e He => out_edges_all_targets G p_star e He)
                _ _ _ _ Hfold HP Hids) as (HP' & Hids' & Hq2).
    apply IH.
    + exact HP'.
    + exact Hids'.
    + intros e He. apply Hq2 in He as [He|[Ht Hnv']].
      * apply unvisited_of_In in He as [He Hnv']. split; [|exact Hnv'].
        apply Hids. exact He.
      * split; [right; exact Ht|exact Hnv'].
    + apply NoDup_app. split; [exact Hnd|]. split.
      * intros x Hx Hx'. apply list_elem_of_In in Hx.
        apply list_elem_of_In in Hx'. destruct Hx' as [<-|[]].
        exact (Hnv Hx).
      * apply NoDup_singleton.
    + intros x Hx. apply in_app_iff in Hx as [Hx|[<-|[]]];
        [apply Hincl; exact Hx|exact Hnode].
    + rewrite length_app. unfold nodes_of_search in *. simpl in *. lia.
  - exists res, visited. split; [reflexivity|exact HP].
Qed.

End SearchLoop.

Lemma all_targets_out_edges (G : adj_list) (q : nat) :
  In q (all_targets G) -> exists p e, In e (out_edges G p) /\ snd e = q.
Proof.
  unfold all_targets. intros Hq. apply in_concat in Hq as (l & Hl & Hq).
  apply in_map_iff in Hl as (es & <- & Hes).
  apply list_elem_of_In in Hes. apply list_elem_of_lookup_1 in Hes as [p Hp].
  unfold targets in Hq. apply in_map_iff in Hq as (e & He & Hin).
  exists p, e. split; [|exact He]. unfold out_edges. rewrite Hp. exact Hin.
Qed.

Section GreedySearchProofs.
Context {T U : Type} `{Scalar T} `{Scalar U}.

(** [greedy_search] returns whenever its precondition [L >= k] holds: the
    loop ends within the passes the embedding allows. *)
Lemma greedy_search_terminates (G : adj_list) (db : ColMajorMatrix T)
    (source : nat) (query : list U) (k_nn L : nat) :
  k_nn <= L -> succeeded (greedy_search G db source query k_nn L).
Proof.
  intros HkL. unfold_greedy_search.
  apply Nat.ltb_ge in HkL as Hb. rewrite Hb.
  set (d := sum_of_squares (col db source) query).
  destruct (search_loop_spec G db query source (fun _ => True)
              (fun _ _ _ _ => I) (search_fuel G)
              (snd (heap_insert false (empty_heap L) d source))
              (snd (heap_insert false (empty_heap L) d source)) [])
    as (res' & visited' & Hrun & _).
  - exact I.
  - intros e He. apply heap_insert_In in He as [[]| ->]. left. reflexivity.
  - intros e He. apply heap_insert_In in He as [[]| ->].
    split; [left; reflexivity|intros []].
  - constructor.
  - intros x [].
  - unfold nodes_of_search, search_fuel. simpl.
    rewrite all_targets_length. lia.
  - rewrite Hrun. simpl.
    destruct (get_top_k_with_scores_from_heap res' k_nn). exact I.
Qed.

End GreedySearchProofs.

Section GreedySearchSelf.
Context {T : Type} `{Scalar T}.
Variables (G : adj_list) (db : ColMajorMatrix T) (s : nat).

Lemma source_kept_step (res : k_min_heap) (p : nat) :
  source_kept G db s res -> In p (all_targets G) ->
  source_kept G db s
    (snd (heap_insert true res (sum_of_squares (col db p) (col db s)) p)).
Proof.
  intros [(e0 & He0 & Hs0) Hok] Hp. split.
  - exists e0. split; [|exact Hs0].
    apply heap_insert_keeps; [exact He0|].
    destruct (Hok e0 He0) as [_ Hscore]. rewrite Hscore, Hs0.
    rewrite sum_of_squares_diag. apply sum_of_squares_nonneg.
  - intros e He. apply heap_insert_In in He as [He| ->]; [exact (Hok e He)|].
    simpl. split; [right; exact Hp|reflexivity].
Qed.

(** The first of the sorted entries is at distance 0 from [DB[s]]. *)
Lemma source_kept_head (res : k_min_heap) :
  source_kept G db s res ->
  exists x rest,
    sort_heap (entries res) = x :: rest /\
    (fst x == 0)%Q /\
    (snd x = s \/ In (snd x) (all_targets G)) /\
    (sum_of_squares (col db (snd x)) (col db s) == 0)%Q.
Proof.
  intros [(e0 & He0 & Hs0) Hok].
  pose proof (sort_heap_ascending (entries res)) as Hasc.
  assert (He0' : In e0 (sort_heap (entries res)))
    by (apply sort_heap_In; exact He0).
  destruct (sort_heap (entries res)) as [|x rest] eqn:Hsort; [destruct He0'|].
  exists x, rest. split; [reflexivity|].
  assert (Hx : In x (entries res)).
  { apply sort_heap_In. rewrite Hsort. left. reflexivity. }
  destruct (Hok x Hx) as [Hnode Hscore].
  destruct (Hok e0 He0) as [_ Hscore0]. rewrite Hs0 in Hscore0.
  rewrite sum_of_squares_diag in Hscore0.
  assert (Hle : (fst x <= fst e0)%Q).
  { destruct He0' as [->|He0']; [lra|]. destruct Hasc as [Hhd _].
    exact (Hhd e0 He0'). }
  pose proof (sum_of_squares_nonneg (col db (snd x)) (col db s)) as Hge.
  split; [lra|]. split; [exact Hnode|lra].
Qed.

(** C4, as amended.  [greedy_search(G, DB, s, DB[s], k, L)] with
    [1 <= k <= L] returns; the first score it reports is 0; the first id is
    [s] or the target of an edge, and its vector is at distance 0 from
    [DB[s]]; and the first id is [s] whenever every edge target other than
    [s] is at positive distance from [DB[s]]. *)
Theorem greedy_search_returns_source_first (k L : nat) :
  1 <= k -> k <= L ->
  exists scores ids visited,
    greedy_search G db s (col db s) k L = inr (scores, ids, visited) /\
    (exists score, scores !! 0 = Some score /\ (score == 0)%Q) /\
    (exists first,
       ids !! 0 = Some first /\
       (first = s \/ exists p e, In e (out_edges G p) /\ snd e = first) /\
       (sum_of_squares (col db first) (col db s) == 0)%Q) /\
    ((forall p e, In e (out_edges G p) -> snd e <> s ->
        (0 < sum_of_squares (col db (snd e)) (col db s))%Q) ->
     ids !! 0 = Some s).
Proof.
  intros Hk HkL. unfold_greedy_search.
  apply Nat.ltb_ge in HkL as Hb. rewrite Hb.
  set (d := sum_of_squares (col db s) (col db s)).
  assert (Hinit : entries (snd (heap_insert false (empty_heap L) d s))
                  = [(d, s)]).
  { unfold heap_insert. simpl.
    assert (Hlt : (0 <? L) = true) by (apply Nat.ltb_lt; lia).
    rewrite Hlt. reflexivity. }
  destruct (search_loop_spec G db (col db s) s (source_kept G db s)
              source_kept_step
              (search_fuel G)
              (snd (heap_insert false (empty_heap L) d s))
              (snd (heap_insert false (empty_heap L) d s)) [])
    as (res' & visited' & Hrun & Hkept).
  - unfold source_kept. rewrite Hinit. split.
    + exists (d, s). split; [left; reflexivity|reflexivity].
    + intros e [<-|[]]. simpl. split; [left; reflexivity|reflexivity].
  - rewrite Hinit. intros e [<-|[]]. left. reflexivity.
  - rewrite Hinit. intros e [<-|[]]. split; [left; reflexivity|intros []].
  - constructor.
  - intros x [].
  - unfold nodes_of_search, search_fuel. simpl.
    rewrite all_targets_length. lia.
  - rewrite Hrun. simpl.
    destruct (source_kept_head res' Hkept)
      as (x & rest & Hsort & Hx0 & Hnode & Hdist).
    unfold get_top_k_with_scores_from_heap. rewrite Hsort.
    destruct k as [|k']; [lia|]. simpl.
    eexists _, _, _. split; [reflexivity|]. split; [|split].
    + exists (fst x). split; [reflexivity|exact Hx0].
    + exists (snd x). split; [reflexivity|]. split; [|exact Hdist].
      destruct Hnode as [Hs|Ht]; [left; exact Hs|right].
      exact (all_targets_out_edges G (snd x) Ht).
    + intros Hapart. simpl. f_equal.
      destruct Hnode as [Hs|Ht]; [exact Hs|].
      destruct (decide (snd x = s)) as [Hs|Hne]; [exact Hs|].
      apply all_targets_out_edges in Ht as (p & e & He & Hex).
      pose proof (Hapart p e He) as Hpos. rewrite Hex in Hpos.
      specialize (Hpos Hne). lra.
Qed.

End GreedySearchSelf.

(** ** Persistence *)

Lemma num_edges_concat (G : adj_list) : num_edges G = length (concat G).
Proof.
  unfold num_edges. induction G as [|l G IH]; simpl; [reflexivity|].
  rewrite length_app, IH. reflexivity.
Qed.

Lemma offset_of_S (G : adj_list) (i : nat) (l : list edge) :
  G !! i = Some l -> offset_of G (S i) = offset_of G i + length l.
Proof.
  intros Hl. unfold offset_of. rewrite (take_S_r _ _ _ Hl).
  rewrite concat_app, length_app. simpl. rewrite app_nil_r. reflexivity.
Qed.

Lemma offset_of_le (G : adj_list) (i : nat) : offset_of G i <= num_edges G.
Proof.
  rewrite num_edges_concat. unfold offset_of.
  rewrite <- (take_drop i G) at 2. rewrite concat_app, length_app. lia.
Qed.

Lemma offset_of_all (G : adj_list) :
  offset_of G (length G) = num_edges G.
Proof.
  rewrite num_edges_concat. unfold offset_of. rewrite firstn_all.
  reflexivity.
Qed.

Section CsrProofs.

Lemma csr_edges_spec (l : list edge) :
  forall (pre_s : list Q) (pre_i : list nat) (k : nat) (index : list Z)
         (off : nat),
  length pre_s = off -> length pre_i = off -> length l <= k ->
  fold_left csr_edge l
    (mkCsr (pre_s ++ replicate k 0%Q) (pre_i ++ replicate k 0) index off)
  = mkCsr ((pre_s ++ map fst l) ++ replicate (k - length l) 0%Q)
          ((pre_i ++ map snd l) ++ replicate (k - length l) 0)
          index (off + length l).
Proof.
  induction l as [|e l IH]; intros pre_s pre_i k index off Hs Hi Hk; simpl.
  - rewrite !app_nil_r, Nat.sub_0_r, Nat.add_0_r. reflexivity.
  - simpl in Hk. destruct k as [|k]; [lia|].
    unfold csr_edge at 2. simpl.
    rewrite !insert_app_r_alt by lia. rewrite Hs, Hi, Nat.sub_diag. simpl.
    replace (pre_s ++ fst e :: replicate k 0%Q)
      with ((pre_s ++ [fst e]) ++ replicate k 0%Q)
      by (rewrite <- app_assoc; reflexivity).
    replace (pre_i ++ snd e :: replicate k 0)
      with ((pre_i ++ [snd e]) ++ replicate k 0)
      by (rewrite <- app_assoc; reflexivity).
    rewrite IH by (rewrite ?length_app; simpl; lia).
    rewrite <- !app_assoc. simpl. f_equal. lia.
Qed.

Lemma csr_node_spec (G : adj_list) (i : nat) :
  i < num_vertices G -> csr_node G (csr_after G i) i = csr_after G (S i).
Proof.
  intros Hi. unfold num_vertices in Hi.
  destruct (lookup_lt_is_Some_2 G i Hi) as [l Hl].
  pose proof (offset_of_S G i l Hl) as HoffS.
  pose proof (offset_of_le G (S i)) as Hle.
  unfold csr_node, csr_after.
  rewrite seq_S, map_app. rewrite (take_S_r _ _ _ Hl). rewrite concat_app.
  cbn [adj_scores adj_ids adj_index edge_offset].
  unfold out_edges. rewrite Hl. cbn [default].
  rewrite insert_app_r_alt by (rewrite length_map, length_seq; lia).
  rewrite length_map, length_seq, Nat.sub_diag.
  replace (num_vertices G + 1 - i) with (S (num_vertices G + 1 - S i))
    by (unfold num_vertices; lia).
  cbn [replicate insert list_insert]. unfold id.
  rewrite csr_edges_spec;
    [|rewrite length_map; reflexivity|rewrite length_map; reflexivity|lia].
  cbn [concat map]. rewrite app_nil_r, !map_app. simpl.
  rewrite <- !app_assoc. simpl.
  f_equal; [f_equal; f_equal; f_equal; lia|f_equal; f_equal; f_equal; lia|lia].
Qed.

Lemma csr_loop_spec (G : adj_list) (i : nat) :
  i <= num_vertices G ->
  fold_left (csr_node G) (seq 0 i) (csr_after G 0) = csr_after G i.
Proof.
  induction i as [|i IH]; intros Hi; [reflexivity|].
  rewrite seq_S, fold_left_app. simpl. rewrite IH by lia.
  apply csr_node_spec. lia.
Qed.

(** The three vectors [write_index] writes. *)
Lemma csr_of_graph_spec (G : adj_list) :
  adj_scores (csr_of_graph G) = map fst (concat G) /\
  adj_ids (csr_of_graph G) = map snd (concat G) /\
  adj_index (csr_of_graph G)
    = map (fun j => to_index_type (offset_of G j))
        (seq 0 (S (num_vertices G))).
Proof.
  unfold csr_of_graph.
  assert (H0 : mkCsr (replicate (num_edges G) 0%Q) (replicate (num_edges G) 0)
                 (replicate (num_vertices G + 1) 0%Z) 0 = csr_after G 0).
  { unfold csr_after, offset_of. simpl. rewrite !Nat.sub_0_r. reflexivity. }
  rewrite H0. rewrite csr_loop_spec by lia.
  rewrite seq_S, map_app.
  unfold csr_after. cbn [adj_scores adj_ids adj_index edge_offset].
  unfold num_vertices. rewrite offset_of_all, Nat.sub_diag, firstn_all.
  cbn [replicate]. rewrite !app_nil_r.
  split; [reflexivity|]. split; [reflexivity|].
  replace (length G + 1 - length G) with 1 by lia. cbn [replicate].
  rewrite insert_app_r_alt by (rewrite length_map, length_seq; lia).
  rewrite length_map, length_seq, Nat.sub_diag. f_equal. simpl.
  rewrite offset_of_all. reflexivity.
Qed.

End CsrProofs.

Section LoadProofs.
Variable G : adj_list.
Hypothesis edges_fit : (Z.of_nat (num_edges G) < 2 ^ 32)%Z.

Lemma to_index_type_offset (i : nat) :
  Z.to_nat (to_index_type (offset_of G i)) = offset_of G i.
Proof.
  unfold to_index_type. pose proof (offset_of_le G i).
  rewrite Z.mod_small by lia. apply Nat2Z.id.
Qed.

Lemma stored_index_lookup (i : nat) :
  i <= num_vertices G ->
  Z.to_nat (default 0%Z
    (map (fun j => to_index_type (offset_of G j))
       (seq 0 (S (num_vertices G))) !! i)) = offset_of G i.
Proof.
  intros Hi.
  change (map (fun j => to_index_type (offset_of G j))
            (seq 0 (S (num_vertices G))))
    with ((fun j => to_index_type (offset_of G j)) <$>
            seq 0 (S (num_vertices G))).
  rewrite list_lookup_fmap. rewrite lookup_seq_lt by lia. simpl.
  apply to_index_type_offset.
Qed.

Lemma add_edges_alter (i : nat) (scores : list Q) (ids : list nat)
    (js : list nat) :
  forall acc : adj_list,
  fold_left (fun (G : adj_list) j =>
      add_edge G i (default 0 (ids !! j)) (default 0%Q (scores !! j)))
    js acc
  = alter (fun l => l ++ map (fun j => (default 0%Q (scores !! j),
                                        default 0 (ids !! j))) js) i acc.
Proof.
  induction js as [|j js IH]; intros acc; simpl.
  - symmetry. apply list_alter_id. intros x. apply app_nil_r.
  - rewrite IH. unfold add_edge. rewrite list_alter_alter_eq.
    apply list_alter_ext; [|reflexivity].
    intros x _. simpl. rewrite <- app_assoc. reflexivity.
Qed.

Lemma stored_edges_segment (i : nat) (l : list edge) :
  G !! i = Some l ->
  map (fun j => (default 0%Q (map fst (concat G) !! j),
                 default 0 (map snd (concat G) !! j)))
    (seq (offset_of G i) (length l)) = l.
Proof.
  intros Hl. apply list_eq. intros t.
  change (map ?f ?x) with (f <$> x) at 1. rewrite list_lookup_fmap.
  destruct (decide (t < length l)) as [Ht|Ht].
  - rewrite lookup_seq_lt by exact Ht. simpl.
    destruct (lookup_lt_is_Some_2 l t Ht) as [x Hx]. rewrite Hx.
    assert (Hcat : concat G !! (offset_of G i + t) = Some x).
    { assert (Hsplit : concat G
                       = concat (take i G) ++ l ++ concat (drop (S i) G)).
      { rewrite <- (take_drop_middle G i l Hl) at 1. rewrite concat_app.
        reflexivity. }
      rewrite Hsplit. unfold offset_of. rewrite lookup_app_r by lia.
      rewrite lookup_app_l by lia.
      replace (length (concat (take i G)) + t - length (concat (take i G)))
        with t by lia.
      exact Hx. }
    change (map fst (concat G)) with (fst <$> concat G).
    change (map snd (concat G)) with (snd <$> concat G).
    rewrite !list_lookup_fmap, Hcat. simpl. destruct x; reflexivity.
  - rewrite lookup_seq_ge by lia. rewrite lookup_ge_None_2 by lia.
    reflexivity.
Qed.

Lemma load_node_spec (i : nat) (l : list edge) :
  G !! i = Some l ->
  load_node (map fst (concat G)) (map snd (concat G))
    (map (fun j => to_index_type (offset_of G j))
       (seq 0 (S (num_vertices G))))
    (take i G ++ replicate (num_vertices G - i) []) i
  = take (S i) G ++ replicate (num_vertices G - S i) [].
Proof.
  intros Hl. pose proof (lookup_lt_Some _ _ _ Hl) as Hi.
  unfold load_node.
  rewrite !stored_index_lookup by (unfold num_vertices; lia).
  rewrite (offset_of_S G i l Hl).
  replace (offset_of G i + length l - offset_of G i) with (length l) by lia.
  rewrite add_edges_alter. rewrite (stored_edges_segment i l Hl).
  rewrite alter_app_r_alt by (rewrite length_take; lia).
  rewrite length_take. replace (i `min` length G) with i by lia.
  rewrite Nat.sub_diag.
  replace (num_vertices G - i) with (S (num_vertices G - S i))
    by (unfold num_vertices; lia).
  simpl. rewrite (take_S_r _ _ _ Hl). rewrite <- app_assoc. reflexivity.
Qed.

(** Reading back what [csr_of_graph] flattened rebuilds the graph. *)
Lemma load_graph_spec :
  fold_left
    (load_node (adj_scores (csr_of_graph G)) (adj_ids (csr_of_graph G))
       (adj_index (csr_of_graph G)))
    (seq 0 (num_vertices G)) (empty_adj_list (num_vertices G)) = G.
Proof.
  destruct (csr_of_graph_spec G) as (-> & -> & ->).
  assert (Hgen : forall i, i <= num_vertices G ->
    fold_left
      (load_node (map fst (concat G)) (map snd (concat G))
         (map (fun j => to_index_type (offset_of G j))
            (seq 0 (S (num_vertices G)))))
      (seq 0 i) (empty_adj_list (num_vertices G))
    = take i G ++ replicate (num_vertices G - i) []).
  { induction i as [|i IH]; intros Hi.
    - simpl. rewrite Nat.sub_0_r. reflexivity.
    - rewrite (seq_S i 0), fold_left_app. cbn [fold_left Nat.add].
      rewrite IH by lia.
      destruct (lookup_lt_is_Some_2 G i) as [l Hl];
        [unfold num_vertices in Hi; lia|].
      exact (load_node_spec i l Hl). }
  rewrite Hgen by lia. unfold num_vertices.
  rewrite firstn_all, Nat.sub_diag. simpl. apply app_nil_r.
Qed.

End LoadProofs.

Section WriteIndexProofs.
Context {T : Type}.

Lemma written_group_lookups (idx : vamana_index T) :
  let g := written_group idx in
  read_feature_vectors g = inr (feature_vectors_ idx) /\
  read_u64 g "dimension" = inr (dimension_ idx) /\
  read_u64 g "ntotal" = inr (num_vectors_ idx) /\
  read_u64 g "L" = inr (L_build_ idx) /\
  read_u64 g "R" = inr (R_max_degree_ idx) /\
  read_u64 g "B" = inr (B_backtrack_ idx) /\
  read_f32 g "alpha_min" = inr (alpha_min_ idx) /\
  read_f32 g "alpha_max" = inr (alpha_max_ idx) /\
  read_u64 g "medioid" = inr (medioid_ idx) /\
  read_scores g = inr (adj_scores (csr_of_graph (graph_ idx))) /\
  read_ids g = inr (adj_ids (csr_of_graph (graph_ idx))) /\
  read_index g = inr (adj_index (csr_of_graph (graph_ idx))).
Proof.
  unfold written_group, read_feature_vectors, read_u64, read_f32,
    read_scores, read_ids, read_index, add_member, write_array, put_metadata,
    metadata.
  cbn [fold_left fst snd group_metadata group_members group_arrays].
  repeat split; simplify_map_eq; reflexivity.
Qed.

(** C10. If the group URI already exists as a directory and [overwrite] is
    false, [write_index] returns false and leaves the store as it was (the
    index is not changed by the call in any case); and whenever it returns
    true, the group at the URI holds the metadata, the feature vectors and
    the three adjacency arrays of the index, each registered as a member. *)
Theorem write_index_existing_group_not_overwritten (idx : vamana_index T)
    (vfs : gmap string (group T)) (group_uri : string) :
  (is_Some (vfs !! group_uri) ->
   write_index idx vfs group_uri false = (false, vfs)) /\
  (forall overwrite vfs',
     write_index idx vfs group_uri overwrite = (true, vfs') ->
     exists g,
       vfs' !! group_uri = Some g /\
       (forall name v, In (name, v) (metadata idx) ->
          group_metadata g !! name = Some v) /\
       group_arrays g !! "feature_vectors"%string
         = Some (FeatureArray (feature_vectors_ idx)) /\
       group_arrays g !! "adj_scores"%string
         = Some (ScoreArray (adj_scores (csr_of_graph (graph_ idx)))) /\
       group_arrays g !! "adj_ids"%string
         = Some (IdArray (adj_ids (csr_of_graph (graph_ idx)))) /\
       group_arrays g !! "adj_index"%string
         = Some (IndexArray (adj_index (csr_of_graph (graph_ idx)))) /\
       group_members g
         = ["feature_vectors"; "adj_scores"; "adj_ids"; "adj_index"]%string).
Proof.
  split.
  - intros [g Hg]. unfold write_index. rewrite Hg. reflexivity.
  - intros overwrite vfs' Hw. exists (written_group idx). split.
    + unfold write_index in Hw.
      destruct (vfs !! group_uri) as [g|] eqn:Hg.
      * destruct overwrite; [|discriminate].
        injection Hw as <-. apply lookup_insert_eq.
      * injection Hw as <-. apply lookup_insert_eq.
    + unfold written_group, add_member, write_array, put_metadata, metadata.
      cbn [fold_left fst snd group_metadata group_members group_arrays
           app].
      split.
      { intros name v Hin. simpl in Hin.
        repeat (destruct Hin as [[= <- <-]|Hin];
                [simplify_map_eq; reflexivity|]).
        destruct Hin. }
      repeat split; simplify_map_eq; reflexivity.
Qed.

End WriteIndexProofs.

(** ** train keeps the graph on the nodes of the training set *)

Lemma fold_result_inv {A B : Type} (P : A -> Prop) (f : A -> B -> result A)
    (l : list B) :
  (forall a x a', P a -> f a x = inr a' -> P a') ->
  forall a a', P a -> fold_result f l a = inr a' -> P a'.
Proof.
  intros Hf. induction l as [|x l IH]; intros a a' Ha; simpl.
  - intros [= <-]. exact Ha.
  - destruct (f a x) as [e|a1] eqn:Hfx; simpl; [discriminate|].
    apply IH. exact (Hf a x a1 Ha Hfx).
Qed.

Section TrainProofs.
Context {T : Type} `{Scalar T}.
Variable map_order : list (nat * Q) -> list (nat * Q).

Lemma prune_loop_num_vertices (fuel : nat) (db : ColMajorMatrix T) (p : nat)
    (alpha : Q) (R : nat) :
  forall G V G', prune_loop fuel db p alpha R G V = inr G' ->
                 num_vertices G' = num_vertices G.
Proof.
  induction fuel as [|fuel IH]; intros G V G'; simpl; [discriminate|].
  destruct (min_element V) as [[s_star p_star]|]; [|intros [= <-]; reflexivity].
  destruct (p_star =? p); [discriminate|].
  destruct (out_degree (add_edge G p p_star s_star) p =? R).
  - intros [= <-]. apply num_vertices_add_edge.
  - intros Hrun. apply IH in Hrun. rewrite Hrun. apply num_vertices_add_edge.
Qed.

Lemma robust_prune_num_vertices (G : adj_list) (db : ColMajorMatrix T)
    (p : nat) (V_in : list nat) (alpha : Q) (R : nat) (G' : adj_list) :
  robust_prune map_order G db p V_in alpha R = inr G' ->
  num_vertices G' = num_vertices G.
Proof.
  unfold robust_prune. intros Hrun. apply prune_loop_num_vertices in Hrun.
  rewrite Hrun. apply num_vertices_clear.
Qed.

Lemma train_node_num_vertices (db : ColMajorMatrix T) (medoid L R : nat)
    (alpha : Q) (G : adj_list) (p : nat) (G' : adj_list) :
  train_node map_order db medoid L R alpha G p = inr G' ->
  num_vertices G' = num_vertices G.
Proof.
  unfold train_node.
  destruct (greedy_search G db medoid (col db p) 1 L)
    as [e|[[scores ids] visited]]; simpl; [discriminate|].
  destruct (robust_prune map_order G db p visited alpha R) as [e|G1] eqn:Hp;
    simpl; [discriminate|].
  apply robust_prune_num_vertices in Hp. rewrite <- Hp.
  apply (fold_result_inv (fun G2 => num_vertices G2 = num_vertices G1));
    [|reflexivity].
  intros a j a' Ha. unfold post_search_prune.
  destruct (R <? length (train_tmp a p j)).
  - intros Hrun. apply robust_prune_num_vertices in Hrun. congruence.
  - intros [= <-]. rewrite num_vertices_add_edge. exact Ha.
Qed.

(** A trained index: its graph has one list per training vector, and the
    counts it records are those of the feature matrix. *)
Lemma train_shape (idx0 idx : vamana_index T) (training_set : ColMajorMatrix T) :
  train map_order idx0 training_set = inr idx ->
  feature_vectors_ idx = training_set /\
  num_vectors_ idx = num_vectors training_set /\
  num_vertices (graph_ idx) = num_vectors training_set.
Proof.
  unfold train. simpl.
  destruct (fold_result
              (train_node map_order training_set (medioid training_set)
                 (L_build_ idx0) (R_max_degree_ idx0) (alpha_max_ idx0))
              (seq 0 (num_vectors training_set))
              (empty_adj_list (num_vectors training_set))) as [e|G] eqn:Hrun;
    simpl; [discriminate|].
  intros [= <-]. simpl. split; [reflexivity|]. split; [reflexivity|].
  apply (fold_result_inv
           (fun G2 => num_vertices G2 = num_vectors training_set)) in Hrun.
  - exact Hrun.
  - intros a p a' Ha Hnode. apply train_node_num_vertices in Hnode. congruence.
  - apply length_replicate.
Qed.

End TrainProofs.

Section RoundTrip.
Context {T : Type} `{Scalar T}.
Variable map_order : list (nat * Q) -> list (nat * Q).

(** What the round trip needs of an index: the graph and the feature matrix
    agree with [num_vectors_], and the number of edges fits [index_type]. *)
Lemma load_written_index (idx : vamana_index T) (vfs : gmap string (group T))
    (group_uri : string) :
  num_vectors_ idx = num_vectors (feature_vectors_ idx) ->
  num_vertices (graph_ idx) = num_vectors_ idx ->
  (Z.of_nat (num_edges (graph_ idx)) < 2 ^ 32)%Z ->
  vfs !! group_uri = Some (written_group idx) ->
  load_index vfs group_uri = inr idx.
Proof.
  intros Hfv Hg Hfit Hlook.
  unfold load_index, load_index_in; simpl checks; simpl andb. rewrite Hlook.
  destruct (written_group_lookups idx)
    as (-> & -> & -> & -> & -> & -> & -> & -> & -> & -> & -> & ->).
  pose proof (load_graph_spec (graph_ idx) Hfit) as Hload.
  set (c := csr_of_graph (graph_ idx)) in *.
  cbn [mbind result_bind]. rewrite Hfv, Nat.eqb_refl.
  cbn [negb mbind result_bind mret result_ret].
  rewrite <- Hfv, <- Hg. rewrite Hload.
  rewrite Hg. destruct idx. reflexivity.
Qed.

(** C5. A trained index that [write_index] has written is read back equal by
    the loading constructor: the same metadata fields (dimension, ntotal, L,
    R, B, alpha_min, alpha_max, medoid), the same feature matrix, the same
    adjacency list for every node, targets and scores in the same order;
    provided the number of edges fits the 32-bit [index_type] of
    [adj_index]. *)
Theorem write_index_then_load_round_trip (idx0 idx : vamana_index T)
    (training_set : ColMajorMatrix T) (vfs vfs' : gmap string (group T))
    (group_uri : string) (overwrite : bool) :
  train map_order idx0 training_set = inr idx ->
  (Z.of_nat (num_edges (graph_ idx)) < 2 ^ 32)%Z ->
  write_index idx vfs group_uri overwrite = (true, vfs') ->
  load_index vfs' group_uri = inr idx.
Proof.
  intros Htrain Hfit Hw.
  destruct (train_shape map_order idx0 idx training_set Htrain)
    as (Hfv & Hn & Hg).
  apply load_written_index.
  - rewrite Hfv. exact Hn.
  - congruence.
  - exact Hfit.
  - unfold write_index in Hw.
    destruct (vfs !! group_uri) as [g|] eqn:Hlook.
    + destruct overwrite; [|discriminate].
      injection Hw as <-. apply lookup_insert_eq.
    + injection Hw as <-. apply lookup_insert_eq.
Qed.

End RoundTrip.

(** ** train_no_init *)

Section LloydProofs.
Context {T : Type} `{Scalar T}.

Lemma degree_of_zero_not_In (idx : kmeans_index T)
    (training_set : ColMajorMatrix T) (j : nat) :
  degree_of idx training_set j = 0 ->
  ~ In j (qv_partition (centroids_ idx) training_set).
Proof.
  unfold degree_of. intros Hlen Hin.
  assert (Hf : In j (List.filter (Nat.eqb j)
                       (qv_partition (centroids_ idx) training_set))).
  { apply List.filter_In. split; [exact Hin|apply Nat.eqb_refl]. }
  destruct (List.filter (Nat.eqb j)
              (qv_partition (centroids_ idx) training_set));
    [destruct Hf|discriminate].
Qed.

(** The accumulation touches the centroids and the degrees of the parts it
    is given and no others. *)
Lemma accumulate_untouched (dim j : nat) (pairs : list (nat * list T)) :
  ~ In j (map fst pairs) ->
  forall (cols : list (list T)) (degrees : list nat),
  let st := fold_left (fun (st : list (list T) * list nat)
                           (iv : nat * list T) =>
      let '(part, vector) := iv in
      (alter (fun centroid => add_vector dim centroid vector) part (fst st),
       alter S part (snd st))) pairs (cols, degrees) in
  fst st !! j = cols !! j /\ snd st !! j = degrees !! j.
Proof.
  induction pairs as [|[part vector] pairs IH]; intros Hj cols degrees;
    simpl; [split; reflexivity|].
  simpl in Hj.
  destruct (IH (fun Hin => Hj (or_intror Hin))
              (alter (fun centroid => add_vector dim centroid vector) part cols)
              (alter S part degrees)) as [Hc Hd].
  split.
  - rewrite Hc. apply list_lookup_alter_ne. intros ->. apply Hj. left.
    reflexivity.
  - rewrite Hd. apply list_lookup_alter_ne. intros ->. apply Hj. left.
    reflexivity.
Qed.

Lemma on_first_lookup {A : Type} (n : nat) (f : A -> A) (l : list A)
    (j : nat) :
  on_first n f l !! j = (if j <? n then f else fun x => x) <$> l !! j.
Proof.
  unfold on_first. revert l j. induction n as [|n IH]; intros l j.
  - simpl. rewrite drop_0. destruct (l !! j); reflexivity.
  - destruct l as [|x l]; [destruct j; reflexivity|].
    destruct j as [|j]; [reflexivity|]. simpl. apply IH.
Qed.

(** C2, as amended.  In an iteration of [train_no_init] a centroid to which
    no training vector is assigned is not divided; what it holds after the
    iteration is the zero vector the reset put there, not the value it had
    before. *)
Theorem lloyd_iteration_empty_centroid_reset (idx : kmeans_index T)
    (training_set : ColMajorMatrix T) (j : nat) :
  j < nlist_ idx ->
  degree_of idx training_set j = 0 ->
  col (centroids_ (lloyd_iteration idx training_set)) j
  = map (fun _ => scalar_zero) (col (centroids_ idx) j).
Proof.
  intros Hj Hdeg. apply degree_of_zero_not_In in Hdeg.
  unfold lloyd_iteration.
  set (parts := qv_partition (centroids_ idx) training_set) in *.
  set (zeroed := on_first (nlist_ idx) (map (fun _ => scalar_zero))
                   (columns (centroids_ idx))).
  unfold accumulate_parts.
  assert (Hnot : ~ In j (map fst (zip parts (columns training_set)))).
  { intros Hin. apply Hdeg. apply in_map_iff in Hin as ([part v] & <- & Hin).
    apply list_elem_of_In in Hin. apply elem_of_zip_l in Hin.
    apply list_elem_of_In. exact Hin. }
  pose proof (accumulate_untouched (km_dimension_ idx) j _ Hnot zeroed
                (replicate (nlist_ idx) 0)) as Hacc.
  destruct (fold_left _ (zip parts (columns training_set))
              (zeroed, replicate (nlist_ idx) 0)) as [sums degrees].
  simpl in Hacc. destruct Hacc as [Hsums Hdegrees].
  rewrite lookup_replicate_2 in Hdegrees by exact Hj.
  unfold zeroed in Hsums. rewrite on_first_lookup in Hsums.
  apply Nat.ltb_lt in Hj as Hjb. rewrite Hjb in Hsums.
  unfold col. simpl. rewrite lookup_zip_with.
  destruct (columns (centroids_ idx) !! j) as [c|] eqn:Hc; simpl in Hsums.
  - assert (Hlen : j < length sums).
    { apply lookup_lt_is_Some. rewrite Hsums. eexists. reflexivity. }
    rewrite lookup_seq_lt by exact Hlen. simpl. rewrite Hsums. simpl.
    rewrite Hjb, Hdegrees. reflexivity.
  - destruct (seq 0 (length sums) !! j); simpl; [|reflexivity].
    rewrite Hsums. reflexivity.
Qed.

End LloydProofs.

(** C2, the claim as stated fails: with centroids 0 and 5 and the training
    vectors 0 and 1, no vector is assigned to the second centroid, and after
    the iteration it is 0, not 5. *)
Lemma lloyd_iteration_empty_centroid_not_retained :
  let idx := mkKmeans 1 2 1 1 (mkMatrix 1 [[0%Q]; [5%Q]]) in
  let training_set := mkMatrix 1 [[0%Q]; [1%Q]] in
  degree_of idx training_set 1 = 0 /\
  col (centroids_ (lloyd_iteration idx training_set)) 1
  <> col (centroids_ idx) 1.
Proof.
  split; [reflexivity|]. vm_compute. discriminate.
Qed.

(** ** kmeans_pp *)

Lemma Qsquare_pos (a : Q) : ~ (a == 0)%Q -> (0 < a * a)%Q.
Proof.
  unfold Qeq, Qlt, Qmult. simpl. rewrite !Z.mul_1_r. intros Hne. nia.
Qed.

Lemma sum_sq_pos (a b : list Q) :
  length a = length b -> ~ Forall2 Qeq a b -> (0 < sum_sq a b)%Q.
Proof.
  revert b. induction a as [|x a IH]; intros [|y b] Hlen Hne; simpl in *;
    try discriminate.
  - exfalso. apply Hne. constructor.
  - pose proof (sum_sq_nonneg a b) as Hge.
    pose proof (Qsquare_nonneg (x - y)) as Hsq.
    destruct (Qeq_dec x y) as [Heq|Hxy].
    + assert (Htl : (0 < sum_sq a b)%Q).
      { apply IH; [lia|]. intros Hf. apply Hne. constructor; assumption. }
      lra.
    + assert (Hpos : (0 < (x - y) * (x - y))%Q).
      { apply Qsquare_pos. intros Hz. apply Hxy. lra. }
      lra.
Qed.

Lemma sum_of_squares_pos {T : Type} `{Scalar T} (a b : list T) :
  length a = length b -> ~ same_vector a b -> (0 < sum_of_squares a b)%Q.
Proof.
  intros Hlen Hne. unfold sum_of_squares. apply sum_sq_pos.
  - rewrite !length_map. exact Hlen.
  - intros Hf. apply Hne. unfold same_vector. clear Hlen Hne.
    revert b Hf. induction a as [|x a IH]; intros [|y b] Hf; simpl in Hf;
      inversion Hf; subst; constructor; [assumption|].
    apply IH. assumption.
Qed.

Lemma total_weight_nonneg (weights : list Q) :
  (forall w, In w weights -> (0 <= w)%Q) -> (0 <= total_weight weights)%Q.
Proof.
  induction weights as [|w ws IH]; intros Hge; simpl; [lra|].
  assert (0 <= w)%Q by (apply Hge; left; reflexivity).
  assert (0 <= total_weight ws)%Q
    by (apply IH; intros w' Hw'; apply Hge; right; exact Hw').
  unfold total_weight in *. lra.
Qed.

Lemma total_weight_pos (weights : list Q) (j : nat) (w : Q) :
  (forall w, In w weights -> (0 <= w)%Q) ->
  weights !! j = Some w -> (0 < w)%Q -> (0 < total_weight weights)%Q.
Proof.
  revert j. induction weights as [|w0 ws IH]; intros j Hge Hj Hw;
    [discriminate|].
  assert (0 <= w0)%Q by (apply Hge; left; reflexivity).
  assert (Hws : forall w', In w' ws -> (0 <= w')%Q)
    by (intros w' Hw'; apply Hge; right; exact Hw').
  pose proof (total_weight_nonneg ws Hws) as Hnn.
  destruct j as [|j]; simpl in *.
  - injection Hj as ->. unfold total_weight in *. lra.
  - specialize (IH j Hws Hj Hw). unfold total_weight in *. lra.
Qed.

(** The weighted draw lands on an index whose weight is positive. *)
Lemma first_exceeding_spec (weights : list Q) :
  forall x : Q,
  (forall w, In w weights -> (0 <= w)%Q) ->
  (0 <= x)%Q -> (x < total_weight weights)%Q ->
  exists w, weights !! first_exceeding weights x = Some w /\ (0 < w)%Q.
Proof.
  induction weights as [|w ws IH]; intros x Hge Hx Hlt; simpl in *.
  - lra.
  - destruct (Qltb x w) eqn:Hxw.
    + apply Qltb_lt in Hxw. exists w. split; [reflexivity|lra].
    + apply Qltb_ge in Hxw. simpl. apply IH.
      * intros w' Hw'. apply Hge. right. exact Hw'.
      * lra.
      * unfold total_weight in *. lra.
Qed.

Lemma discrete_distribution_spec (weights : list Q) (u : Q) (j : nat)
    (wj : Q) :
  (forall w, In w weights -> (0 <= w)%Q) ->
  weights !! j = Some wj -> (0 < wj)%Q ->
  (0 <= u)%Q -> (u < 1)%Q ->
  exists w, weights !! discrete_distribution weights u = Some w /\ (0 < w)%Q.
Proof.
  intros Hge Hj Hwj Hu0 Hu1. unfold discrete_distribution.
  pose proof (total_weight_pos weights j wj Hge Hj Hwj) as Htot.
  apply first_exceeding_spec; [exact Hge| |].
  - apply Qmult_le_0_compat; lra.
  - rewrite <- (Qmult_1_l (total_weight weights)) at 2.
    apply Qmult_lt_compat_r; assumption.
Qed.

Lemma uniform_index_lt (n : nat) (u : Q) :
  1 <= n -> (0 <= u)%Q -> (u < 1)%Q -> uniform_index n u < n.
Proof.
  intros Hn Hu0 Hu1. unfold uniform_index.
  set (x := (u * inject_Z (Z.of_nat n))%Q).
  assert (Hn' : (0 < inject_Z (Z.of_nat n))%Q).
  { change 0%Q with (inject_Z 0). rewrite <- Zlt_Qlt. lia. }
  assert (Hx : (x < inject_Z (Z.of_nat n))%Q).
  { unfold x. rewrite <- (Qmult_1_l (inject_Z (Z.of_nat n))) at 2.
    apply Qmult_lt_compat_r; assumption. }
  pose proof (Qfloor_le x) as Hfl.
  assert (Hz : (Qfloor x < Z.of_nat n)%Z).
  { rewrite Zlt_Qlt. lra. }
  lia.
Qed.

Lemma unpicked_exists (picks : list nat) (N : nat) :
  NoDup picks -> length picks < N -> exists j, j < N /\ ~ In j picks.
Proof.
  intros Hnd Hlen.
  destruct (decide (Forall (fun j => j ∈ picks) (seq 0 N))) as [Hall|Hnot].
  - exfalso.
    assert (Hsub : seq 0 N ⊆+ picks).
    { apply NoDup_submseteq; [apply NoDup_seq|].
      intros x Hx. rewrite Forall_forall in Hall. apply Hall. exact Hx. }
    apply submseteq_length in Hsub. rewrite length_seq in Hsub. lia.
  - apply not_Forall_Exists in Hnot; [|intros x; apply _].
    apply Exists_exists in Hnot as (j & Hj & Hnj).
    apply elem_of_seq in Hj. exists j. split; [lia|].
    intros Hin. apply Hnj. apply list_elem_of_In. exact Hin.
Qed.

Lemma min_distance_cases (dj d : Q) :
  min_distance dj d = d /\ (d < dj)%Q \/ min_distance dj d = dj /\ (dj <= d)%Q.
Proof.
  unfold min_distance. destruct (Qltb d dj) eqn:Hlt.
  - left. split; [reflexivity|apply Qltb_lt; exact Hlt].
  - right. split; [reflexivity|apply Qltb_ge; exact Hlt].
Qed.

Section KmeansPPProofs.
Context {T : Type} `{Scalar T}.
Variables (training_set : ColMajorMatrix T) (K : nat).
Hypothesis training_set_wf : matrix_wf training_set.
Hypothesis training_set_distinct : pairwise_distinct training_set.

Lemma col_length (j : nat) :
  j < num_vectors training_set ->
  length (col training_set j) = num_rows training_set.
Proof.
  intros Hj. unfold col, num_vectors in *.
  destruct (lookup_lt_is_Some_2 _ _ Hj) as [c Hc]. rewrite Hc. simpl.
  unfold matrix_wf in training_set_wf. rewrite Forall_forall in training_set_wf.
  apply training_set_wf. eapply list_elem_of_lookup_2. exact Hc.
Qed.

(** The weights after the update of one pass: zero on the vectors picked,
    positive on the others. *)
Lemma updated_weights (i : nat) (st : seeding) (j : nat) (w : Q) :
  seeding_inv training_set K i st -> 1 <= i ->
  zip_with (fun vec dj =>
      min_distance dj (sum_of_squares vec (col (seed_centroids st) (i - 1))))
    (columns training_set) (seed_distances st) !! j = Some w ->
  (In j (seed_picks st) -> (w == 0)%Q) /\
  (~ In j (seed_picks st) -> (0 < w)%Q).
Proof.
  intros Hinv Hi Hw.
  apply lookup_zip_with_Some in Hw as (vec & dj & -> & Hvec & Hdj).
  pose proof (lookup_lt_Some _ _ _ Hvec) as Hj.
  assert (Hcolj : col training_set j = vec)
    by (unfold col; rewrite Hvec; reflexivity).
  destruct (lookup_lt_is_Some_2 (seed_picks st) (i - 1)) as [c Hc];
    [rewrite (inv_length _ _ _ _ Hinv); lia|].
  rewrite (inv_centroid _ _ _ _ Hinv _ _ Hc).
  assert (Hcin : In c (seed_picks st)).
  { apply list_elem_of_In. eapply list_elem_of_lookup_2. exact Hc. }
  pose proof (inv_bound _ _ _ _ Hinv c Hcin) as Hcb.
  destruct (inv_weight _ _ _ _ Hinv j dj Hdj) as (Hge & Hout & Hin).
  pose proof (sum_of_squares_nonneg vec (col training_set c)) as Hd.
  destruct (min_distance_cases dj (sum_of_squares vec (col training_set c)))
    as [[-> Hlt]|[-> Hle]]; split.
  - intros Hjin. destruct (Hin Hjin) as [Hone|Hz]; [|lra].
    assert (j = c).
    { pose proof (inv_length _ _ _ _ Hinv) as Hlen. rewrite Hone in Hlen.
      destruct (seed_picks st) as [|c0 [|c1 l]]; try discriminate.
      subst i. simpl in Hc. injection Hc as <-.
      destruct Hjin as [<-|[]]. reflexivity. }
    subst j. rewrite <- Hcolj. apply sum_of_squares_diag.
  - intros Hjout. rewrite <- Hcolj. apply sum_of_squares_pos.
    + rewrite !col_length by assumption. reflexivity.
    + apply training_set_distinct; [exact Hj|exact Hcb|].
      intros ->. exact (Hjout Hcin).
  - intros Hjin. destruct (Hin Hjin) as [Hone|Hz]; [|exact Hz].
    assert (j = c).
    { pose proof (inv_length _ _ _ _ Hinv) as Hlen. rewrite Hone in Hlen.
      destruct (seed_picks st) as [|c0 [|c1 l]]; try discriminate.
      subst i. simpl in Hc. injection Hc as <-.
      destruct Hjin as [<-|[]]. reflexivity. }
    subst j. rewrite <- Hcolj in Hle.
    rewrite sum_of_squares_diag in Hle. lra.
  - intros Hjout. exact (Hout Hjout).
Qed.

Lemma kmeans_pp_step_inv (i : nat) (st : seeding) (u : Q) :
  seeding_inv training_set K i st -> 1 <= i -> i < K ->
  K <= num_vectors training_set ->
  (0 <= u)%Q -> (u < 1)%Q ->
  seeding_inv training_set K (S i) (kmeans_pp_step training_set st (i, u)).
Proof.
  intros Hinv Hi HiK HKN Hu0 Hu1. unfold kmeans_pp_step.
  set (w' := zip_with (fun vec dj =>
      min_distance dj (sum_of_squares vec (col (seed_centroids st) (i - 1))))
    (columns training_set) (seed_distances st)).
  assert (Hw' : forall j w, w' !! j = Some w ->
            (In j (seed_picks st) -> (w == 0)%Q) /\
            (~ In j (seed_picks st) -> (0 < w)%Q))
    by (intros j w Hjw; exact (updated_weights i st j w Hinv Hi Hjw)).
  assert (Hlenw : length w' = num_vectors training_set).
  { unfold w'. rewrite length_zip_with.
    rewrite (inv_distances _ _ _ _ Hinv). unfold num_vectors. lia. }
  assert (Hge : forall w, In w w' -> (0 <= w)%Q).
  { intros w Hw. apply list_elem_of_In in Hw.
    apply list_elem_of_lookup_1 in Hw as [j Hj].
    destruct (Hw' j w Hj) as [Hin Hout].
    destruct (in_dec Nat.eq_dec j (seed_picks st)) as [Hjin|Hjout].
    - rewrite (Hin Hjin). lra.
    - specialize (Hout Hjout). lra. }
  destruct (unpicked_exists (seed_picks st) (num_vectors training_set))
    as (j0 & Hj0 & Hj0out).
  { exact (inv_nodup _ _ _ _ Hinv). }
  { rewrite (inv_length _ _ _ _ Hinv). lia. }
  destruct (lookup_lt_is_Some_2 w' j0) as [w0 Hw0]; [lia|].
  destruct (discrete_distribution_spec w' u j0 w0 Hge Hw0
              (proj2 (Hw' j0 w0 Hw0) Hj0out) Hu0 Hu1) as (wn & Hn & Hwn).
  set (n := discrete_distribution w' u) in *.
  assert (Hnb : n < num_vectors training_set).
  { rewrite <- Hlenw. eapply lookup_lt_Some. exact Hn. }
  assert (Hnout : ~ In n (seed_picks st)).
  { intros Hnin. pose proof (proj1 (Hw' n wn Hn) Hnin). lra. }
  constructor; simpl.
  - rewrite length_app, (inv_length _ _ _ _ Hinv). simpl. lia.
  - apply NoDup_app. split; [exact (inv_nodup _ _ _ _ Hinv)|]. split.
    + intros x Hx Hx'. apply list_elem_of_In in Hx.
      apply list_elem_of_In in Hx'. destruct Hx' as [<-|[]].
      exact (Hnout Hx).
    + apply NoDup_singleton.
  - intros c Hc. apply in_app_iff in Hc as [Hc|[<-|[]]];
      [exact (inv_bound _ _ _ _ Hinv c Hc)|exact Hnb].
  - rewrite length_insert. exact (inv_columns _ _ _ _ Hinv).
  - intros t c Htc. unfold col. simpl.
    apply lookup_snoc_Some in Htc as [[Ht Htc]|[Ht <-]].
    + rewrite (inv_length _ _ _ _ Hinv) in Ht.
      rewrite list_lookup_insert_ne by lia.
      exact (inv_centroid _ _ _ _ Hinv t c Htc).
    + rewrite (inv_length _ _ _ _ Hinv) in Ht. subst t.
      rewrite list_lookup_insert_eq by (rewrite (inv_columns _ _ _ _ Hinv); lia).
      reflexivity.
  - rewrite length_insert. exact Hlenw.
  - intros j w Hjw. destruct (decide (n = j)) as [<-|Hne].
    + rewrite list_lookup_insert_eq in Hjw by (rewrite Hlenw; exact Hnb).
      injection Hjw as <-. split; [lra|]. split.
      * intros Hout. exfalso. apply Hout. apply in_app_iff. right. left.
        reflexivity.
      * intros _. right. reflexivity.
    + rewrite list_lookup_insert_ne in Hjw by exact Hne.
      destruct (Hw' j w Hjw) as [Hin Hout]. split; [|split].
      * apply Hge. apply list_elem_of_In. eapply list_elem_of_lookup_2.
        exact Hjw.
      * intros Hnot. apply Hout. intros Hjin. apply Hnot.
        apply in_app_iff. left. exact Hjin.
      * intros Hjin. right. apply in_app_iff in Hjin as [Hjin|[Heq|[]]];
          [exact (Hin Hjin)|contradiction].
Qed.

Lemma kmeans_pp_loop_inv (m : nat) (draws : nat -> Q) :
  (forall i, (0 <= draws i)%Q /\ (draws i < 1)%Q) ->
  K <= num_vectors training_set ->
  forall (i : nat) (st : seeding),
  seeding_inv training_set K i st -> 1 <= i -> i + m <= K ->
  seeding_inv training_set K (i + m)
    (fold_left (kmeans_pp_step training_set)
       (map (fun i => (i, draws i)) (seq i m)) st).
Proof.
  intros Hdraws HKN. induction m as [|m IH]; intros i st Hinv Hi Him; simpl.
  - rewrite Nat.add_0_r. exact Hinv.
  - replace (i + S m) with (S i + m) by lia. apply IH; [|lia|lia].
    apply kmeans_pp_step_inv; try assumption; try lia;
      apply (Hdraws i).
Qed.

End KmeansPPProofs.

Lemma initial_distance_pos : (0 < initial_distance)%Q.
Proof. reflexivity. Qed.

Section KmeansPPResult.
Context {T : Type} `{Scalar T}.

Lemma kmeans_pp_run_inv (idx : kmeans_index T)
    (training_set : ColMajorMatrix T) (draws : nat -> Q) :
  1 <= nlist_ idx ->
  nlist_ idx <= num_vectors training_set ->
  num_vectors (centroids_ idx) = nlist_ idx ->
  matrix_wf training_set ->
  pairwise_distinct training_set ->
  (forall i, (0 <= draws i)%Q /\ (draws i < 1)%Q) ->
  seeding_inv training_set (nlist_ idx) (nlist_ idx)
    (kmeans_pp_run idx training_set draws).
Proof.
  intros HK HKN Hcols Hwf Hdist Hdraws. unfold kmeans_pp_run.
  set (choice := uniform_index (num_vectors training_set) (draws 0)).
  assert (Hchoice : choice < num_vectors training_set).
  { apply uniform_index_lt; [lia|apply (Hdraws 0)|apply (Hdraws 0)]. }
  replace (nlist_ idx) with (1 + (nlist_ idx - 1)) at 2 by lia.
  apply kmeans_pp_loop_inv; try assumption; [|lia|lia].
  constructor; simpl.
  - reflexivity.
  - apply NoDup_singleton.
  - intros c [<-|[]]. exact Hchoice.
  - rewrite length_insert. exact Hcols.
  - intros t c Htc. destruct t as [|t]; [|destruct t; discriminate].
    injection Htc as <-. unfold col. simpl.
    rewrite list_lookup_insert_eq by (unfold num_vectors in Hcols; lia).
    reflexivity.
  - apply length_replicate.
  - intros j w Hjw. apply lookup_replicate in Hjw as [-> _].
    pose proof initial_distance_pos. split; [lra|]. split; [intros _; lra|].
    intros _. left. reflexivity.
Qed.

(** C7. After [kmeans_pp] on pairwise-distinct training vectors with
    [1 <= K <= N], whatever the draws: [K] training vectors were picked and
    no vector was picked twice; centroid [i] equals the [i]-th vector
    picked; no two centroids hold the same values; and (once a weighted draw
    has been made, [K >= 2]) the weight of every vector picked is 0, which
    is why no draw can land on it. *)
Theorem kmeans_pp_picks_distinct_training_vectors (idx : kmeans_index T)
    (training_set : ColMajorMatrix T) (draws : nat -> Q) :
  1 <= nlist_ idx ->
  nlist_ idx <= num_vectors training_set ->
  num_vectors (centroids_ idx) = nlist_ idx ->
  matrix_wf training_set ->
  pairwise_distinct training_set ->
  (forall i, (0 <= draws i)%Q /\ (draws i < 1)%Q) ->
  let st := kmeans_pp_run idx training_set draws in
  let C := centroids_ (kmeans_pp idx training_set draws) in
  length (seed_picks st) = nlist_ idx /\
  NoDup (seed_picks st) /\
  (forall i, i < nlist_ idx ->
     exists c, seed_picks st !! i = Some c /\
               c < num_vectors training_set /\
               col C i = col training_set c) /\
  (forall i j, i < nlist_ idx -> j < nlist_ idx -> i <> j ->
     ~ same_vector (col C i) (col C j)) /\
  (2 <= nlist_ idx -> forall c, In c (seed_picks st) ->
     exists w, seed_distances st !! c = Some w /\ (w == 0)%Q).
Proof.
  intros HK HKN Hcols Hwf Hdist Hdraws st C.
  pose proof (kmeans_pp_run_inv idx training_set draws HK HKN Hcols Hwf Hdist
                Hdraws) as Hinv.
  fold st in Hinv.
  assert (Hpick : forall i, i < nlist_ idx ->
            exists c, seed_picks st !! i = Some c /\
                      c < num_vectors training_set /\
                      col C i = col training_set c).
  { intros i Hi.
    destruct (lookup_lt_is_Some_2 (seed_picks st) i) as [c Hc];
      [rewrite (inv_length _ _ _ _ Hinv); exact Hi|].
    exists c. split; [exact Hc|]. split.
    - apply (inv_bound _ _ _ _ Hinv). apply list_elem_of_In.
      eapply list_elem_of_lookup_2. exact Hc.
    - exact (inv_centroid _ _ _ _ Hinv i c Hc). }
  split; [exact (inv_length _ _ _ _ Hinv)|].
  split; [exact (inv_nodup _ _ _ _ Hinv)|].
  split; [exact Hpick|]. split.
  - intros i j Hi Hj Hij.
    destruct (Hpick i Hi) as (ci & Hci & Hcib & ->).
    destruct (Hpick j Hj) as (cj & Hcj & Hcjb & ->).
    apply Hdist; [exact Hcib|exact Hcjb|].
    intros ->. apply Hij.
    exact (NoDup_lookup _ _ _ _ (inv_nodup _ _ _ _ Hinv) Hci Hcj).
  - intros H2 c Hc.
    pose proof (inv_bound _ _ _ _ Hinv c Hc) as Hcb.
    destruct (lookup_lt_is_Some_2 (seed_distances st) c) as [w Hw];
      [rewrite (inv_distances _ _ _ _ Hinv); exact Hcb|].
    exists w. split; [exact Hw|].
    destruct (inv_weight _ _ _ _ Hinv c w Hw) as (_ & _ & Hin).
    destruct (Hin Hc) as [Hone|Hz]; [lia|exact Hz].
Qed.

End KmeansPPResult.

(** ** vq_query_heap *)

Section VqQueryHeapProofs.
Context {T U : Type} `{Scalar T} `{Scalar U}.

(** The streaming loop ends: every pass but the last takes a block off the
    matrix that is streamed. *)
Lemma scan_all_returns (fuel nthreads size_q : nat) :
  forall (db : blocked_matrix T) (q : blocked_matrix U)
         (st : list (list k_min_heap) * list event),
  length (pending db) + length (pending q) < fuel ->
  succeeded (scan_all fuel nthreads db q size_q st).
Proof.
  induction fuel as [|fuel IH]; intros db q st Hfuel; [lia|].
  simpl. destruct (is_blocked db).
  - unfold advance. destruct (pending db) as [|b rest] eqn:Hp;
      [exact I|].
    apply IH. simpl in *. lia.
  - unfold advance. destruct (pending q) as [|b rest] eqn:Hp;
      [exact I|].
    apply IH. simpl in *. lia.
Qed.

(** C8. [vq_query_heap] fails with "Can't block both db and q" exactly when
    the database and the query matrix are both blocked; the failure comes
    before any score is computed and before any heap is updated; and when at
    most one of the two is blocked the call returns. *)
Theorem vq_query_heap_fails_iff_both_blocked (db : blocked_matrix T)
    (q : blocked_matrix U) (k nthreads : nat) :
  (fst (vq_query_heap db q k nthreads)
   = inl (RuntimeError "Can't block both db and q")
   <-> is_blocked db = true /\ is_blocked q = true) /\
  (is_blocked db && is_blocked q = true ->
   snd (vq_query_heap db q k nthreads) = []) /\
  (is_blocked db && is_blocked q = false ->
   succeeded (fst (vq_query_heap db q k nthreads))).
Proof.
  assert (Hret : is_blocked db && is_blocked q = false ->
                 succeeded (fst (vq_query_heap db q k nthreads))).
  { intros Hb. unfold vq_query_heap. rewrite Hb.
    pose proof (scan_all_returns
                  (S (length (pending db) + length (pending q))) nthreads
                  (length (window q)) db q
                  (replicate nthreads
                     (replicate (length (window q)) (empty_heap k)), [])
                  (Nat.lt_succ_diag_r _)) as Hs.
    destruct (scan_all _ nthreads db q (length (window q)) _)
      as [e|[st q']]; [destruct Hs|exact I]. }
  split; [|split; [|exact Hret]].
  - split.
    + intros Hfail. destruct (is_blocked db && is_blocked q) eqn:Hb.
      * apply andb_true_iff in Hb. exact Hb.
      * specialize (Hret eq_refl). rewrite Hfail in Hret. destruct Hret.
    + intros [Hdb Hq]. unfold vq_query_heap. rewrite Hdb, Hq. reflexivity.
  - intros Hb. unfold vq_query_heap. rewrite Hb. reflexivity.
Qed.

End VqQueryHeapProofs.

(** ** The recall loop *)

(** When [groundtruth[i]] has exactly [k_nn] rows, the whole of it is sorted
    before the intersection. *)
Lemma intersect_column_whole_sorted (k_nn : nat) (top_k_i groundtruth_i : list Z) :
  length groundtruth_i = k_nn ->
  intersect_column k_nn top_k_i groundtruth_i
  = set_intersection (sort_Z top_k_i) (sort_Z groundtruth_i).
Proof.
  intros <-. unfold intersect_column.
  rewrite firstn_all, drop_all, app_nil_r. reflexivity.
Qed.

(** C6, the code at an input on which it leaves the claim.  One query,
    [k = 2], the result column [1, 5], a ground-truth column of four rows
    [3, 4, 5, 1]: the ground-truth column that is intersected is
    [3, 4, 5, 1], not sorted; the walk counts one common id, so the driver
    reports 1/2, while the two ids of the result share nothing with the
    ground-truth top-2 [3, 4] and both occur in the whole column. *)
Theorem recall_unsorted_groundtruth_tail :
  let top_k := mkMatrix 2 [[1; 5]%Z] in
  let groundtruth := mkMatrix 4 [[3; 4; 5; 1]%Z] in
  sort_Z (take 2 (col groundtruth 0)) ++ drop 2 (col groundtruth 0)
    = [3; 4; 5; 1]%Z /\
  total_intersected 2 top_k groundtruth = 1 /\
  recall 2 top_k groundtruth = (1 # 2)%Q /\
  spec_intersection (col top_k 0) (take 2 (col groundtruth 0)) = 0 /\
  spec_intersection (col top_k 0) (col groundtruth 0) = 2 /\
  spec_recall 2 top_k groundtruth = (0 # 2)%Q.
Proof. repeat split; reflexivity. Qed.

(** ** The second pass of train *)

(** The vector [tmp] of the code is twice as long as the set of the
    specification, and it always holds the node 0. *)
Lemma train_tmp_length (G : adj_list) (p j : nat) :
  length (train_tmp G p j) = 2 * length (spec_tmp G p j).
Proof.
  unfold train_tmp, spec_tmp, targets, out_degree.
  rewrite length_app, length_replicate. simpl. rewrite !length_map. lia.
Qed.

Lemma train_tmp_holds_zero (G : adj_list) (p j : nat) :
  In 0 (train_tmp G p j).
Proof.
  unfold train_tmp. apply in_app_iff. left.
  replace (out_degree G j + 1) with (S (out_degree G j)) by lia.
  left. reflexivity.
Qed.

(** The code adds the edge [(j, p)] exactly when
    [2 * (|N_out(j)| + 1) <= R_max]. *)
Lemma post_search_prune_add_edge_iff {T : Type} `{Scalar T}
    (map_order : list (nat * Q) -> list (nat * Q)) (db : ColMajorMatrix T)
    (p : nat) (alpha : Q) (R : nat) (G : adj_list) (j : nat) :
  post_search_prune map_order db p alpha R G j
  = if R <? 2 * (out_degree G j + 1)
    then robust_prune map_order G db j (train_tmp G p j) alpha R
    else inr (add_edge G j p (sum_of_squares (col db p) (col db j))).
Proof.
  unfold post_search_prune. rewrite train_tmp_length.
  replace (length (spec_tmp G p j)) with (out_degree G j + 1);
    [reflexivity|].
  unfold spec_tmp, targets, out_degree. simpl. rewrite length_map. lia.
Qed.

(** C1, the code at an input on which it leaves the claim.  Training on the
    one-dimensional vectors 0, 10, 11, 30 with [L = 3] and [R_max = 2]
    (medoid 2): when [p = 1] has been pruned to the neighbours 2 and 0, node
    [j = 2] has the single out-neighbour 0, so [{p} ∪ N_out(j)] has
    [2 <= R_max] members; the code builds [tmp = [0; 0; 1; 0]] of length 4,
    runs [robust_prune] and leaves node 2 with the edge to 1 only, where the
    specification adds the edge [(2, 1)] to the edge [(2, 0)]. *)
Theorem train_second_pass_prunes_below_degree_bound :
  let db := mkMatrix 1 [[0%Z]; [10%Z]; [11%Z]; [30%Z]] in
  let order := fun l : list (nat * Q) => l in
  let G1 := [[(121%Q, 2)]; []; [(121%Q, 0)]; []] in
  let G2 := [[(121%Q, 2)]; [(1%Q, 2); (100%Q, 0)]; [(121%Q, 0)]; []] in
  medioid db = 2 /\
  train_node order db 2 3 2 (6 # 5) (empty_adj_list 4) 0 = inr G1 /\
  greedy_search G1 db 2 (col db 1) 1 3 = inr ([1%Q], [2], [2; 0]) /\
  robust_prune order G1 db 1 [2; 0] (6 # 5) 2 = inr G2 /\
  length (spec_tmp G2 1 2) = 2 /\
  train_tmp G2 1 2 = [0; 0; 1; 0] /\
  post_search_prune order db 1 (6 # 5) 2 G2 2
    = inr [[(121%Q, 2)]; [(1%Q, 2); (100%Q, 0)]; [(1%Q, 1)]; []] /\
  spec_post_search_prune order db 1 (6 # 5) 2 G2 2
    = inr [[(121%Q, 2)]; [(1%Q, 2); (100%Q, 0)];
           [(121%Q, 0); (1%Q, 1)]; []] /\
  (idx ← train order (new_index 4 3 2 0) db; mret (graph_ idx))
    = inr [[(100%Q, 1)]; [(1%Q, 2); (100%Q, 0)];
           [(1%Q, 1); (361%Q, 3)]; [(361%Q, 2)]].
Proof. repeat split; vm_compute; reflexivity. Qed.

(** * Further properties of the code *)

(** ** What robust_prune selects *)

Lemma min_element_least (V : list edge) (m : edge) :
  min_element V = Some m -> forall x, In x V -> (fst m <= fst x)%Q.
Proof.
  destruct V as [|e0 V]; simpl; [discriminate|].
  intros Heq. injection Heq as <-.
  assert (Hgen : forall l m0 x,
    In x (m0 :: l) ->
    (fst (fold_left (fun m x : edge => if Qltb (fst x) (fst m) then x else m)
            l m0) <= fst x)%Q).
  { induction l as [|y l IH]; intros m0 x; simpl.
    - intros [<-|[]]. lra.
    - intros Hx.
      destruct (Qltb (fst y) (fst m0)) eqn:Hlt.
      + apply Qltb_lt in Hlt.
        destruct Hx as [<-|[<-|Hx]].
        * specialize (IH y y (or_introl eq_refl)). lra.
        * apply IH. left. reflexivity.
        * apply IH. right. exact Hx.
      + apply Qltb_ge in Hlt.
        destruct Hx as [<-|[<-|Hx]].
        * apply IH. left. reflexivity.
        * specialize (IH m0 m0 (or_introl eq_refl)). lra.
        * apply IH. right. exact Hx. }
  intros x Hx. apply Hgen. exact Hx.
Qed.

Section RobustPruneEdges.
Context {T : Type} `{Scalar T}.

Lemma keep_candidate_true (db : ColMajorMatrix T) (p p_star : nat)
    (alpha : Q) (e : edge) :
  keep_candidate db p p_star alpha e = true ->
  (fst e < alpha * sum_of_squares (col db p_star) (col db (snd e)))%Q /\
  snd e <> p.
Proof.
  unfold keep_candidate.
  destruct (Qle_bool _ _) eqn:Hle; [discriminate|].
  intros Hne. split.
  - apply Qnot_le_lt. intros Hc. apply Qle_bool_iff in Hc. congruence.
  - apply negb_true_iff in Hne. apply Nat.eqb_neq in Hne. exact Hne.
Qed.

(** What the loop appends to the list of [p]: entries of [V], the first of
    them a least one, each later one kept by every earlier one; the other
    lists stay as they are. *)
Lemma prune_loop_edges (fuel : nat) (db : ColMajorMatrix T) (p : nat)
    (alpha : Q) (R : nat) :
  forall (G G' : adj_list) (V : list edge),
  p < num_vertices G ->
  prune_loop fuel db p alpha R G V = inr G' ->
  exists added,
    out_edges G' p = out_edges G p ++ added /\
    (forall e, In e added -> In e V) /\
    alpha_diverse db alpha added /\
    (V <> [] -> exists e, added !! 0 = Some e /\
                          forall x, In x V -> (fst e <= fst x)%Q).
Proof.
  induction fuel as [|fuel IH]; intros G G' V Hp; simpl; [discriminate|].
  destruct (min_element V) as [[s_star p_star]|] eqn:Hmin.
  2:{ intros [= <-]. exists []. rewrite app_nil_r. split; [reflexivity|].
      split; [intros e []|]. split.
      - intros i j a b _ Ha. rewrite lookup_nil in Ha. discriminate.
      - intros HV. apply min_element_None in Hmin. contradiction. }
  pose proof (min_element_In _ _ Hmin) as Hin.
  pose proof (min_element_least _ _ Hmin) as Hleast.
  destruct (p_star =? p) eqn:Hpp; [discriminate|].
  pose proof (out_edges_add_edge_eq G p p_star s_star Hp) as Hout.
  destruct (out_degree (add_edge G p p_star s_star) p =? R).
  { intros [= <-]. exists [(s_star, p_star)]. split; [exact Hout|].
    split; [intros e [<-|[]]; exact Hin|]. split.
    - intros i j a b Hij Ha Hb. destruct j as [|j]; [lia|].
      simpl in Hb. rewrite lookup_nil in Hb. discriminate.
    - intros _. exists (s_star, p_star). split; [reflexivity|exact Hleast]. }
  intros Hrun.
  apply IH in Hrun; [|rewrite num_vertices_add_edge; exact Hp].
  destruct Hrun as (added & Hout' & Hadded & Hdiv & _).
  exists ((s_star, p_star) :: added). split.
  { rewrite Hout', Hout, <- app_assoc. reflexivity. }
  split.
  { intros e [<-|He]; [exact Hin|].
    apply Hadded in He. apply List.filter_In in He. tauto. }
  split.
  { intros i j a b Hij Ha Hb. destruct j as [|j]; [lia|]. simpl in Hb.
    destruct i as [|i].
    - simpl in Ha. injection Ha as <-. simpl.
      assert (Hb' : In b added).
      { apply list_elem_of_In. eapply list_elem_of_lookup_2. exact Hb. }
      apply Hadded in Hb'. apply List.filter_In in Hb' as [_ Hkeep].
      apply keep_candidate_true in Hkeep. tauto.
    - simpl in Ha. apply (Hdiv i j); [lia|exact Ha|exact Hb]. }
  intros _. exists (s_star, p_star). split; [reflexivity|exact Hleast].
Qed.

(** The loop leaves the lists of the other nodes as they are. *)
Lemma prune_loop_frame (fuel : nat) (db : ColMajorMatrix T) (p : nat)
    (alpha : Q) (R : nat) :
  forall (G G' : adj_list) (V : list edge),
  prune_loop fuel db p alpha R G V = inr G' ->
  num_vertices G' = num_vertices G /\
  forall p', p' <> p -> out_edges G' p' = out_edges G p'.
Proof.
  induction fuel as [|fuel IH]; intros G G' V; simpl; [discriminate|].
  destruct (min_element V) as [[s_star p_star]|].
  2:{ intros [= <-]. split; [reflexivity|]. intros; reflexivity. }
  destruct (p_star =? p); [discriminate|].
  destruct (out_degree (add_edge G p p_star s_star) p =? R).
  { intros [= <-]. split; [apply num_vertices_add_edge|].
    intros p' Hp'. apply out_edges_add_edge_ne. congruence. }
  intros Hrun. apply IH in Hrun as [Hnv Hfr].
  split; [rewrite Hnv; apply num_vertices_add_edge|].
  intros p' Hp'. rewrite (Hfr p' Hp'). apply out_edges_add_edge_ne.
  congruence.
Qed.

Lemma try_emplace_keeps (m : gmap nat Q) (k k' : nat) (v v' : Q) :
  m !! k = Some v -> try_emplace m k' v' !! k = Some v.
Proof.
  intros Hk. unfold try_emplace. destruct (m !! k') eqn:Hk'; [exact Hk|].
  rewrite lookup_insert_ne; [exact Hk|]. intros ->. congruence.
Qed.

Lemma fold_try_emplace_keeps {A : Type} (key : A -> nat) (val : A -> Q)
    (skip : A -> bool) (l : list A) (k : nat) (v : Q) :
  forall m : gmap nat Q,
  m !! k = Some v ->
  fold_left (fun m a => if skip a then m else try_emplace m (key a) (val a))
    l m !! k = Some v.
Proof.
  induction l as [|a l IH]; intros m Hm; simpl; [exact Hm|].
  apply IH. destruct (skip a); [exact Hm|]. apply try_emplace_keeps.
  exact Hm.
Qed.

(** Every member of [V_in] other than [p] is a candidate, with its distance
    to [p]. *)
Lemma candidate_map_member (G : adj_list) (db : ColMajorMatrix T) (p : nat)
    (V_in : list nat) (v : nat) :
  In v V_in -> v <> p ->
  candidate_map G db p V_in !! v
  = Some (sum_of_squares (col db v) (col db p)).
Proof.
  intros Hv Hne. unfold candidate_map.
  apply (fold_try_emplace_keeps (fun e : edge => snd e)
           (fun e : edge => fst e) (fun e : edge => snd e =? p)).
  assert (Hgen : forall l (m : gmap nat Q),
    (forall k x, m !! k = Some x ->
       x = sum_of_squares (col db k) (col db p)) ->
    In v l \/ is_Some (m !! v) ->
    fold_left (fun m v =>
      if v =? p then m
      else try_emplace m v (sum_of_squares (col db v) (col db p))) l m !! v
    = Some (sum_of_squares (col db v) (col db p))).
  { induction l as [|a l IH]; intros m Hm Hor; simpl.
    - destruct Hor as [[]|[x Hx]]. rewrite Hx. f_equal. apply Hm. exact Hx.
    - apply IH.
      + destruct (a =? p); [exact Hm|].
        apply (try_emplace_inv
                 (fun k x => x = sum_of_squares (col db k) (col db p)));
          [exact Hm|reflexivity].
      + destruct Hor as [[->|Hin]|Hsome].
        * right. apply Nat.eqb_neq in Hne. rewrite Hne.
          unfold try_emplace. destruct (m !! v) eqn:Hmv.
          -- rewrite Hmv. eexists. reflexivity.
          -- rewrite lookup_insert_eq. eexists. reflexivity.
        * left. exact Hin.
        * right. destruct Hsome as [x Hx]. destruct (a =? p).
          -- rewrite Hx. eexists. reflexivity.
          -- rewrite (try_emplace_keeps _ _ _ _ _ Hx). eexists. reflexivity. }
  apply Hgen.
  - intros k x. rewrite lookup_empty. discriminate.
  - left. exact Hv.
Qed.

(** A candidate is a member of [V_in] with its distance to [p], or an
    out-neighbour of [p] with the score the graph stores; never [p]. *)
Lemma candidate_map_origin (G : adj_list) (db : ColMajorMatrix T) (p : nat)
    (V_in : list nat) (k : nat) (v : Q) :
  candidate_map G db p V_in !! k = Some v ->
  k <> p /\
  ((In k V_in /\ v = sum_of_squares (col db k) (col db p)) \/
   In (v, k) (out_edges G p)).
Proof.
  unfold candidate_map.
  apply (fold_try_emplace_inv
           (fun k v => k <> p /\
              ((In k V_in /\ v = sum_of_squares (col db k) (col db p)) \/
               In (v, k) (out_edges G p)))
           (fun e : edge => snd e) (fun e : edge => fst e)
           (fun e : edge => snd e =? p)).
  - intros e He Hskip. apply Nat.eqb_neq in Hskip. split; [exact Hskip|].
    right. destruct e. exact He.
  - apply (fold_try_emplace_inv
             (fun k v => k <> p /\
                ((In k V_in /\ v = sum_of_squares (col db k) (col db p)) \/
                 In (v, k) (out_edges G p)))
             (fun v : nat => v)
             (fun v : nat => sum_of_squares (col db v) (col db p))
             (fun v : nat => v =? p)).
    + intros a Ha Hskip. apply Nat.eqb_neq in Hskip. split; [exact Hskip|].
      left. split; [exact Ha|reflexivity].
    + intros k' v'. rewrite lookup_empty. discriminate.
Qed.

End RobustPruneEdges.

Section RobustPruneExtras.
Context {T : Type} `{Scalar T}.
Variable map_order : list (nat * Q) -> list (nat * Q).
Hypothesis map_order_perm : forall l, Permutation (map_order l) l.

(** [robust_prune] rewrites the out-edge list of [p] only: the graph keeps
    its nodes, and the list of every other node is as it was. *)
Theorem robust_prune_rewrites_only_p (G G' : adj_list)
    (db : ColMajorMatrix T) (p : nat) (V_in : list nat) (alpha : Q)
    (R : nat) :
  robust_prune map_order G db p V_in alpha R = inr G' ->
  num_vertices G' = num_vertices G /\
  forall p', p' <> p -> out_edges G' p' = out_edges G p'.
Proof.
  unfold robust_prune. intros Hrun.
  apply prune_loop_frame in Hrun as [Hnv Hfr].
  split; [rewrite Hnv; apply num_vertices_clear|].
  intros p' Hp'. rewrite (Hfr p' Hp'). apply out_edges_clear_ne. congruence.
Qed.

Lemma robust_prune_origin (G G' : adj_list)
    (db : ColMajorMatrix T) (p : nat) (V_in : list nat) (alpha : Q)
    (R : nat) :
  p < num_vertices G ->
  robust_prune map_order G db p V_in alpha R = inr G' ->
  forall e, In e (out_edges G' p) ->
    snd e <> p /\
    ((In (snd e) V_in /\
      fst e = sum_of_squares (col db (snd e)) (col db p)) \/
     In e (out_edges G p)).
Proof.
  unfold robust_prune. intros Hp Hrun.
  apply prune_loop_edges in Hrun; [|rewrite num_vertices_clear; exact Hp].
  destruct Hrun as (added & Hout & Hadded & _).
  rewrite out_edges_clear_eq in Hout. simpl in Hout.
  intros e He. rewrite Hout in He. apply Hadded in He.
  apply in_map_iff in He as ([k v] & <- & Hin). simpl.
  apply (Permutation_in _ (map_order_perm _)) in Hin.
  apply list_elem_of_In in Hin. apply elem_of_map_to_list in Hin.
  exact (candidate_map_origin G db p V_in k v Hin).
Qed.

(** Every out-edge of [p] after [robust_prune] leads to a candidate: a
    member of [V_in], stored with its distance to [p], or an out-neighbour
    that [p] had before, stored with its old score. *)
Theorem robust_prune_selects_candidates (G G' : adj_list)
    (db : ColMajorMatrix T) (p : nat) (V_in : list nat) (alpha : Q)
    (R : nat) :
  p < num_vertices G ->
  robust_prune map_order G db p V_in alpha R = inr G' ->
  forall e, In e (out_edges G' p) ->
    snd e <> p /\
    ((In (snd e) V_in /\
      fst e = sum_of_squares (col db (snd e)) (col db p)) \/
     In e (out_edges G p)).
Proof. apply robust_prune_origin. Qed.

(** When [V_in] holds a node other than [p], the list of [p] is not empty
    after [robust_prune], and its first edge is to a nearest candidate: no
    member of [V_in] is closer to [p]. *)
Theorem robust_prune_keeps_nearest (G G' : adj_list)
    (db : ColMajorMatrix T) (p : nat) (V_in : list nat) (alpha : Q)
    (R : nat) (v0 : nat) :
  p < num_vertices G ->
  In v0 V_in -> v0 <> p ->
  robust_prune map_order G db p V_in alpha R = inr G' ->
  exists e,
    out_edges G' p !! 0 = Some e /\
    forall v, In v V_in -> v <> p ->
      (fst e <= sum_of_squares (col db v) (col db p))%Q.
Proof.
  unfold robust_prune. intros Hp Hv0 Hne0 Hrun.
  set (m := candidate_map G db p V_in) in *.
  set (V := map (fun kv : nat * Q => (snd kv, fst kv))
              (map_order (map_to_list m))) in *.
  assert (Hmem : forall v, In v V_in -> v <> p ->
            In (sum_of_squares (col db v) (col db p), v) V).
  { intros v Hv Hne. unfold V. apply in_map_iff.
    exists (v, sum_of_squares (col db v) (col db p)).
    split; [reflexivity|].
    apply (Permutation_in _ (Permutation_sym (map_order_perm _))).
    apply list_elem_of_In. apply elem_of_map_to_list.
    apply candidate_map_member; assumption. }
  apply prune_loop_edges in Hrun; [|rewrite num_vertices_clear; exact Hp].
  destruct Hrun as (added & Hout & _ & _ & Hfirst).
  rewrite out_edges_clear_eq in Hout. simpl in Hout.
  destruct Hfirst as (e & He & Hleast).
  { intros HV. specialize (Hmem v0 Hv0 Hne0). rewrite HV in Hmem.
    destruct Hmem. }
  exists e. split; [rewrite Hout; exact He|].
  intros v Hv Hne. exact (Hleast _ (Hmem v Hv Hne)).
Qed.

(** The out-edges of [p] after [robust_prune] are alpha-diverse: for an
    edge to [a] and a later edge to [b],
    [alpha * d(a, b) > d(p, b)]. *)
Theorem robust_prune_alpha_diverse (G G' : adj_list)
    (db : ColMajorMatrix T) (p : nat) (V_in : list nat) (alpha : Q)
    (R : nat) :
  p < num_vertices G ->
  robust_prune map_order G db p V_in alpha R = inr G' ->
  alpha_diverse db alpha (out_edges G' p).
Proof.
  unfold robust_prune. intros Hp Hrun.
  apply prune_loop_edges in Hrun; [|rewrite num_vertices_clear; exact Hp].
  destruct Hrun as (added & Hout & _ & Hdiv & _).
  rewrite out_edges_clear_eq in Hout. simpl in Hout. rewrite Hout.
  exact Hdiv.
Qed.

End RobustPruneExtras.

(** ** What greedy_search and query report *)

Lemma extract_by_Permutation (better : Q -> Q -> bool) (l : list edge)
    (m : edge) (rest : list edge) :
  extract_by better l = Some (m, rest) -> Permutation l (m :: rest).
Proof.
  revert m rest. induction l as [|x l IH]; intros m rest; simpl;
    [discriminate|].
  destruct (extract_by better l) as [[m' rest']|] eqn:Hex.
  - specialize (IH m' rest' eq_refl).
    destruct (better (fst m') (fst x)); intros [= <- <-].
    + rewrite IH. apply perm_swap.
    + reflexivity.
  - intros [= <- <-]. apply extract_by_None in Hex. subst l. reflexivity.
Qed.

Lemma resident_In (l : list edge) (id : nat) :
  resident l id = true <-> In id (targets l).
Proof.
  unfold resident, targets. rewrite existsb_exists, in_map_iff. split.
  - intros (e & He & Heq). apply Nat.eqb_eq in Heq. exists e. tauto.
  - intros (e & Heq & He). exists e. split; [exact He|].
    apply Nat.eqb_eq. exact Heq.
Qed.

Lemma heap_insert_unique_NoDup (h : k_min_heap) (sc : Q) (id : nat) :
  NoDup (targets (entries h)) ->
  NoDup (targets (entries (snd (heap_insert true h sc id)))).
Proof.
  intros Hnd. unfold heap_insert. simpl.
  destruct (resident (entries h) id) eqn:Hres; [exact Hnd|].
  assert (Hnew : ~ In id (targets (entries h))).
  { intros Hin. apply resident_In in Hin. congruence. }
  destruct (length (entries h) <? capacity h).
  { simpl. unfold targets. rewrite map_app. simpl. apply NoDup_app.
    split; [exact Hnd|]. split; [|apply NoDup_singleton].
    intros x Hx Hx'. apply list_elem_of_In in Hx'. destruct Hx' as [<-|[]].
    apply Hnew. apply list_elem_of_In. exact Hx. }
  destruct (extract_max (entries h)) as [[m rest]|] eqn:Hex; [|exact Hnd].
  destruct (Qltb sc (fst m)); [|exact Hnd]. simpl.
  apply extract_by_Permutation in Hex.
  assert (Hperm : Permutation (targets (entries h)) (snd m :: targets rest)).
  { unfold targets. rewrite Hex. reflexivity. }
  rewrite Hperm in Hnd. apply NoDup_cons in Hnd as [_ Hnd].
  unfold targets. rewrite map_app. simpl. apply NoDup_app.
  split; [exact Hnd|]. split; [|apply NoDup_singleton].
  intros x Hx Hx'. apply list_elem_of_In in Hx'. destruct Hx' as [<-|[]].
  apply Hnew. apply list_elem_of_In in Hx.
  apply (Permutation_in _ (Permutation_sym Hperm)). right. exact Hx.
Qed.

Lemma insert_sorted_Permutation (e : edge) (l : list edge) :
  Permutation (insert_sorted e l) (e :: l).
Proof.
  induction l as [|x l IH]; simpl; [reflexivity|].
  destruct (Qle_bool (fst e) (fst x)); [reflexivity|].
  rewrite IH. apply perm_swap.
Qed.

Lemma sort_heap_Permutation (l : list edge) : Permutation (sort_heap l) l.
Proof.
  unfold sort_heap.
  assert (Hgen : forall acc,
    Permutation (fold_left (fun acc e => insert_sorted e acc) l acc)
      (l ++ acc)).
  { induction l as [|e l IH]; intros acc; simpl; [reflexivity|].
    rewrite IH, insert_sorted_Permutation.
    symmetry. apply Permutation_middle. }
  rewrite Hgen. rewrite app_nil_r. reflexivity.
Qed.

Lemma ascending_take (k : nat) (l : list edge) :
  ascending l -> ascending (take k l).
Proof.
  revert k. induction l as [|x l IH]; intros [|k]; simpl; try tauto.
  intros [Hhd Htl]. split; [|apply IH; exact Htl].
  intros e He. apply Hhd. apply list_elem_of_In in He.
  apply list_elem_of_In. exact (subseteq_take k l e He).
Qed.

Section SearchLoopVisited.
Context {T U : Type} `{Scalar T} `{Scalar U}.
Variables (G : adj_list) (db : ColMajorMatrix T) (query : list U).
Variable source : nat.

Lemma result_inv_step (res : k_min_heap) (p : nat) :
  result_inv db query res ->
  result_inv db query
    (snd (heap_insert true res (sum_of_squares (col db p) query) p)).
Proof.
  intros [Hnd Hsc]. split; [apply heap_insert_unique_NoDup; exact Hnd|].
  intros e He. apply heap_insert_In in He as [He| ->]; [apply Hsc; exact He|].
  reflexivity.
Qed.

Lemma expand_neighbors_inv (visited : list nat) (l : list edge) :
  (forall e, In e l -> In (snd e) (all_targets G)) ->
  forall res q2 res' q2',
  fold_left (expand_neighbor db query visited) l (res, q2) = (res', q2') ->
  result_inv db query res -> ids_known G source (entries res) ->
  result_inv db query res' /\ ids_known G source (entries res') /\
  (forall e, In e (entries q2') ->
     In e (entries q2) \/
     (In (snd e) (all_targets G) /\ ~ In (snd e) visited)).
Proof.
  apply (expand_neighbors_spec G db query source (result_inv db query)).
  intros res p Hres _. apply result_inv_step. exact Hres.
Qed.

(** The search loop, with what it leaves: the result list keeps its
    invariant, the visited nodes are distinct nodes of the search, and the
    nodes visited before the loop come first. *)
Lemma search_loop_visited (fuel : nat) :
  forall (res q1 : k_min_heap) (visited : list nat),
  result_inv db query res ->
  ids_known G source (entries res) ->
  (forall e, In e (entries q1) ->
     In (snd e) (nodes_of_search G source) /\ ~ In (snd e) visited) ->
  NoDup visited ->
  incl visited (nodes_of_search G source) ->
  length (nodes_of_search G source) < fuel + length visited ->
  exists res' visited',
    search_loop fuel G db query res q1 visited = inr (res', visited') /\
    result_inv db query res' /\
    ids_known G source (entries res') /\
    NoDup visited' /\
    incl visited' (nodes_of_search G source) /\
    match extract_min (entries q1) with
    | Some (e, _) => exists tail, visited' = visited ++ snd e :: tail
    | None => visited' = visited
    end.
Proof.
  induction fuel as [|fuel IH]; intros res q1 visited HP Hids Hq1 Hnd Hincl
    Hfuel.
  { assert (Hsub : visited ⊆+ (nodes_of_search G source)).
    { apply NoDup_submseteq; [exact Hnd|]. intros x Hx.
      apply list_elem_of_In. apply Hincl. apply list_elem_of_In. exact Hx. }
    apply submseteq_length in Hsub. unfold nodes_of_search in *.
    simpl in *. lia. }
  simpl.
  destruct (extract_min (entries q1)) as [[[s_star p_star] q1']|] eqn:Hex.
  2:{ exists res, visited. repeat split; try assumption; apply HP. }
  assert (Hin : In (s_star, p_star) (entries q1)).
  { apply (extract_by_In _ _ _ _ Hex). left. reflexivity. }
  destruct (Hq1 _ Hin) as [Hnode Hnv]. simpl in Hnode, Hnv.
  apply visited_contains_not_In in Hnv as Hnvb. rewrite Hnvb.
  destruct (fold_left (expand_neighbor db query (visited ++ [p_star]))
              (out_edges G p_star)
              (res, unvisited_of (visited ++ [p_star]) res))
    as [res' q2'] eqn:Hfold.
  destruct (expand_neighbors_inv (visited ++ [p_star])
              (out_edges G p_star)
              (fun e He => out_edges_all_targets G p_star e He)
              _ _ _ _ Hfold HP Hids) as (HP' & Hids' & Hq2).
  destruct (IH res' q2' (visited ++ [p_star]))
    as (res2 & visited2 & Hrun & HP2 & Hids2 & Hnd2 & Hincl2 & Htail).
  - exact HP'.
  - exact Hids'.
  - intros e He. apply Hq2 in He as [He|[Ht Hnv']].
    + apply unvisited_of_In in He as [He Hnv'].
      split; [|exact Hnv']. apply Hids. exact He.
    + split; [right; exact Ht|exact Hnv'].
  - apply NoDup_app. split; [exact Hnd|]. split.
    + intros x Hx Hx'. apply list_elem_of_In in Hx.
      apply list_elem_of_In in Hx'. destruct Hx' as [<-|[]].
      exact (Hnv Hx).
    + apply NoDup_singleton.
  - intros x Hx. apply in_app_iff in Hx as [Hx|[<-|[]]];
      [apply Hincl; exact Hx|exact Hnode].
  - rewrite length_app. unfold nodes_of_search in *. simpl in *. lia.
  - exists res2, visited2. split; [exact Hrun|].
    split; [exact HP2|]. split; [exact Hids2|]. split; [exact Hnd2|].
    split; [exact Hincl2|]. simpl.
    destruct (extract_min (entries q2')) as [[e ?]|].
    + destruct Htail as [tail ->]. exists (snd e :: tail).
      rewrite <- app_assoc. reflexivity.
    + rewrite Htail. exists []. reflexivity.
Qed.

End SearchLoopVisited.
Section GreedySearchResult.
Context {T U : Type} `{Scalar T} `{Scalar U}.

Lemma insert_first_In (L : nat) (d : Q) (source : nat) (e : edge) :
  In e (entries (snd (heap_insert false (empty_heap L) d source))) ->
  e = (d, source).
Proof.
  intros He. apply heap_insert_In in He as [[]|He]. exact He.
Qed.

(** What a search that returns stands on: the entries [found] that were
    copied out of the result list, and the nodes visited. *)
Lemma greedy_search_found (G : adj_list) (db : ColMajorMatrix T)
    (source : nat) (query : list U) (k_nn L : nat) (scores : list Q)
    (ids visited : list nat) :
  greedy_search G db source query k_nn L = inr (scores, ids, visited) ->
  exists found,
    scores = map fst found ++ replicate (k_nn - length found) 0%Q /\
    ids = map snd found ++ replicate (k_nn - length found) 0 /\
    length found <= k_nn /\
    ascending found /\
    NoDup (targets found) /\
    scored_by db query found /\
    ids_known G source found /\
    NoDup visited /\
    incl visited (nodes_of_search G source) /\
    (1 <= L -> exists tail, visited = source :: tail).
Proof.
  unfold_greedy_search. destruct (L <? k_nn); [discriminate|].
  set (d := sum_of_squares (col db source) query).
  set (res0 := snd (heap_insert false (empty_heap L) d source)).
  destruct (search_loop_visited G db query source (search_fuel G)
              res0 res0 [])
    as (res' & visited' & Hrun & [Hnd Hsc] & Hids & Hndv & Hincl & Htail).
  - split.
    + unfold res0, heap_insert. simpl. destruct (0 <? L); simpl;
        repeat constructor. intros Hin. apply elem_of_nil in Hin. exact Hin.
    + intros e He. apply insert_first_In in He. subst e. reflexivity.
  - intros e He. apply insert_first_In in He. subst e. left. reflexivity.
  - intros e He. apply insert_first_In in He. subst e.
    split; [left; reflexivity|intros []].
  - constructor.
  - intros x [].
  - unfold nodes_of_search, search_fuel. simpl.
    rewrite all_targets_length. lia.
  - rewrite Hrun. cbn [mbind result_bind mret result_ret].
    unfold get_top_k_with_scores_from_heap.
    intros [= <- <- <-].
    set (found := take k_nn (sort_heap (entries res'))).
    assert (Hsub : forall e, In e found -> In e (entries res')).
    { intros e He. apply sort_heap_In. apply list_elem_of_In.
      apply list_elem_of_In in He. exact (subseteq_take _ _ e He). }
    exists found. split; [reflexivity|]. split; [reflexivity|].
    split; [unfold found; rewrite length_take; lia|].
    split; [apply ascending_take; apply sort_heap_ascending|].
    split.
    { unfold found, targets.
      change (map snd (take k_nn (sort_heap (entries res'))))
        with (snd <$> take k_nn (sort_heap (entries res'))).
      rewrite fmap_take.
      apply (sublist_NoDup _ (snd <$> sort_heap (entries res')));
        [|apply sublist_take].
      change (NoDup (map snd (sort_heap (entries res')))).
      rewrite (Permutation_map snd (sort_heap_Permutation (entries res'))).
      exact Hnd. }
    split; [intros e He; apply Hsc; apply Hsub; exact He|].
    split; [intros e He; apply Hids; apply Hsub; exact He|].
    split; [exact Hndv|]. split; [exact Hincl|].
    intros HL. unfold res0 in Htail. unfold heap_insert in Htail.
    simpl in Htail. apply Nat.ltb_lt in HL. rewrite HL in Htail.
    simpl in Htail. exact Htail.
Qed.

Lemma greedy_search_succeeds (G : adj_list) (db : ColMajorMatrix T)
    (source : nat) (query : list U) (k_nn L : nat) :
  k_nn <= L ->
  exists scores ids visited,
    greedy_search G db source query k_nn L = inr (scores, ids, visited).
Proof.
  intros HkL. unfold_greedy_search.
  apply Nat.ltb_ge in HkL. rewrite HkL.
  set (d := sum_of_squares (col db source) query).
  set (res0 := snd (heap_insert false (empty_heap L) d source)).
  destruct (search_loop_visited G db query source (search_fuel G)
              res0 res0 [])
    as (res' & visited' & Hrun & _).
  - split.
    + unfold res0, heap_insert. simpl. destruct (0 <? L); simpl;
        repeat constructor. intros Hin. apply elem_of_nil in Hin. exact Hin.
    + intros e He. apply insert_first_In in He. subst e. reflexivity.
  - intros e He. apply insert_first_In in He. subst e. left. reflexivity.
  - intros e He. apply insert_first_In in He. subst e.
    split; [left; reflexivity|intros []].
  - constructor.
  - intros x [].
  - unfold nodes_of_search, search_fuel. simpl.
    rewrite all_targets_length. lia.
  - rewrite Hrun. cbn [mbind result_bind mret result_ret].
    destruct (get_top_k_with_scores_from_heap res' k_nn) as [s i].
    exists s, i, visited'. reflexivity.
Qed.

(** The scores [greedy_search] reports are the distances of the ids it
    reports to the query, in ascending order; when the search found fewer
    than [k] nodes the remaining places hold the id 0 with the score 0. *)
Theorem greedy_search_reports_distances (G : adj_list)
    (db : ColMajorMatrix T) (source : nat) (query : list U) (k_nn L : nat)
    (scores : list Q) (ids visited : list nat) :
  greedy_search G db source query k_nn L = inr (scores, ids, visited) ->
  exists found,
    scores = map fst found ++ replicate (k_nn - length found) 0%Q /\
    ids = map snd found ++ replicate (k_nn - length found) 0 /\
    length found <= k_nn /\
    ascending found /\
    forall e, In e found -> fst e = sum_of_squares (col db (snd e)) query.
Proof.
  intros Hrun. apply greedy_search_found in Hrun
    as (found & Hs & Hi & Hlen & Hasc & _ & Hsc & _).
  exists found. repeat split; assumption.
Qed.

(** The nodes [greedy_search] reports are distinct, and each is the source
    or the target of an edge of the graph. *)
Theorem greedy_search_reports_distinct_nodes (G : adj_list)
    (db : ColMajorMatrix T) (source : nat) (query : list U) (k_nn L : nat)
    (scores : list Q) (ids visited : list nat) :
  greedy_search G db source query k_nn L = inr (scores, ids, visited) ->
  exists n,
    n <= k_nn /\
    ids = take n ids ++ replicate (k_nn - n) 0 /\
    NoDup (take n ids) /\
    forall id, In id (take n ids) ->
      id = source \/ exists p e, In e (out_edges G p) /\ snd e = id.
Proof.
  intros Hrun. apply greedy_search_found in Hrun
    as (found & _ & Hi & Hlen & _ & Hnd & _ & Hids & _).
  assert (Htake : take (length found) ids = targets found).
  { rewrite Hi. unfold targets.
    rewrite take_app_length' by (rewrite length_map; reflexivity).
    reflexivity. }
  exists (length found). split; [exact Hlen|]. rewrite Htake.
  split; [exact Hi|]. split; [exact Hnd|].
  intros id Hid. unfold targets in Hid.
  apply in_map_iff in Hid as (e & <- & He).
  destruct (Hids e He) as [Hs|Ht]; [left; symmetry; exact Hs|].
  right. apply all_targets_out_edges. exact Ht.
Qed.

(** The nodes [greedy_search] visits are distinct, the search starts at the
    source, and every visited node is the source or the target of an edge of
    the graph. *)
Theorem greedy_search_visits_distinct_nodes (G : adj_list)
    (db : ColMajorMatrix T) (source : nat) (query : list U) (k_nn L : nat)
    (scores : list Q) (ids visited : list nat) :
  1 <= L ->
  greedy_search G db source query k_nn L = inr (scores, ids, visited) ->
  NoDup visited /\
  visited !! 0 = Some source /\
  forall v, In v visited ->
    v = source \/ exists p e, In e (out_edges G p) /\ snd e = v.
Proof.
  intros HL Hrun. apply greedy_search_found in Hrun
    as (found & _ & _ & _ & _ & _ & _ & _ & Hnd & Hincl & Hhd).
  split; [exact Hnd|]. destruct (Hhd HL) as [tail ->].
  split; [reflexivity|].
  intros v Hv. destruct (Hincl v Hv) as [Hs|Ht];
    [left; symmetry; exact Hs|].
  right. apply all_targets_out_edges. exact Ht.
Qed.

(** A search from a source without out-edges visits the source only and
    reports it alone; the other [k - 1] places hold the id 0 with the
    score 0. *)
Theorem greedy_search_isolated_source (G : adj_list)
    (db : ColMajorMatrix T) (source : nat) (query : list U)
    (k_nn L : nat) :
  out_edges G source = [] ->
  1 <= k_nn -> k_nn <= L ->
  greedy_search G db source query k_nn L
  = inr (sum_of_squares (col db source) query :: replicate (k_nn - 1) 0%Q,
         source :: replicate (k_nn - 1) 0,
         [source]).
Proof.
  intros Hout Hk HkL. unfold_greedy_search.
  apply Nat.ltb_ge in HkL as Hb. rewrite Hb.
  set (d := sum_of_squares (col db source) query).
  assert (Hins : snd (heap_insert false (empty_heap L) d source)
                 = mkHeap L [(d, source)]).
  { unfold heap_insert. simpl.
    assert (HL : (0 <? L) = true) by (apply Nat.ltb_lt; lia).
    rewrite HL. reflexivity. }
  rewrite Hins. unfold search_fuel.
  cbn [Nat.add search_loop entries extract_min extract_by
       visited_contains existsb app].
  rewrite Hout. unfold unvisited_of.
  cbn [entries fold_left snd fst visited_contains existsb capacity].
  rewrite Nat.eqb_refl. cbn [orb fold_left entries empty_heap].
  unfold extract_min. cbn [extract_by].
  cbn [mbind result_bind mret result_ret].
  unfold get_top_k_with_scores_from_heap, sort_heap.
  cbn [entries fold_left insert_sorted].
  destruct k_nn as [|k]; [lia|].
  cbn [take map fst snd length app]. rewrite take_nil.
  cbn [map length app Nat.sub]. rewrite !Nat.sub_0_r. reflexivity.
Qed.

(** The two vectors that the search hands back have [k] entries; when the
    heap holds [L] entries at most, the entries from [L] on are the zeros
    that the vectors were created with. *)
Lemma get_top_k_padded (h : k_min_heap) (k L : nat) :
  length (entries h) <= L ->
  length (fst (get_top_k_with_scores_from_heap h k)) = k /\
  length (snd (get_top_k_with_scores_from_heap h k)) = k /\
  forall i, L <= i -> i < k ->
    fst (get_top_k_with_scores_from_heap h k) !! i = Some 0%Q /\
    snd (get_top_k_with_scores_from_heap h k) !! i = Some 0.
Proof.
  intros Hlen. unfold get_top_k_with_scores_from_heap. cbv zeta.
  cbn [fst snd].
  set (s := take k (sort_heap (entries h))).
  assert (Hs : length s <= k /\ length s <= L).
  { unfold s.
    rewrite length_take, (Permutation_length (sort_heap_Permutation _)).
    lia. }
  rewrite !length_app, !length_map, !length_replicate.
  split; [lia|]. split; [lia|]. intros i HL Hk.
  rewrite !lookup_app_r by (rewrite length_map; lia).
  rewrite !length_map. split; apply lookup_replicate_2; lia.
Qed.

(** Behind its assertion [greedy_search] returns for every [k] and [L]. *)
Lemma greedy_search_in_returns (b : build) (G : adj_list)
    (db : ColMajorMatrix T) (source : nat) (query : list U) (k_nn L : nat) :
  checks b && (L <? k_nn) = false ->
  exists scores ids visited,
    greedy_search_in b G db source query k_nn L
    = inr (scores, ids, visited) /\
    length scores = k_nn /\ length ids = k_nn /\
    forall i, L <= i -> i < k_nn ->
      scores !! i = Some 0%Q /\ ids !! i = Some 0.
Proof.
  intros Hb. unfold greedy_search_in. rewrite Hb.
  set (d := sum_of_squares (col db source) query).
  set (res0 := snd (heap_insert false (empty_heap L) d source)).
  destruct (search_loop_spec G db query source
              (fun res => capacity res = L /\ length (entries res) <= L)
              (fun res p HP _ =>
                 conj (eq_trans (heap_insert_capacity true res _ p)
                         (proj1 HP))
                      (eq_ind (capacity res)
                         (fun c => length (entries (snd (heap_insert true res
                                      (sum_of_squares (col db p) query) p)))
                                   <= c)
                         (heap_insert_length true res _ p
                            (eq_ind_r (fun c => length (entries res) <= c)
                               (proj2 HP) (proj1 HP)))
                         L (proj1 HP)))
              (search_fuel G) res0 res0 [])
    as (res' & visited' & Hrun & Hcap & Hlen).
  - unfold res0. split; [apply heap_insert_capacity|].
    pose proof (heap_insert_length false (empty_heap L) d source) as Hl.
    cbn [empty_heap entries capacity length] in Hl. apply Hl. lia.
  - intros e He. apply heap_insert_In in He as [[]| ->]. left. reflexivity.
  - intros e He. apply heap_insert_In in He as [[]| ->].
    split; [left; reflexivity|intros []].
  - constructor.
  - intros x [].
  - unfold nodes_of_search, search_fuel. simpl.
    rewrite all_targets_length. lia.
  - rewrite Hrun. cbn [mbind result_bind].
    destruct (get_top_k_padded res' k_nn L Hlen) as (Hl1 & Hl2 & Hpad).
    destruct (get_top_k_with_scores_from_heap res' k_nn) as [scores ids].
    cbn [fst snd] in *. exists scores, ids, visited'.
    split; [reflexivity|]. split; [exact Hl1|]. split; [exact Hl2|exact Hpad].
Qed.

(** C9. Calling [greedy_search] with a search-list size [L] below the result
    size [k] fails the assertion [L >= k_nn] before anything is searched in
    a build that checks assertions.  In a build with [NDEBUG] nothing guards
    the call: with a search list of one entry or more it returns [k] scores
    and [k] ids, zero from row [L] on. *)
Theorem greedy_search_below_k_fails_only_when_checked (G : adj_list)
    (db : ColMajorMatrix T) (source : nat) (query : list U) (k_nn L : nat) :
  L < k_nn ->
  greedy_search_in Checked G db source query k_nn L
  = inl (AssertionFailed "L >= k_nn") /\
  (1 <= L ->
   exists scores ids visited,
     greedy_search_in NDEBUG G db source query k_nn L
     = inr (scores, ids, visited) /\
     length scores = k_nn /\ length ids = k_nn /\
     forall i, L <= i -> i < k_nn ->
       scores !! i = Some 0%Q /\ ids !! i = Some 0).
Proof.
  intros Hlt. split.
  - unfold greedy_search_in. apply Nat.ltb_lt in Hlt. rewrite Hlt.
    reflexivity.
  - intros _. apply greedy_search_in_returns. reflexivity.
Qed.

End GreedySearchResult.

Section QueryProofs.
Context {T U : Type} `{Scalar T} `{Scalar U}.

Lemma query_column_spec (idx : vamana_index T)
    (query_set : ColMajorMatrix U) (k L : nat) (st st1 : query_state)
    (i : nat) :
  query_column idx query_set k L st i = inr st1 ->
  exists tk_scores tk V,
    greedy_search (graph_ idx) (feature_vectors_ idx) (medioid_ idx)
      (col query_set i) k L = inr (tk_scores, tk, V) /\
    columns (top_k_scores st1) = <[i := tk_scores]> (columns (top_k_scores st))
    /\ columns (top_k st1) = <[i := tk]> (columns (top_k st)) /\
    num_visited_vertices_ st1 = num_visited_vertices_ st + length V.
Proof.
  unfold_query_column.
  destruct (greedy_search (graph_ idx) (feature_vectors_ idx) (medioid_ idx)
              (col query_set i) k L) as [e|[[tk_scores tk] V]];
    cbn [mbind result_bind mret result_ret]; [discriminate|].
  intros [= <-]. exists tk_scores, tk, V. repeat split; reflexivity.
Qed.

Lemma query_loop_spec (idx : vamana_index T) (query_set : ColMajorMatrix U)
    (k L : nat) (l : list nat) :
  forall (st st' : query_state),
  fold_result (query_column idx query_set k L) l st = inr st' ->
  NoDup l ->
  (forall i, In i l -> i < length (columns (top_k_scores st)) /\
                       i < length (columns (top_k st))) ->
  length (columns (top_k_scores st')) = length (columns (top_k_scores st)) /\
  length (columns (top_k st')) = length (columns (top_k st)) /\
  (forall i, ~ In i l ->
     col (top_k_scores st') i = col (top_k_scores st) i /\
     col (top_k st') i = col (top_k st) i) /\
  (forall i, In i l ->
     exists V,
       greedy_search (graph_ idx) (feature_vectors_ idx) (medioid_ idx)
         (col query_set i) k L
       = inr (col (top_k_scores st') i, col (top_k st') i, V)) /\
  (1 <= L ->
   num_visited_vertices_ st + length l <= num_visited_vertices_ st').
Proof.
  induction l as [|i l IH]; intros st st'; simpl.
  { intros [= <-] _ _. split; [reflexivity|]. split; [reflexivity|].
    split; [intros; split; reflexivity|]. split; [intros i []|].
    intros _. lia. }
  destruct (query_column idx query_set k L st i) as [e|st1] eqn:Hcol;
    cbn [mbind result_bind]; [discriminate|].
  intros Hrun Hnd Hlt. apply NoDup_cons in Hnd as [Hnotin Hnd].
  apply query_column_spec in Hcol
    as (tk_scores & tk & V & Hgs & Hsc & Htk & Hvis).
  destruct (Hlt i (or_introl eq_refl)) as [Hi1 Hi2].
  destruct (IH st1 st' Hrun Hnd) as (Hl1 & Hl2 & Hframe & Hcols & Hcount).
  { intros j Hj. rewrite Hsc, Htk, !length_insert. apply Hlt. right.
    exact Hj. }
  rewrite Hsc, length_insert in Hl1. rewrite Htk, length_insert in Hl2.
  split; [exact Hl1|]. split; [exact Hl2|]. split.
  { intros j Hj. destruct (Hframe j) as [Hf1 Hf2];
      [intros Hin; apply Hj; right; exact Hin|].
    rewrite Hf1, Hf2. unfold col. rewrite Hsc, Htk.
    rewrite !list_lookup_insert_ne by (intros ->; apply Hj; left; reflexivity).
    split; reflexivity. }
  split.
  { intros j [<-|Hj]; [|apply Hcols; exact Hj].
    destruct (Hframe i) as [Hf1 Hf2].
    { intros Hin. apply Hnotin. apply list_elem_of_In. exact Hin. }
    exists V. rewrite Hf1, Hf2. unfold col. rewrite Hsc, Htk.
    rewrite !list_lookup_insert_eq by assumption. exact Hgs. }
  intros HL. specialize (Hcount HL). rewrite Hvis in Hcount.
  apply greedy_search_found in Hgs
    as (found & _ & _ & _ & _ & _ & _ & _ & _ & _ & Hhd).
  destruct (Hhd HL) as [tail ->]. simpl in *. lia.
Qed.

Lemma query_loop_returns (idx : vamana_index T)
    (query_set : ColMajorMatrix U) (k L : nat) (l : list nat) :
  k <= L ->
  forall st, exists st',
    fold_result (query_column idx query_set k L) l st = inr st'.
Proof.
  intros HkL. induction l as [|i l IH]; intros st; cbn [fold_result];
    [eexists; reflexivity|].
  assert (Hc : exists st1, query_column idx query_set k L st i = inr st1).
  { unfold_query_column.
    destruct (greedy_search_succeeds (graph_ idx) (feature_vectors_ idx)
                (medioid_ idx) (col query_set i) k L HkL)
      as (s & t & V & ->).
    eexists. reflexivity. }
  destruct Hc as [st1 ->]. cbn [mbind result_bind]. apply IH.
Qed.

(** A query over a set of vectors answers each of them as the query of the
    single vector does: column [i] of the two matrices it returns holds the
    scores and the ids of [query(query_set[i], k, opt_L)]. *)
Theorem query_columns_are_single_queries (idx : vamana_index T)
    (visited : nat) (query_set : ColMajorMatrix U) (k : nat)
    (opt_L : option nat) (st : query_state) :
  query idx visited query_set k opt_L = inr st ->
  num_vectors (top_k_scores st) = num_vectors query_set /\
  num_vectors (top_k st) = num_vectors query_set /\
  forall i, i < num_vectors query_set ->
    query_vector idx (col query_set i) k opt_L
    = inr (col (top_k_scores st) i, col (top_k st) i).
Proof.
  unfold_query. intros Hrun.
  apply query_loop_spec in Hrun as (Hl1 & Hl2 & _ & Hcols & _).
  - cbn [top_k_scores top_k columns] in Hl1, Hl2.
    rewrite length_replicate in Hl1. rewrite length_replicate in Hl2.
    split; [exact Hl1|]. split; [exact Hl2|].
    intros i Hi. unfold query_vector, query_vector_in; fold_greedy_search.
    destruct (Hcols i) as [V ->]; [apply in_seq; lia|]. reflexivity.
  - apply NoDup_ListNoDup. apply seq_NoDup.
  - intros i Hi. apply in_seq in Hi. simpl. rewrite !length_replicate. lia.
Qed.

Lemma query_loop_returns_NDEBUG (idx : vamana_index T)
    (query_set : ColMajorMatrix U) (k L : nat) (l : list nat) :
  forall st, exists st',
    fold_result (query_column_in NDEBUG idx query_set k L) l st = inr st'.
Proof.
  induction l as [|i l IH]; intros st; cbn [fold_result];
    [eexists; reflexivity|].
  assert (Hc : exists st1,
            query_column_in NDEBUG idx query_set k L st i = inr st1).
  { unfold query_column_in.
    destruct (greedy_search_in_returns NDEBUG (graph_ idx)
                (feature_vectors_ idx) (medioid_ idx) (col query_set i) k L
                eq_refl)
      as (sc & ids & V & -> & _).
    eexists. reflexivity. }
  destruct Hc as [st1 ->]. cbn [mbind result_bind]. apply IH.
Qed.

(** With a search-list size below [k] (the one passed, or [L_build_] when
    none is passed) the query of a set fails, in a build that checks
    assertions, on the assertion of [greedy_search] as soon as the set holds
    a vector, and returns two empty matrices for an empty set; in a build
    with [NDEBUG] and a search list of one entry or more it returns for
    every set. *)
Theorem query_below_k_fails_only_when_checked (idx : vamana_index T)
    (visited : nat) (query_set : ColMajorMatrix U) (k : nat)
    (opt_L : option nat) :
  default (L_build_ idx) opt_L < k ->
  query_in Checked idx visited query_set k opt_L
  = (if num_vectors query_set =? 0
     then inr (mkQueryState (mkMatrix k []) (mkMatrix k []) visited)
     else inl (AssertionFailed "L >= k_nn")) /\
  (1 <= default (L_build_ idx) opt_L ->
   exists st, query_in NDEBUG idx visited query_set k opt_L = inr st).
Proof.
  intros HL. split.
  - unfold query_in.
    destruct (num_vectors query_set) as [|n]; [reflexivity|].
    cbn [seq fold_result Nat.eqb].
    assert (Hc : forall st,
      query_column_in Checked idx query_set k (default (L_build_ idx) opt_L)
        st 0
      = inl (AssertionFailed "L >= k_nn")).
    { intros st. unfold query_column_in, greedy_search_in.
      apply Nat.ltb_lt in HL. rewrite HL. reflexivity. }
    rewrite Hc. reflexivity.
  - intros _. unfold query_in. apply query_loop_returns_NDEBUG.
Qed.

(** With [1 <= L] and [k <= L] the query of a set returns, and the counter
    of visited vertices grows by at least one for every query vector. *)
Theorem query_returns_and_counts_visited (idx : vamana_index T)
    (visited : nat) (query_set : ColMajorMatrix U) (k : nat)
    (opt_L : option nat) :
  1 <= default (L_build_ idx) opt_L ->
  k <= default (L_build_ idx) opt_L ->
  exists st,
    query idx visited query_set k opt_L = inr st /\
    visited + num_vectors query_set <= num_visited_vertices_ st.
Proof.
  intros HL HkL. unfold_query.
  destruct (query_loop_returns idx query_set k
              (default (L_build_ idx) opt_L)
              (seq 0 (num_vectors query_set)) HkL
              (mkQueryState
                 (mkMatrix k (replicate (num_vectors query_set)
                                (replicate k 0%Q)))
                 (mkMatrix k (replicate (num_vectors query_set)
                                (replicate k 0))) visited))
    as [st Hrun].
  exists st. split; [exact Hrun|].
  apply query_loop_spec in Hrun as (_ & _ & _ & _ & Hcount).
  - specialize (Hcount HL). simpl in Hcount. rewrite length_seq in Hcount.
    exact Hcount.
  - apply NoDup_ListNoDup. apply seq_NoDup.
  - intros i Hi. apply in_seq in Hi. simpl. rewrite !length_replicate. lia.
Qed.

End QueryProofs.

(** ** The medoid and the graph that train builds *)

Lemma small_score_below_FLT_MAX : (inject_Z (2 ^ 24) < FLT_MAX)%Q.
Proof. unfold FLT_MAX, Qlt. vm_compute. reflexivity. Qed.

Section MedioidProofs.
Context {T : Type} `{Scalar T}.

Lemma medioid_scan (P : ColMajorMatrix T) (n : nat) :
  n <= num_vectors P ->
  let score := fun j => sum_of_squares (col P j) (medioid_centroid P) in
  let '(med, min_score, i) :=
    fold_left (fun (st : nat * Q * nat) (p : list T) =>
        let '(med, min_score, i) := st in
        let score := sum_of_squares p (medioid_centroid P) in
        if Qltb score min_score then (i, score, S i)
        else (med, min_score, S i))
      (take n (columns P)) (0, FLT_MAX, 0) in
  i = n /\
  ((med < n /\ min_score = score med /\ (min_score < FLT_MAX)%Q /\
    (forall j, j < n -> (min_score <= score j)%Q) /\
    (forall j, j < med -> (min_score < score j)%Q))
   \/
   (med = 0 /\ min_score = FLT_MAX /\
    forall j, j < n -> (FLT_MAX <= score j)%Q)).
Proof.
  induction n as [|n IH]; intros Hn score.
  { simpl. split; [reflexivity|]. right. split; [reflexivity|].
    split; [reflexivity|]. intros j Hj. lia. }
  destruct (lookup_lt_is_Some_2 (columns P) n) as [x Hx];
    [unfold num_vectors in Hn; lia|].
  rewrite (take_S_r _ _ _ Hx), fold_left_app.
  specialize (IH ltac:(lia)). cbv zeta in IH.
  destruct (fold_left _ (take n (columns P)) (0, FLT_MAX, 0))
    as [[med min_score] i].
  destruct IH as [-> IH]. cbn [fold_left].
  assert (Hsx : sum_of_squares x (medioid_centroid P) = score n).
  { unfold score, col. rewrite Hx. reflexivity. }
  rewrite Hsx. fold score in IH.
  destruct (Qltb (score n) min_score) eqn:Hcmp.
  - apply Qltb_lt in Hcmp. split; [reflexivity|]. left.
    split; [lia|]. split; [reflexivity|].
    destruct IH as [(Hmed & Hm & Hmax & Hle & Hlt)|(Hmed & Hm & Hge)].
    + split; [eapply Qlt_trans; [exact Hcmp|exact Hmax]|]. split.
      * intros j Hj. destruct (decide (j = n)) as [->|Hne];
          [apply Qle_refl|].
        specialize (Hle j ltac:(lia)).
        apply Qlt_le_weak. eapply Qlt_le_trans; [exact Hcmp|exact Hle].
      * intros j Hj. specialize (Hle j ltac:(lia)).
        eapply Qlt_le_trans; [exact Hcmp|exact Hle].
    + rewrite Hm in Hcmp. split; [exact Hcmp|]. split.
      * intros j Hj. destruct (decide (j = n)) as [->|Hne];
          [apply Qle_refl|].
        apply Qlt_le_weak. eapply Qlt_le_trans; [exact Hcmp|].
        apply Hge. lia.
      * intros j Hj. eapply Qlt_le_trans; [exact Hcmp|]. apply Hge. exact Hj.
  - apply Qltb_ge in Hcmp. split; [reflexivity|].
    destruct IH as [(Hmed & Hm & Hmax & Hle & Hlt)|(Hmed & Hm & Hge)].
    + left. split; [lia|]. split; [exact Hm|]. split; [exact Hmax|].
      split; [|exact Hlt].
      intros j Hj. destruct (decide (j = n)) as [->|Hne]; [exact Hcmp|].
      apply Hle. lia.
    + right. split; [exact Hmed|]. split; [exact Hm|].
      intros j Hj. destruct (decide (j = n)) as [->|Hne].
      * rewrite <- Hm. exact Hcmp.
      * apply Hge. lia.
Qed.

(** The index that [medioid] returns: the first of the vectors with the
    least score when that score is below [FLT_MAX], and 0 when no score
    is. *)
Lemma medioid_spec (P : ColMajorMatrix T) :
  0 < num_vectors P ->
  let score := fun j => sum_of_squares (col P j) (medioid_centroid P) in
  medioid P < num_vectors P /\
  (((score (medioid P) < FLT_MAX)%Q /\
    (forall j, j < num_vectors P -> (score (medioid P) <= score j)%Q) /\
    (forall j, j < medioid P -> (score (medioid P) < score j)%Q))
   \/
   (medioid P = 0 /\
    forall j, j < num_vectors P -> (FLT_MAX <= score j)%Q)).
Proof.
  intros Hn score.
  pose proof (medioid_scan P (num_vectors P) (le_n _)) as Hscan.
  cbv zeta in Hscan. unfold num_vectors in Hscan at 1.
  rewrite firstn_all in Hscan.
  unfold medioid. fold (medioid_centroid P).
  destruct (fold_left _ (columns P) (0, FLT_MAX, 0))
    as [[med min_score] i].
  cbn [fst]. destruct Hscan as [_ Hscan].
  destruct Hscan as [(Hmed & Hm & Hmax & Hle & Hlt)|(Hmed & Hm & Hge)].
  - subst min_score. split; [exact Hmed|]. left.
    split; [exact Hmax|]. split; [exact Hle|exact Hlt].
  - subst med. split; [exact Hn|]. right. split; [reflexivity|exact Hge].
Qed.

(** [medioid] returns the index of a vector of [P] that is nearest to the
    centroid of [P], and of several nearest vectors the first, on the
    training sets whose centroid and scores a [float] computes without
    rounding. *)
Theorem medioid_nearest_to_centroid (P : ColMajorMatrix T) :
  0 < num_vectors P ->
  exact_medioid P ->
  medioid P < num_vectors P /\
  (forall j, j < num_vectors P ->
     (sum_of_squares (col P (medioid P)) (medioid_centroid P)
      <= sum_of_squares (col P j) (medioid_centroid P))%Q) /\
  (forall j, j < medioid P ->
     (sum_of_squares (col P (medioid P)) (medioid_centroid P)
      < sum_of_squares (col P j) (medioid_centroid P))%Q).
Proof.
  intros Hn (_ & _ & _ & Hsmall).
  destruct (medioid_spec P Hn) as [Hmed [(_ & Hle & Hlt)|(_ & Hge)]].
  - split; [exact Hmed|]. split; [exact Hle|exact Hlt].
  - exfalso. specialize (Hge 0 Hn). specialize (Hsmall 0 Hn).
    pose proof small_score_below_FLT_MAX as Hlim.
    apply (Qlt_irrefl FLT_MAX).
    eapply Qle_lt_trans; [exact Hge|].
    eapply Qle_lt_trans; [exact Hsmall|exact Hlim].
Qed.

End MedioidProofs.
Lemma fold_result_returns {A B : Type} (P : A -> Prop)
    (f : A -> B -> result A) (l : list B) :
  (forall a x, P a -> In x l -> exists a', f a x = inr a' /\ P a') ->
  forall a, P a -> exists a', fold_result f l a = inr a' /\ P a'.
Proof.
  induction l as [|x l IH]; intros Hf a Ha; simpl.
  - exists a. split; [reflexivity|exact Ha].
  - destruct (Hf a x Ha (or_introl eq_refl)) as (a1 & -> & Ha1).
    cbn [mbind result_bind]. apply IH; [|exact Ha1].
    intros a2 y Ha2 Hy. apply Hf; [exact Ha2|right; exact Hy].
Qed.

Lemma out_edges_empty_adj_list (n p : nat) :
  out_edges (empty_adj_list n) p = [].
Proof.
  unfold out_edges, empty_adj_list.
  destruct (replicate n [] !! p) as [l|] eqn:Hl; [|reflexivity].
  apply lookup_replicate in Hl as [-> _]. reflexivity.
Qed.

Section BuildInvariant.
Context {T : Type} `{Scalar T}.
Variable map_order : list (nat * Q) -> list (nat * Q).
Hypothesis map_order_perm : forall l, Permutation (map_order l) l.
Variables (db : ColMajorMatrix T) (n R : nat).
Hypothesis R_pos : 1 <= R.

Lemma build_inv_empty : build_inv db n R (empty_adj_list n).
Proof.
  split; [apply length_replicate|]. intros p.
  unfold out_degree. rewrite out_edges_empty_adj_list. simpl.
  split; [lia|intros e []].
Qed.

Lemma build_inv_nonneg (G : adj_list) (p : nat) (e : edge) :
  build_inv db n R G -> In e (out_edges G p) -> (0 <= fst e)%Q.
Proof.
  intros [_ Hinv] He. destruct (Hinv p) as [_ Hp].
  destruct (Hp e He) as (_ & _ & ->). apply sum_of_squares_nonneg.
Qed.

Lemma robust_prune_build_inv (G : adj_list) (p : nat) (V_in : list nat)
    (alpha : Q) :
  build_inv db n R G -> p < n ->
  (forall v, In v V_in -> v < n) ->
  exists G',
    robust_prune map_order G db p V_in alpha R = inr G' /\
    build_inv db n R G'.
Proof.
  intros Hinv Hp HV. pose proof Hinv as [Hnv Hnodes].
  destruct (robust_prune_spec map_order map_order_perm G db p V_in alpha R)
    as (G' & Hrun & Hnv' & Hfr & _ & _ & Hdeg).
  - rewrite Hnv. exact Hp.
  - exact R_pos.
  - intros e He. exact (build_inv_nonneg G p e Hinv He).
  - exists G'. split; [exact Hrun|]. split; [congruence|].
    intros p'. destruct (decide (p' = p)) as [->|Hne].
    + split; [exact Hdeg|]. intros e He.
      destruct (robust_prune_origin map_order map_order_perm G G' db p V_in
                  alpha R ltac:(lia) Hrun e He) as [Hself [[Hv Hsc]|Hold]].
      * split; [apply HV; exact Hv|]. split; [exact Hself|exact Hsc].
      * destruct (Hnodes p) as [_ Hp']. exact (Hp' e Hold).
    + unfold out_degree. rewrite (Hfr p' Hne). exact (Hnodes p').
Qed.

Lemma add_edge_build_inv (G : adj_list) (j p : nat) :
  build_inv db n R G -> j < n -> p < n -> p <> j ->
  out_degree G j < R ->
  build_inv db n R
    (add_edge G j p (sum_of_squares (col db p) (col db j))).
Proof.
  intros [Hnv Hnodes] Hj Hp Hne Hdeg.
  split; [rewrite num_vertices_add_edge; exact Hnv|].
  intros p'. destruct (decide (p' = j)) as [->|Hne'].
  - unfold out_degree.
    rewrite out_edges_add_edge_eq by (rewrite Hnv; exact Hj).
    rewrite length_app. simpl. split; [unfold out_degree in Hdeg; lia|].
    intros e He. apply in_app_iff in He as [He|[<-|[]]].
    + destruct (Hnodes j) as [_ Hj']. exact (Hj' e He).
    + simpl. split; [exact Hp|]. split; [exact Hne|reflexivity].
  - unfold out_degree. rewrite out_edges_add_edge_ne by congruence.
    exact (Hnodes p').
Qed.

Lemma post_search_prune_build_inv (G : adj_list) (p j : nat) (alpha : Q) :
  build_inv db n R G -> p < n -> j < n -> j <> p ->
  exists G',
    post_search_prune map_order db p alpha R G j = inr G' /\
    build_inv db n R G'.
Proof.
  intros Hinv Hp Hj Hne. unfold post_search_prune.
  destruct (R <? length (train_tmp G p j)) eqn:Hcmp.
  - apply robust_prune_build_inv; [exact Hinv|exact Hj|].
    intros v Hv. unfold train_tmp in Hv.
    apply in_app_iff in Hv as [Hv|[<-|Hv]].
    + apply list_elem_of_In in Hv. apply elem_of_replicate in Hv as [-> _].
      lia.
    + exact Hp.
    + unfold targets in Hv. apply in_map_iff in Hv as (e & <- & He).
      destruct Hinv as [_ Hnodes]. destruct (Hnodes j) as [_ Hj'].
      destruct (Hj' e He) as (Hlt & _). exact Hlt.
  - eexists. split; [reflexivity|]. apply Nat.ltb_ge in Hcmp.
    apply add_edge_build_inv; try assumption; [congruence|].
    unfold train_tmp in Hcmp. rewrite length_app, length_replicate in Hcmp.
    simpl in Hcmp. lia.
Qed.

Lemma train_node_build_inv (medoid L : nat) (alpha : Q) (G : adj_list)
    (p : nat) :
  1 <= L -> medoid < n -> p < n ->
  build_inv db n R G ->
  exists G',
    train_node map_order db medoid L R alpha G p = inr G' /\
    build_inv db n R G'.
Proof.
  intros HL Hmed Hp Hinv. unfold train_node.
  destruct (greedy_search_succeeds G db medoid (col db p) 1 L HL)
    as (scores & ids & visited & Hgs).
  rewrite Hgs. cbn [mbind result_bind].
  assert (Hvis : forall v, In v visited -> v < n).
  { apply greedy_search_found in Hgs
      as (found & _ & _ & _ & _ & _ & _ & _ & _ & Hincl & _).
    intros v Hv. destruct (Hincl v Hv) as [<-|Ht]; [exact Hmed|].
    apply all_targets_out_edges in Ht as (q & e & He & <-).
    destruct Hinv as [_ Hnodes]. destruct (Hnodes q) as [_ Hq].
    destruct (Hq e He) as (Hlt & _). exact Hlt. }
  destruct (robust_prune_build_inv G p visited alpha Hinv Hp Hvis)
    as (G1 & -> & Hinv1).
  cbn [mbind result_bind].
  apply (fold_result_returns (build_inv db n R)); [|exact Hinv1].
  intros G2 j Hinv2 Hj. apply post_search_prune_build_inv;
    [exact Hinv2|exact Hp| |].
  - unfold targets in Hj. apply in_map_iff in Hj as (e & <- & He).
    destruct Hinv1 as [_ Hnodes]. destruct (Hnodes p) as [_ Hp'].
    destruct (Hp' e He) as (Hlt & _). exact Hlt.
  - unfold targets in Hj. apply in_map_iff in Hj as (e & <- & He).
    destruct Hinv1 as [_ Hnodes]. destruct (Hnodes p) as [_ Hp'].
    destruct (Hp' e He) as (_ & Hself & _). exact Hself.
Qed.

End BuildInvariant.

Section TrainBuilds.
Context {T : Type} `{Scalar T}.
Variable map_order : list (nat * Q) -> list (nat * Q).
Hypothesis map_order_perm : forall l, Permutation (map_order l) l.

(** With [L >= 1] and [R >= 1] the build returns, for every training set,
    and the graph it leaves has one list per training vector, on every list
    at most [R] edges, and every edge leads to another node of the graph and
    stores the distance between its two ends. *)
Theorem train_builds_bounded_graph (idx0 : vamana_index T)
    (training_set : ColMajorMatrix T) :
  1 <= L_build_ idx0 -> 1 <= R_max_degree_ idx0 ->
  exists idx,
    train map_order idx0 training_set = inr idx /\
    num_vertices (graph_ idx) = num_vectors training_set /\
    forall p,
      out_degree (graph_ idx) p <= R_max_degree_ idx0 /\
      forall e, In e (out_edges (graph_ idx) p) ->
        snd e < num_vectors training_set /\
        snd e <> p /\
        fst e = sum_of_squares (col training_set (snd e))
                  (col training_set p).
Proof.
  intros HL HR. unfold train.
  set (n := num_vectors training_set).
  destruct (fold_result_returns
              (build_inv training_set n (R_max_degree_ idx0))
              (train_node map_order training_set (medioid training_set)
                 (L_build_ idx0) (R_max_degree_ idx0) (alpha_max_ idx0))
              (seq 0 n)) with (a := empty_adj_list n)
    as (G & Hrun & Hinv).
  - intros G p Hinv Hp. apply in_seq in Hp.
    apply train_node_build_inv; try assumption; [|lia].
    pose proof (medioid_spec training_set) as Hm. cbv zeta in Hm.
    destruct Hm as [Hm _]; [fold n; lia|exact Hm].
  - apply build_inv_empty; assumption.
  - cbn [fold_result]. rewrite Hrun. cbn [mbind result_bind mret result_ret].
    eexists. split; [reflexivity|]. cbn [graph_]. exact Hinv.
Qed.

End TrainBuilds.

(** ** Comparing, loading and the layout on disk *)

Section CompareProofs.
Context {T : Type} `{Scalar T}.

Lemma std_equal_refl (a : list T) : std_equal a a = true.
Proof.
  induction a as [|x a IH]; simpl; [reflexivity|].
  rewrite IH, andb_true_r. apply Qeq_bool_iff. reflexivity.
Qed.

Lemma std_equal_take (n : nat) (a : list T) : std_equal (take n a) a = true.
Proof.
  revert n. induction a as [|x a IH]; intros [|n]; simpl; try reflexivity.
  rewrite IH, andb_true_r. apply Qeq_bool_iff. reflexivity.
Qed.

Lemma compare_metadata_refl (idx : vamana_index T) :
  compare_metadata idx idx = true.
Proof.
  unfold compare_metadata. rewrite !Nat.eqb_refl.
  assert (Hq : forall q, Qeq_bool q q = true)
    by (intros q; apply Qeq_bool_iff; reflexivity).
  rewrite !Hq. reflexivity.
Qed.

Lemma compare_lists (f : edge * edge -> bool) (P : edge -> edge -> Prop)
    (G1 G2 : adj_list) :
  (forall a b, f (a, b) = true <-> P a b) ->
  num_vertices G1 = num_vertices G2 ->
  forallb (fun i =>
      (length (out_edges G1 i) =? length (out_edges G2 i)) &&
      forallb f (zip (out_edges G1 i) (out_edges G2 i)))
    (seq 0 (num_vertices G1)) = true <->
  Forall2 (Forall2 P) G1 G2.
Proof.
  intros Hf Hnv. rewrite forallb_forall.
  assert (Hlist : forall l r : list edge,
    (length l =? length r) && forallb f (zip l r) = true <-> Forall2 P l r).
  { intros l r. rewrite andb_true_iff, Nat.eqb_eq. split.
    - intros [Hlen Hall]. apply Forall2_same_length_lookup.
      split; [exact Hlen|]. intros i x y Hx Hy.
      apply Hf. rewrite forallb_forall in Hall. apply Hall.
      apply list_elem_of_In. apply (list_elem_of_lookup_2 _ i).
      apply lookup_zip_with_Some. exists x, y. tauto.
    - intros HF. split; [exact (Forall2_length _ _ _ HF)|].
      apply forallb_forall. intros [a b] Hab.
      apply list_elem_of_In in Hab. apply list_elem_of_lookup_1 in Hab as [i Hi].
      apply lookup_zip_with_Some in Hi as (x & y & Heq & Hx & Hy).
      injection Heq as -> ->. apply Hf.
      exact (Forall2_lookup_lr _ _ _ _ _ _ HF Hx Hy). }
  split.
  - intros Hall. apply Forall2_same_length_lookup. split; [exact Hnv|].
    intros i l r Hl Hr. apply Hlist.
    specialize (Hall i). unfold out_edges in Hall. rewrite Hl, Hr in Hall.
    apply Hall. apply in_seq. apply lookup_lt_Some in Hl.
    unfold num_vertices. lia.
  - intros HF i Hi. apply in_seq in Hi. apply Hlist.
    destruct (lookup_lt_is_Some_2 G1 i) as [l Hl];
      [unfold num_vertices in Hi; lia|].
    destruct (lookup_lt_is_Some_2 G2 i) as [r Hr];
      [unfold num_vertices in Hi, Hnv; lia|].
    unfold out_edges. rewrite Hl, Hr. simpl.
    exact (Forall2_lookup_lr _ _ _ _ _ _ HF Hl Hr).
Qed.

(** On two indexes whose graphs have the same number of nodes,
    [compare_adj_scores] and [compare_adj_ids] both answer true exactly when
    the two graphs have, node by node and place by place, the same ids and
    the same scores. *)
Theorem compare_adj_characterises_equal_graphs (lhs rhs : vamana_index T) :
  num_vertices (graph_ lhs) = num_vertices (graph_ rhs) ->
  (compare_adj_scores lhs rhs = true /\ compare_adj_ids lhs rhs = true) <->
  Forall2 (Forall2 same_edge) (graph_ lhs) (graph_ rhs).
Proof.
  intros Hnv. unfold compare_adj_scores, compare_adj_ids. cbv zeta.
  rewrite (compare_lists
             (fun ab : edge * edge => Qeq_bool (fst (fst ab)) (fst (snd ab)))
             (fun a b => (fst a == fst b)%Q) _ _
             (fun a b => Qeq_bool_iff (fst a) (fst b)) Hnv).
  rewrite (compare_lists
             (fun ab : edge * edge => snd (fst ab) =? snd (snd ab))
             (fun a b => snd a = snd b) _ _
             (fun a b => Nat.eqb_eq (snd a) (snd b)) Hnv).
  split.
  - intros [Hs Hi]. apply Forall2_same_length_lookup.
    split; [exact (Forall2_length _ _ _ Hs)|]. intros i l r Hl Hr.
    pose proof (Forall2_lookup_lr _ _ _ _ _ _ Hs Hl Hr) as Hs'.
    pose proof (Forall2_lookup_lr _ _ _ _ _ _ Hi Hl Hr) as Hi'.
    apply Forall2_same_length_lookup.
    split; [exact (Forall2_length _ _ _ Hs')|]. intros j a b Ha Hb.
    split.
    + exact (Forall2_lookup_lr _ _ _ _ _ _ Hs' Ha Hb).
    + exact (Forall2_lookup_lr _ _ _ _ _ _ Hi' Ha Hb).
  - intros HF. split.
    + eapply Forall2_impl; [exact HF|]. intros l r Hlr.
      eapply Forall2_impl; [exact Hlr|]. intros a b [Hab _]. exact Hab.
    + eapply Forall2_impl; [exact HF|]. intros l r Hlr.
      eapply Forall2_impl; [exact Hlr|]. intros a b [_ Hab]. exact Hab.
Qed.

Lemma compare_adj_refl (idx : vamana_index T) :
  compare_adj_scores idx idx = true /\ compare_adj_ids idx idx = true.
Proof.
  unfold compare_adj_scores, compare_adj_ids. cbv zeta. split.
  - apply (compare_lists _ (fun a b => (fst a == fst b)%Q) _ _
             (fun a b => Qeq_bool_iff (fst a) (fst b)) eq_refl).
    apply Forall2_same_length_lookup. split; [reflexivity|].
    intros i l r Hl Hr. assert (l = r) as -> by congruence.
    apply Forall2_same_length_lookup. split; [reflexivity|].
    intros j a b Ha Hb. assert (a = b) as -> by congruence. reflexivity.
  - apply (compare_lists _ (fun a b => snd a = snd b) _ _
             (fun a b => Nat.eqb_eq (snd a) (snd b)) eq_refl).
    apply Forall2_same_length_lookup. split; [reflexivity|].
    intros i l r Hl Hr. assert (l = r) as -> by congruence.
    apply Forall2_same_length_lookup. split; [reflexivity|].
    intros j a b Ha Hb. congruence.
Qed.

End CompareProofs.
Section WrittenIndexCompares.
Context {T : Type} `{Scalar T}.
Variable map_order : list (nat * Q) -> list (nat * Q).

(** The index that the loading constructor builds from what [write_index]
    wrote for a trained index passes the four comparisons with the index
    that was written, as the unit test of the round trip checks. *)
Theorem written_index_compares_equal (idx0 idx : vamana_index T)
    (training_set : ColMajorMatrix T) (vfs vfs' : gmap string (group T))
    (group_uri : string) (overwrite : bool) :
  train map_order idx0 training_set = inr idx ->
  (Z.of_nat (num_edges (graph_ idx)) < 2 ^ 32)%Z ->
  write_index idx vfs group_uri overwrite = (true, vfs') ->
  exists idx2,
    load_index vfs' group_uri = inr idx2 /\
    compare_metadata idx idx2 = true /\
    compare_feature_vectors idx idx2 = true /\
    compare_adj_scores idx idx2 = true /\
    compare_adj_ids idx idx2 = true.
Proof.
  intros Htrain Hfit Hw. exists idx.
  destruct (train_shape map_order idx0 idx training_set Htrain)
    as (Hfv & Hn & Hg).
  split.
  { apply load_written_index.
    - rewrite Hfv. exact Hn.
    - congruence.
    - exact Hfit.
    - unfold write_index in Hw.
      destruct (vfs !! group_uri) as [g|] eqn:Hlook.
      + destruct overwrite; [|discriminate].
        injection Hw as <-. apply lookup_insert_eq.
      + injection Hw as <-. apply lookup_insert_eq. }
  split; [apply compare_metadata_refl|].
  split; [apply std_equal_take|]. apply compare_adj_refl.
Qed.

End WrittenIndexCompares.

Section LoadErrors.
Context {T : Type}.

Lemma read_declared_u64 (g : group T) (name : string) :
  stored_as_declared g name -> stored_as_float name = false ->
  exists v, read_u64 g name = inr v.
Proof.
  unfold stored_as_declared, read_u64.
  destruct (group_metadata g !! name) as [[v|v]|]; intros Hst Hf;
    [eexists; reflexivity|congruence|contradiction].
Qed.

Lemma read_declared_f32 (g : group T) (name : string) :
  stored_as_declared g name -> stored_as_float name = true ->
  exists v, read_f32 g name = inr v.
Proof.
  unfold stored_as_declared, read_f32.
  destruct (group_metadata g !! name) as [[v|v]|]; intros Hst Hf;
    [congruence|eexists; reflexivity|contradiction].
Qed.

Lemma read_missing_u64 (g : group T) (name : string) :
  group_metadata g !! name = None ->
  read_u64 g name = inl (RuntimeError ("Missing metadata: " ++ name)).
Proof. unfold read_u64. intros ->. reflexivity. Qed.

Lemma read_missing_f32 (g : group T) (name : string) :
  group_metadata g !! name = None ->
  read_f32 g name = inl (RuntimeError ("Missing metadata: " ++ name)).
Proof. unfold read_f32. intros ->. reflexivity. Qed.

(** Loading a group that lacks an entry of the metadata table fails with
    [Missing metadata: ] and the name of the first entry that is missing,
    in the order of the table; the entries before it are stored with the
    datatypes the table declares. *)
Theorem load_index_missing_metadata (vfs : gmap string (group T))
    (group_uri : string) (g : group T) (fv : ColMajorMatrix T) (i : nat)
    (name : string) :
  vfs !! group_uri = Some g ->
  read_feature_vectors g = inr fv ->
  metadata_names !! i = Some name ->
  group_metadata g !! name = None ->
  (forall j before, j < i -> metadata_names !! j = Some before ->
     stored_as_declared g before) ->
  load_index vfs group_uri
  = inl (RuntimeError ("Missing metadata: " ++ name)).
Proof.
  intros Hg Hfv Hname Hmiss Hbefore.
  unfold load_index, load_index_in; simpl checks; simpl andb.
  rewrite Hg, Hfv. cbn [mbind result_bind].
  assert (Hu : forall j before, j < i -> metadata_names !! j = Some before ->
            stored_as_float before = false ->
            exists v, read_u64 g before = inr v).
  { intros j before Hj Hb Hf. apply read_declared_u64; [|exact Hf].
    exact (Hbefore j before Hj Hb). }
  assert (Hf : forall j before, j < i -> metadata_names !! j = Some before ->
            stored_as_float before = true ->
            exists v, read_f32 g before = inr v).
  { intros j before Hj Hb Hf. apply read_declared_f32; [|exact Hf].
    exact (Hbefore j before Hj Hb). }
  destruct i as [|i];
    [injection Hname as <-; rewrite (read_missing_u64 g _ Hmiss);
     reflexivity|].
  destruct (Hu 0 "dimension"%string) as [v0 ->]; [lia|reflexivity..|].
  cbn [mbind result_bind].
  destruct i as [|i];
    [injection Hname as <-; rewrite (read_missing_u64 g _ Hmiss);
     reflexivity|].
  destruct (Hu 1 "ntotal"%string) as [v1 ->]; [lia|reflexivity..|].
  cbn [mbind result_bind].
  destruct i as [|i];
    [injection Hname as <-; rewrite (read_missing_u64 g _ Hmiss);
     reflexivity|].
  destruct (Hu 2 "L"%string) as [v2 ->]; [lia|reflexivity..|].
  cbn [mbind result_bind].
  destruct i as [|i];
    [injection Hname as <-; rewrite (read_missing_u64 g _ Hmiss);
     reflexivity|].
  destruct (Hu 3 "R"%string) as [v3 ->]; [lia|reflexivity..|].
  cbn [mbind result_bind].
  destruct i as [|i];
    [injection Hname as <-; rewrite (read_missing_u64 g _ Hmiss);
     reflexivity|].
  destruct (Hu 4 "B"%string) as [v4 ->]; [lia|reflexivity..|].
  cbn [mbind result_bind].
  destruct i as [|i];
    [injection Hname as <-; rewrite (read_missing_f32 g _ Hmiss);
     reflexivity|].
  destruct (Hf 5 "alpha_min"%string) as [v5 ->]; [lia|reflexivity..|].
  cbn [mbind result_bind].
  destruct i as [|i];
    [injection Hname as <-; rewrite (read_missing_f32 g _ Hmiss);
     reflexivity|].
  destruct (Hf 6 "alpha_max"%string) as [v6 ->]; [lia|reflexivity..|].
  cbn [mbind result_bind].
  destruct i as [|i];
    [injection Hname as <-; rewrite (read_missing_u64 g _ Hmiss);
     reflexivity|].
  discriminate Hname.
Qed.

(** The loading constructor once the feature vectors and the metadata are
    read. *)
Lemma load_index_in_after_metadata (vfs : gmap string (group T))
    (group_uri : string) (g : group T) (fv : ColMajorMatrix T)
    (ntotal : nat) :
  vfs !! group_uri = Some g ->
  read_feature_vectors g = inr fv ->
  (forall name, In name metadata_names -> stored_as_declared g name) ->
  group_metadata g !! "ntotal"%string = Some (MetaUInt64 ntotal) ->
  exists dim L R B amin amax med,
    forall b,
      load_index_in b vfs group_uri
      = if checks b && negb (ntotal =? num_vectors fv)
        then inl (AssertionFailed
                    "num_vectors_ == num_vectors(feature_vectors_)")
        else
          scores ← read_scores g;
          ids ← read_ids g;
          index ← read_index g;
          mret (mkIndex fv dim ntotal L R B amin amax
                  (fold_left (load_node scores ids index) (seq 0 ntotal)
                     (empty_adj_list ntotal)) med).
Proof.
  intros Hg Hfv Hall Hnt.
  assert (Hu : forall name, In name metadata_names ->
            stored_as_float name = false ->
            exists v, read_u64 g name = inr v).
  { intros name Hin Hf. apply read_declared_u64; [|exact Hf].
    exact (Hall name Hin). }
  assert (Hf : forall name, In name metadata_names ->
            stored_as_float name = true ->
            exists v, read_f32 g name = inr v).
  { intros name Hin Hf. apply read_declared_f32; [|exact Hf].
    exact (Hall name Hin). }
  destruct (Hu "dimension"%string) as [v0 H0]; [simpl; tauto|reflexivity|].
  assert (Hr : read_u64 g "ntotal" = inr ntotal)
    by (unfold read_u64; rewrite Hnt; reflexivity).
  destruct (Hu "L"%string) as [v2 H2]; [simpl; tauto|reflexivity|].
  destruct (Hu "R"%string) as [v3 H3]; [simpl; tauto|reflexivity|].
  destruct (Hu "B"%string) as [v4 H4]; [simpl; tauto|reflexivity|].
  destruct (Hf "alpha_min"%string) as [v5 H5]; [simpl; tauto|reflexivity|].
  destruct (Hf "alpha_max"%string) as [v6 H6]; [simpl; tauto|reflexivity|].
  destruct (Hu "medioid"%string) as [v7 H7]; [simpl; tauto|reflexivity|].
  exists v0, v2, v3, v4, v5, v6, v7. intros b. unfold load_index_in.
  rewrite Hg, Hfv. cbn [mbind result_bind].
  rewrite H0. cbn [mbind result_bind]. rewrite Hr. cbn [mbind result_bind].
  rewrite H2. cbn [mbind result_bind]. rewrite H3. cbn [mbind result_bind].
  rewrite H4. cbn [mbind result_bind]. rewrite H5. cbn [mbind result_bind].
  rewrite H6. cbn [mbind result_bind]. rewrite H7. cbn [mbind result_bind].
  reflexivity.
Qed.

(** A group whose [ntotal] entry differs from the number of feature vectors
    it stores (one at least: the constructor copies the first) is refused
    by the assertion of the loading constructor, once all the metadata has
    been read, in a build that checks assertions.  In
    a build with [NDEBUG] nothing else checks the entry: when the group
    stores the arrays of a graph over [ntotal] nodes, the constructor
    returns an index over that graph whose count of vectors is not that of
    its feature matrix. *)
Theorem load_index_ntotal_checked_by_assertion_only
    (vfs : gmap string (group T)) (group_uri : string) (g : group T)
    (fv : ColMajorMatrix T) (ntotal : nat) :
  vfs !! group_uri = Some g ->
  read_feature_vectors g = inr fv ->
  (forall name, In name metadata_names -> stored_as_declared g name) ->
  group_metadata g !! "ntotal"%string = Some (MetaUInt64 ntotal) ->
  0 < num_vectors fv ->
  ntotal <> num_vectors fv ->
  load_index_in Checked vfs group_uri
  = inl (AssertionFailed "num_vectors_ == num_vectors(feature_vectors_)") /\
  forall G : adj_list,
    num_vertices G = ntotal ->
    (Z.of_nat (num_edges G) < 2 ^ 32)%Z ->
    read_scores g = inr (adj_scores (csr_of_graph G)) ->
    read_ids g = inr (adj_ids (csr_of_graph G)) ->
    read_index g = inr (adj_index (csr_of_graph G)) ->
    exists idx,
      load_index_in NDEBUG vfs group_uri = inr idx /\
      feature_vectors_ idx = fv /\
      num_vectors_ idx = ntotal /\
      graph_ idx = G.
Proof.
  intros Hg Hfv Hall Hnt _ Hne.
  destruct (load_index_in_after_metadata vfs group_uri g fv ntotal
              Hg Hfv Hall Hnt)
    as (dim & L & R & B & amin & amax & med & Hload).
  split.
  - rewrite Hload. apply Nat.eqb_neq in Hne. rewrite Hne. reflexivity.
  - intros G HG Hfit Hsc Hids Hidx. rewrite Hload.
    cbn [checks andb]. rewrite Hsc, Hids, Hidx.
    cbn [mbind result_bind mret result_ret].
    eexists. split; [reflexivity|]. cbn [feature_vectors_ num_vectors_ graph_].
    split; [reflexivity|]. split; [reflexivity|].
    rewrite <- HG. apply load_graph_spec. exact Hfit.
Qed.

End LoadErrors.

(** The layout of the three vectors that [write_index] writes for a graph:
    [adj_scores] and [adj_ids] hold the scores and the ids of all the edges,
    node after node and in the order of each list; [adj_index] has one entry
    per node and one more, entry [i] being the number of edges of the nodes
    before [i], narrowed to 32 bits. *)
Theorem csr_of_graph_layout (G : adj_list) :
  adj_scores (csr_of_graph G) = map fst (concat G) /\
  adj_ids (csr_of_graph G) = map snd (concat G) /\
  length (adj_index (csr_of_graph G)) = num_vertices G + 1 /\
  forall i, i <= num_vertices G ->
    adj_index (csr_of_graph G) !! i
    = Some (Z.of_nat (length (concat (take i G))) mod 2 ^ 32)%Z.
Proof.
  destruct (csr_of_graph_spec G) as (-> & -> & ->).
  split; [reflexivity|]. split; [reflexivity|].
  split; [rewrite length_map, length_seq; lia|].
  intros i Hi.
  change (map ?f ?l) with (f <$> l). rewrite list_lookup_fmap.
  rewrite lookup_seq_lt by lia. reflexivity.
Qed.

(** ** The centroids of an iteration and of the random start *)

Section LloydMean.
Context {T : Type} `{Scalar T}.

Lemma accumulate_lookup (dim j : nat) (pairs : list (nat * list T)) :
  forall (cols : list (list T)) (degrees : list nat),
  let vs := map snd (List.filter (fun pv : nat * list T => fst pv =? j)
                       pairs) in
  let st := fold_left (fun (st : list (list T) * list nat)
                           (iv : nat * list T) =>
      let '(part, vector) := iv in
      (alter (fun centroid => add_vector dim centroid vector) part (fst st),
       alter S part (snd st))) pairs (cols, degrees) in
  fst st !! j = (fun c => fold_left (add_vector dim) vs c) <$> cols !! j /\
  snd st !! j = (fun d => d + length vs) <$> degrees !! j /\
  length (fst st) = length cols.
Proof.
  induction pairs as [|[part vector] pairs IH]; intros cols degrees.
  { simpl. split; [destruct (cols !! j); reflexivity|].
    split; [|reflexivity].
    destruct (degrees !! j); simpl; [f_equal; lia|reflexivity]. }
  cbn [fold_left List.filter fst snd].
  specialize (IH
    (alter (fun centroid => add_vector dim centroid vector) part cols)
    (alter S part degrees)).
  cbv zeta in IH. destruct IH as (Hc & Hd & Hlen).
  cbv zeta. rewrite Hc, Hd, Hlen, length_alter.
  split; [|split; [|reflexivity]].
  - destruct (part =? j) eqn:Hpj.
    + apply Nat.eqb_eq in Hpj. subst part. rewrite list_lookup_alter_eq.
      destruct (cols !! j); reflexivity.
    + apply Nat.eqb_neq in Hpj. rewrite list_lookup_alter_ne by exact Hpj.
      reflexivity.
  - destruct (part =? j) eqn:Hpj.
    + apply Nat.eqb_eq in Hpj. subst part. rewrite list_lookup_alter_eq.
      destruct (degrees !! j); simpl; [f_equal; lia|reflexivity].
    + apply Nat.eqb_neq in Hpj. rewrite list_lookup_alter_ne by exact Hpj.
      reflexivity.
Qed.

(** Column [j] of the centroids after one iteration, for every [j]. *)
Lemma lloyd_iteration_column (idx : kmeans_index T)
    (training_set : ColMajorMatrix T) (j : nat) :
  let vs := assigned_vectors idx training_set j in
  columns (centroids_ (lloyd_iteration idx training_set)) !! j
  = (fun c =>
       if j <? nlist_ idx
       then divide_centroid (km_dimension_ idx) (length vs)
              (fold_left (add_vector (km_dimension_ idx)) vs
                 (map (fun _ => scalar_zero) c))
       else fold_left (add_vector (km_dimension_ idx)) vs c)
    <$> columns (centroids_ idx) !! j.
Proof.
  intros vs. unfold lloyd_iteration, accumulate_parts.
  set (parts := qv_partition (centroids_ idx) training_set).
  set (zeroed := on_first (nlist_ idx) (map (fun _ => scalar_zero))
                   (columns (centroids_ idx))).
  pose proof (accumulate_lookup (km_dimension_ idx) j
                (zip parts (columns training_set)) zeroed
                (replicate (nlist_ idx) 0)) as Hacc.
  cbv zeta in Hacc. fold (assigned_vectors idx training_set j) in Hacc.
  fold vs in Hacc.
  destruct (fold_left _ (zip parts (columns training_set))
              (zeroed, replicate (nlist_ idx) 0)) as [sums degrees].
  cbn [fst snd] in Hacc. destruct Hacc as (Hsums & Hdegrees & Hlen).
  cbn [centroids_ columns]. rewrite lookup_zip_with.
  unfold zeroed in Hsums. rewrite on_first_lookup in Hsums.
  destruct (columns (centroids_ idx) !! j) as [c|] eqn:Hc.
  - cbn [fmap option_fmap option_map] in Hsums.
    assert (Hj : j < length sums).
    { apply lookup_lt_is_Some. rewrite Hsums. eexists. reflexivity. }
    rewrite lookup_seq_lt by exact Hj. cbn [mbind option_bind plus].
    rewrite Hsums. cbn [mbind option_bind fmap option_fmap option_map].
    destruct (j <? nlist_ idx) eqn:Hjn; [|reflexivity].
    apply Nat.ltb_lt in Hjn.
    rewrite lookup_replicate_2 in Hdegrees by exact Hjn.
    cbn [fmap option_fmap option_map] in Hdegrees.
    rewrite Hdegrees. reflexivity.
  - cbn [fmap option_fmap option_map] in Hsums.
    destruct (seq 0 (length sums) !! j); cbn [mbind option_bind];
      [|reflexivity].
    rewrite Hsums. reflexivity.
Qed.

(** After an iteration of [train_no_init], centroid [j] is the sum of the
    training vectors assigned to it, taken over the first [dimension_]
    coordinates from the zero vector, each coordinate divided by the number
    of these vectors when there is one. *)
Theorem lloyd_iteration_centroid_is_mean (idx : kmeans_index T)
    (training_set : ColMajorMatrix T) (j : nat) :
  j < nlist_ idx ->
  col (centroids_ (lloyd_iteration idx training_set)) j
  = divide_centroid (km_dimension_ idx)
      (length (assigned_vectors idx training_set j))
      (fold_left (add_vector (km_dimension_ idx))
         (assigned_vectors idx training_set j)
         (map (fun _ => scalar_zero) (col (centroids_ idx) j))).
Proof.
  intros Hj. unfold col. rewrite lloyd_iteration_column.
  apply Nat.ltb_lt in Hj. rewrite Hj.
  destruct (columns (centroids_ idx) !! j) as [c|]; [reflexivity|].
  simpl.
  assert (Hnil : forall vs : list (list T),
            fold_left (add_vector (km_dimension_ idx)) vs [] = []).
  { induction vs as [|v vs IH]; simpl; [reflexivity|].
    destruct (km_dimension_ idx); exact IH. }
  rewrite Hnil. unfold divide_centroid, on_first.
  destruct (length _ =? 0); [reflexivity|].
  rewrite take_nil, drop_nil. reflexivity.
Qed.

Lemma add_vector_length (dim : nat) (c v : list T) :
  length (add_vector dim c v) = length c.
Proof.
  revert c v. induction dim as [|dim IH]; intros [|x c] [|y v]; simpl;
    try reflexivity.
  rewrite IH. reflexivity.
Qed.

Lemma fold_add_vector_length (dim : nat) (vs : list (list T)) (c : list T) :
  length (fold_left (add_vector dim) vs c) = length c.
Proof.
  revert c. induction vs as [|v vs IH]; intros c; simpl; [reflexivity|].
  rewrite IH. apply add_vector_length.
Qed.

Lemma divide_centroid_length (dim degree : nat) (c : list T) :
  length (divide_centroid dim degree c) = length c.
Proof.
  unfold divide_centroid, on_first. destruct (degree =? 0); [reflexivity|].
  rewrite length_app, length_map, length_take, length_drop. lia.
Qed.

Lemma lloyd_iteration_shape (idx : kmeans_index T)
    (training_set : ColMajorMatrix T) :
  km_dimension_ (lloyd_iteration idx training_set) = km_dimension_ idx /\
  nlist_ (lloyd_iteration idx training_set) = nlist_ idx /\
  num_vectors (centroids_ (lloyd_iteration idx training_set))
  = num_vectors (centroids_ idx) /\
  forall j, length (col (centroids_ (lloyd_iteration idx training_set)) j)
            = length (col (centroids_ idx) j).
Proof.
  assert (Hcol : forall j,
    length (col (centroids_ (lloyd_iteration idx training_set)) j)
    = length (col (centroids_ idx) j)).
  { intros j. unfold col. rewrite lloyd_iteration_column.
    destruct (columns (centroids_ idx) !! j) as [c|]; [|reflexivity].
    simpl. destruct (j <? nlist_ idx).
    - rewrite divide_centroid_length, fold_add_vector_length, length_map.
      reflexivity.
    - apply fold_add_vector_length. }
  assert (Hnum : num_vectors (centroids_ (lloyd_iteration idx training_set))
                 = num_vectors (centroids_ idx)).
  { unfold num_vectors.
    destruct (Nat.lt_trichotomy
                (length (columns (centroids_
                                    (lloyd_iteration idx training_set))))
                (length (columns (centroids_ idx)))) as [Hlt|[Heq|Hgt]];
      [|exact Heq|].
    - pose proof (lloyd_iteration_column idx training_set
                    (length (columns (centroids_
                       (lloyd_iteration idx training_set))))) as Hc.
      cbv zeta in Hc. rewrite lookup_ge_None_2 in Hc by lia.
      destruct (lookup_lt_is_Some_2 _ _ Hlt) as [c Hc']. rewrite Hc' in Hc.
      discriminate.
    - pose proof (lloyd_iteration_column idx training_set
                    (length (columns (centroids_ idx)))) as Hc.
      cbv zeta in Hc.
      rewrite (lookup_ge_None_2 (columns (centroids_ idx))) in Hc by lia.
      destruct (lookup_lt_is_Some_2 _ _ Hgt) as [c Hc']. rewrite Hc' in Hc.
      discriminate. }
  split; [|split; [|split; [exact Hnum|exact Hcol]]];
    unfold lloyd_iteration;
    destruct (accumulate_parts _ _ _ _ _); reflexivity.
Qed.

(** [train_no_init] keeps the shape of the centroid matrix, whatever the
    number of iterations: as many centroids as before, each as long as
    before. *)
Theorem train_no_init_keeps_shape (idx : kmeans_index T)
    (training_set : ColMajorMatrix T) :
  nlist_ (train_no_init idx training_set) = nlist_ idx /\
  num_vectors (centroids_ (train_no_init idx training_set))
  = num_vectors (centroids_ idx) /\
  forall j, length (col (centroids_ (train_no_init idx training_set)) j)
            = length (col (centroids_ idx) j).
Proof.
  unfold train_no_init.
  assert (Hgen : forall n,
    let idx' := Nat.iter n (fun idx' => lloyd_iteration idx' training_set)
                  idx in
    nlist_ idx' = nlist_ idx /\
    num_vectors (centroids_ idx') = num_vectors (centroids_ idx) /\
    forall j, length (col (centroids_ idx') j)
              = length (col (centroids_ idx) j)).
  { induction n as [|n IH]; [repeat split; reflexivity|].
    cbv zeta in *. rewrite Nat.iter_succ. destruct IH as (Hn & Hnum & Hcol).
    destruct (lloyd_iteration_shape
                (Nat.iter n (fun idx' => lloyd_iteration idx' training_set)
                   idx) training_set) as (_ & Hn' & Hnum' & Hcol').
    split; [rewrite Hn'; exact Hn|]. split; [rewrite Hnum'; exact Hnum|].
    intros j. rewrite Hcol'. apply Hcol. }
  destruct (Hgen (max_iter_ idx)) as (Hn & Hnum & Hcol).
  split; [exact Hn|]. split; [exact Hnum|exact Hcol].
Qed.

End LloydMean.
Section RandomInit.
Context {T : Type}.

Lemma random_init_fold (training_set : ColMajorMatrix T) (l : list nat) :
  forall (k : nat) (C : ColMajorMatrix T),
  k + length l <= length (columns C) ->
  let C' :=
    fold_left (fun C (ic : nat * nat) =>
        mkMatrix (num_rows C)
          (<[fst ic := col training_set (snd ic)]> (columns C)))
      (imap (fun i c => (k + i, c)) l) C in
  length (columns C') = length (columns C) /\
  forall j, columns C' !! j
            = if (k <=? j) && (j <? k + length l)
              then col training_set <$> l !! (j - k)
              else columns C !! j.
Proof.
  induction l as [|x l IH]; intros k C Hlen.
  { simpl. split; [reflexivity|]. intros j.
    destruct (k <=? j) eqn:Hk; [|reflexivity].
    destruct (j <? k + 0) eqn:Hj; [|reflexivity].
    apply Nat.leb_le in Hk. apply Nat.ltb_lt in Hj. lia. }
  simpl in Hlen. rewrite imap_cons. cbn [fold_left fst snd].
  rewrite (imap_ext _ (fun i c => (S k + i, c)))
    by (intros i c _; simpl; f_equal; lia).
  set (C1 := mkMatrix (num_rows C)
               (<[k + 0 := col training_set x]> (columns C))).
  destruct (IH (S k) C1) as [Hl Hcol].
  { unfold C1. simpl. rewrite length_insert. lia. }
  cbv zeta. split.
  { rewrite Hl. unfold C1. simpl. apply length_insert. }
  intros j. rewrite Hcol. unfold C1. cbn [columns]. rewrite Nat.add_0_r.
  destruct (decide (j = k)) as [->|Hne].
  - assert (Hf : (S k <=? k) = false) by (apply Nat.leb_gt; lia).
    rewrite Hf. cbn [andb].
    rewrite list_lookup_insert_eq by lia.
    rewrite Nat.leb_refl.
    assert (Ht : (k <? k + length (x :: l)) = true)
      by (apply Nat.ltb_lt; simpl; lia).
    rewrite Ht, Nat.sub_diag. reflexivity.
  - rewrite list_lookup_insert_ne by congruence.
    destruct (S k <=? j) eqn:Hk.
    + apply Nat.leb_le in Hk.
      assert (Hk' : (k <=? j) = true) by (apply Nat.leb_le; lia).
      rewrite Hk'. cbn [andb length].
      replace (k + S (length l)) with (S k + length l) by lia.
      destruct (j <? S k + length l); [|reflexivity].
      replace (j - k) with (S (j - S k)) by lia. reflexivity.
    + apply Nat.leb_gt in Hk.
      assert (Hk' : (k <=? j) = false) by (apply Nat.leb_gt; lia).
      rewrite Hk'. reflexivity.
Qed.

(** After [kmeans_random_init] centroid [i] is the training vector at the
    index that the [i]-th draw gave; nothing keeps two draws from giving the
    same index, and then the two centroids are the same vector. *)
Theorem kmeans_random_init_copies_drawn_vectors (idx : kmeans_index T)
    (training_set : ColMajorMatrix T) (draws : nat -> Q) :
  num_vectors (centroids_ idx) = nlist_ idx ->
  1 <= num_vectors training_set ->
  (forall i, (0 <= draws i)%Q /\ (draws i < 1)%Q) ->
  let C := centroids_ (kmeans_random_init idx training_set draws) in
  let pick :=
    fun i => uniform_index (num_vectors training_set) (draws i) in
  num_vectors C = nlist_ idx /\
  (forall i, i < nlist_ idx ->
     pick i < num_vectors training_set /\
     col C i = col training_set (pick i)) /\
  (forall i j, i < nlist_ idx -> j < nlist_ idx -> pick i = pick j ->
     col C i = col C j).
Proof.
  intros Hcols Hn Hdraws C pick.
  assert (Hpick : forall i, pick i < num_vectors training_set).
  { intros i. destruct (Hdraws i) as [H0 H1].
    apply uniform_index_lt; assumption. }
  pose proof (random_init_fold training_set
                (map pick (seq 0 (nlist_ idx))) 0 (centroids_ idx)) as Hfold.
  rewrite length_map, length_seq in Hfold. cbn [Nat.add] in Hfold.
  destruct Hfold as [Hlen Hcol]; [unfold num_vectors in Hcols; lia|].
  assert (HC : forall i, i < nlist_ idx ->
                 col C i = col training_set (pick i)).
  { intros i Hi. unfold col at 1, C, kmeans_random_init. cbn [centroids_].
    fold pick. rewrite Hcol. cbn [Nat.leb andb Nat.add].
    apply Nat.ltb_lt in Hi as Hib. rewrite Hib, Nat.sub_0_r.
    change (map pick ?l) with (pick <$> l). rewrite list_lookup_fmap.
    rewrite lookup_seq_lt by exact Hi. reflexivity. }
  split.
  { unfold num_vectors, C, kmeans_random_init. cbn [centroids_]. fold pick.
    rewrite Hlen. exact Hcols. }
  split.
  { intros i Hi. split; [apply Hpick|apply HC; exact Hi]. }
  intros i j Hi Hj Heq. rewrite (HC i Hi), (HC j Hj), Heq. reflexivity.
Qed.

End RandomInit.

(** ** The nearest vectors that vq_query_heap returns *)

Lemma insert_all_capacity (h : k_min_heap) (l : list edge) :
  capacity (insert_all h l) = capacity h.
Proof.
  unfold insert_all. revert h. induction l as [|e l IH]; intros h; simpl;
    [reflexivity|].
  rewrite IH. apply heap_insert_capacity.
Qed.

Lemma selects_empty (k : nat) : selects (empty_heap k) [].
Proof.
  split; [constructor|]. split; [intros x []|]. split; [simpl; lia|].
  intros e [].
Qed.

Lemma selects_insert (h : k_min_heap) (S : list edge) (e : edge) :
  selects h S -> ~ In e S ->
  selects (snd (heap_insert false h (fst e) (snd e))) (S ++ [e]).
Proof.
  intros (Hnd & Hincl & Hlen & Hsel) Hnew.
  assert (Hnot : ~ In e (entries h)) by (intros Hin; exact (Hnew (Hincl _ Hin))).
  unfold heap_insert. cbn [andb].
  destruct (length (entries h) <? capacity h) eqn:Hlt.
  - apply Nat.ltb_lt in Hlt. unfold selects. cbn [snd entries capacity].
    replace (fst e, snd e) with e by (destruct e; reflexivity).
    split.
    { apply NoDup_app. split; [exact Hnd|]. split; [|apply NoDup_singleton].
      intros x Hx Hx'. apply list_elem_of_In in Hx'. destruct Hx' as [<-|[]].
      apply Hnot. apply list_elem_of_In. exact Hx. }
    split.
    { intros x Hx. apply in_app_iff in Hx as [Hx|Hx]; apply in_app_iff;
        [left; apply Hincl; exact Hx|right; exact Hx]. }
    split; [rewrite length_app; simpl; lia|].
    intros x Hx. left. apply in_app_iff in Hx as [Hx|Hx]; apply in_app_iff;
      [|right; exact Hx].
    destruct (Hsel x Hx) as [Hin|[Hfull _]]; [left; exact Hin|lia].
  - apply Nat.ltb_ge in Hlt. assert (Hfull : length (entries h) = capacity h)
      by lia.
    destruct (extract_max (entries h)) as [[m rest]|] eqn:Hex.
    + pose proof (extract_max_greatest _ _ _ Hex) as Hmax.
      pose proof (extract_by_In _ _ _ _ Hex) as Hmem.
      pose proof (extract_by_Permutation _ _ _ _ Hex) as Hperm.
      pose proof (extract_by_length _ _ _ _ Hex) as Hlen'.
      destruct (Qltb (fst e) (fst m)) eqn:Hcmp.
      * apply Qltb_lt in Hcmp. unfold selects. cbn [snd entries capacity].
        replace (fst e, snd e) with e by (destruct e; reflexivity).
        assert (Hndr : NoDup (m :: rest)) by (rewrite <- Hperm; exact Hnd).
        apply NoDup_cons in Hndr as [Hmrest Hndr].
        split.
        { apply NoDup_app. split; [exact Hndr|].
          split; [|apply NoDup_singleton].
          intros x Hx Hx'. apply list_elem_of_In in Hx'.
          destruct Hx' as [<-|[]]. apply Hnot. apply Hmem. right.
          apply list_elem_of_In. exact Hx. }
        split.
        { intros x Hx. apply in_app_iff in Hx as [Hx|Hx]; apply in_app_iff;
            [left; apply Hincl; apply Hmem; right; exact Hx|right; exact Hx]. }
        split; [rewrite length_app; simpl; lia|].
        assert (Hbound : forall x, In x (rest ++ [e]) -> (fst x <= fst m)%Q).
        { intros x Hx. apply in_app_iff in Hx as [Hx|[<-|[]]].
          - apply Hmax. apply Hmem. right. exact Hx.
          - lra. }
        intros x Hx. apply in_app_iff in Hx as [Hx|Hx].
        -- destruct (Hsel x Hx) as [Hin|[_ Hge]].
           ++ apply Hmem in Hin as [->|Hin].
              ** right. split; [rewrite length_app; simpl; lia|exact Hbound].
              ** left. apply in_app_iff. left. exact Hin.
           ++ right. split; [rewrite length_app; simpl; lia|].
              intros y Hy. specialize (Hbound y Hy).
              assert (Hm : (fst m <= fst x)%Q)
                by (apply Hge; apply Hmem; left; reflexivity).
              lra.
        -- left. apply in_app_iff. right. exact Hx.
      * apply Qltb_ge in Hcmp. cbn [snd].
        split; [exact Hnd|].
        split; [intros x Hx; apply in_app_iff; left; apply Hincl; exact Hx|].
        split; [exact Hlen|].
        intros x Hx. apply in_app_iff in Hx as [Hx|[<-|[]]];
          [apply Hsel; exact Hx|].
        right. split; [exact Hfull|]. intros y Hy.
        specialize (Hmax y Hy). lra.
    + cbn [snd]. apply extract_by_None in Hex.
      split; [exact Hnd|].
      split; [intros x Hx; apply in_app_iff; left; apply Hincl; exact Hx|].
      split; [exact Hlen|].
      intros x Hx. apply in_app_iff in Hx as [Hx|[<-|[]]];
        [apply Hsel; exact Hx|].
      right. split; [exact Hfull|]. rewrite Hex. intros y [].
Qed.

Lemma selects_insert_all (l : list edge) :
  forall (h : k_min_heap) (S : list edge),
  selects h S -> NoDup l -> (forall e, In e l -> ~ In e S) ->
  selects (insert_all h l) (S ++ l).
Proof.
  unfold insert_all.
  induction l as [|e l IH]; intros h S Hsel Hnd Hnew; simpl.
  { rewrite app_nil_r. exact Hsel. }
  apply NoDup_cons in Hnd as [Hel Hnd].
  replace (S ++ e :: l) with ((S ++ [e]) ++ l)
    by (rewrite <- app_assoc; reflexivity).
  apply IH.
  - apply selects_insert; [exact Hsel|]. apply Hnew. left. reflexivity.
  - exact Hnd.
  - intros x Hx Hin. apply in_app_iff in Hin as [Hin|[<-|[]]].
    + exact (Hnew x (or_intror Hx) Hin).
    + apply Hel. apply list_elem_of_In. exact Hx.
Qed.

Lemma selects_ext (h : k_min_heap) (S S' : list edge) :
  (forall e, In e S <-> In e S') -> selects h S -> selects h S'.
Proof.
  intros Hext (Hnd & Hincl & Hlen & Hsel).
  split; [exact Hnd|]. split; [intros x Hx; apply Hext, Hincl, Hx|].
  split; [exact Hlen|]. intros e He. apply Hsel. apply Hext. exact He.
Qed.

(** Offering the entries of a second heap to a first one leaves a selection
    of the pairs that the two heaps were selected from. *)
Lemma selects_merge (h0 hn : k_min_heap) (S0 Sn : list edge) :
  selects h0 S0 -> selects hn Sn ->
  capacity h0 = capacity hn ->
  (forall e, In e Sn -> ~ In e S0) ->
  selects (insert_all h0 (entries hn)) (S0 ++ Sn).
Proof.
  intros H0 (Hndn & Hincln & Hlenn & Hseln) Hcap Hdisj.
  pose proof (selects_insert_all (entries hn) h0 S0 H0 Hndn
                (fun e He => Hdisj e (Hincln e He))) as Hsel.
  set (h := insert_all h0 (entries hn)) in *.
  assert (Hcaph : capacity h = capacity hn)
    by (unfold h; rewrite insert_all_capacity; exact Hcap).
  destruct Hsel as (Hnd & Hincl & Hlen & Hsel).
  split; [exact Hnd|]. split.
  { intros x Hx. apply Hincl in Hx. apply in_app_iff in Hx as [Hx|Hx];
      apply in_app_iff; [left; exact Hx|right; apply Hincln; exact Hx]. }
  split; [exact Hlen|].
  intros e He. apply in_app_iff in He as [He|He].
  { apply Hsel. apply in_app_iff. left. exact He. }
  destruct (Hseln e He) as [Hin|[Hfulln Hgen]].
  { apply Hsel. apply in_app_iff. right. exact Hin. }
  right.
  assert (Hcases : forall l, incl l (entries hn) ->
    incl l (entries h) \/
    exists y, In y l /\ length (entries h) = capacity h /\
              forall x, In x (entries h) -> (fst x <= fst y)%Q).
  { induction l as [|y l IH]; intros Hl; [left; intros x []|].
    destruct (Hsel y) as [Hy|[Hfull Hge]].
    - apply in_app_iff. right. apply Hl. left. reflexivity.
    - destruct IH as [IH|(z & Hz & Hfull & Hge)].
      + intros x Hx. apply Hl. right. exact Hx.
      + left. intros x [<-|Hx]; [exact Hy|apply IH; exact Hx].
      + right. exists z. split; [right; exact Hz|]. split; assumption.
    - right. exists y. split; [left; reflexivity|]. split; assumption. }
  destruct (Hcases (entries hn) (fun x Hx => Hx))
    as [Hall|(y & Hy & Hfull & Hge)].
  - assert (Hsub : entries hn ⊆+ entries h).
    { apply NoDup_submseteq; [exact Hndn|]. intros x Hx.
      apply list_elem_of_In. apply Hall. apply list_elem_of_In. exact Hx. }
    assert (Hperm : entries hn ≡ₚ entries h).
    { apply submseteq_length_Permutation; [exact Hsub|]. lia. }
    split; [rewrite <- Hperm; lia|].
    intros x Hx. apply Hgen.
    apply (Permutation_in _ (Permutation_sym Hperm)). exact Hx.
  - split; [exact Hfull|]. intros x Hx. specialize (Hge x Hx).
    specialize (Hgen y Hy). lra.
Qed.

Lemma selects_length (h : k_min_heap) (S : list edge) :
  selects h S -> NoDup S ->
  length (entries h) = Nat.min (capacity h) (length S).
Proof.
  intros (Hnd & Hincl & Hlen & Hsel) HndS.
  assert (Hsub : entries h ⊆+ S).
  { apply NoDup_submseteq; [exact Hnd|]. intros x Hx.
    apply list_elem_of_In. apply Hincl. apply list_elem_of_In. exact Hx. }
  pose proof (submseteq_length _ _ Hsub) as Hle.
  destruct (decide (length (entries h) = capacity h)) as [Hfull|Hnot]; [lia|].
  assert (Hsub' : S ⊆+ entries h).
  { apply NoDup_submseteq; [exact HndS|]. intros x Hx.
    apply list_elem_of_In. apply list_elem_of_In in Hx.
    destruct (Hsel x Hx) as [Hin|[Hfull _]]; [exact Hin|contradiction]. }
  pose proof (submseteq_length _ _ Hsub') as Hge. lia.
Qed.
Section HeapsOfWorkers.
Context {T U : Type} `{Scalar T} `{Scalar U}.

Lemma heap_at_insert_at_eq (sc : list (list k_min_heap)) (n j : nat)
    (row : list k_min_heap) (s : Q) (id : nat) :
  sc !! n = Some row -> j < length row ->
  heap_at (insert_at sc n j s id) n j
  = snd (heap_insert false (heap_at sc n j) s id).
Proof.
  intros Hrow Hj. unfold heap_at, insert_at.
  rewrite (list_lookup_alter_eq
             (alter (fun h => snd (heap_insert false h s id)) j) sc n), Hrow.
  cbn [fmap option_fmap option_map default]. unfold Datatypes.id.
  rewrite (list_lookup_alter_eq (fun h => snd (heap_insert false h s id))
             row j).
  destruct (lookup_lt_is_Some_2 row j Hj) as [h Hh]. rewrite Hh. reflexivity.
Qed.

Lemma heap_at_insert_at_ne (sc : list (list k_min_heap)) (n j n' j' : nat)
    (s : Q) (id : nat) :
  n' <> n \/ j' <> j ->
  heap_at (insert_at sc n j s id) n' j' = heap_at sc n' j'.
Proof.
  intros Hne. unfold heap_at, insert_at.
  destruct (decide (n' = n)) as [->|Hn].
  - destruct Hne as [Hne|Hne]; [contradiction|].
    rewrite (list_lookup_alter_eq
               (alter (fun h => snd (heap_insert false h s id)) j) sc n).
    destruct (sc !! n) as [row|]; [|reflexivity].
    cbn [fmap option_fmap option_map default]. unfold Datatypes.id.
    rewrite (list_lookup_alter_ne
               (fun h => snd (heap_insert false h s id)) row j j')
      by congruence.
    reflexivity.
  - rewrite (list_lookup_alter_ne
               (alter (fun h => snd (heap_insert false h s id)) j) sc n n')
      by congruence.
    reflexivity.
Qed.

Lemma insert_at_rows (sc : list (list k_min_heap)) (n j : nat) (s : Q)
    (id : nat) (nthreads M : nat) :
  length sc = nthreads /\ Forall (fun row => length row = M) sc ->
  length (insert_at sc n j s id) = nthreads /\
  Forall (fun row => length row = M) (insert_at sc n j s id).
Proof.
  intros [Hlen Hrows]. unfold insert_at. split;
    [rewrite length_alter; exact Hlen|].
  apply Forall_alter; [exact Hrows|]. intros row Hrow HM.
  rewrite length_alter. exact HM.
Qed.

End HeapsOfWorkers.

Lemma worker_of_lt (nthreads size i : nat) :
  1 <= nthreads -> i < size -> worker_of nthreads size i < nthreads.
Proof.
  intros Hn Hi. unfold worker_of.
  set (bs := (size + nthreads - 1) / nthreads).
  assert (Hcover : size <= nthreads * bs).
  { unfold bs.
    pose proof (Nat.div_mod_eq (size + nthreads - 1) nthreads) as Hdm.
    pose proof (Nat.mod_upper_bound (size + nthreads - 1) nthreads
                  ltac:(lia)) as Hmod.
    lia. }
  assert (Hbs : bs <> 0) by (intros Hz; rewrite Hz in Hcover; lia).
  apply Nat.Div0.div_lt_upper_bound. lia.
Qed.

Lemma fold_left_ext_in {A B : Type} (f g : A -> B -> A) (l : list B) :
  (forall a x, In x l -> f a x = g a x) ->
  forall a, fold_left f l a = fold_left g l a.
Proof.
  induction l as [|x l IH]; intros Hfg a; simpl; [reflexivity|].
  rewrite (Hfg a x (or_introl eq_refl)). apply IH.
  intros a' y Hy. apply Hfg. right. exact Hy.
Qed.

Section MergeHeaps.
Variables (nthreads size_q : nat).
Hypothesis nthreads_pos : 1 <= nthreads.

(** The entries of a list are offered to the heap of worker 0 for query
    [j]. *)
Lemma merge_entries (j : nat) (l : list edge) :
  j < size_q ->
  forall sc : list (list k_min_heap),
  rows_ok nthreads size_q sc ->
  let sc' := fold_left (fun sc (e : edge) => insert_at sc 0 j (fst e) (snd e))
               l sc in
  rows_ok nthreads size_q sc' /\
  heap_at sc' 0 j = insert_all (heap_at sc 0 j) l /\
  forall n' j', n' <> 0 \/ j' <> j -> heap_at sc' n' j' = heap_at sc n' j'.
Proof.
  intros Hj. induction l as [|e l IH]; intros sc Hok.
  { simpl. split; [exact Hok|]. split; [reflexivity|]. intros; reflexivity. }
  cbn [fold_left]. cbv zeta.
  destruct (IH (insert_at sc 0 j (fst e) (snd e))) as (Hok' & H0 & Hne).
  { apply insert_at_rows. exact Hok. }
  cbv zeta in *. split; [exact Hok'|]. split.
  - rewrite H0. destruct Hok as [Hlen Hrows].
    destruct (lookup_lt_is_Some_2 sc 0) as [row Hrow]; [lia|].
    rewrite (heap_at_insert_at_eq sc 0 j row); [reflexivity|exact Hrow|].
    rewrite Forall_forall in Hrows.
    rewrite (Hrows row); [exact Hj|].
    eapply list_elem_of_lookup_2. exact Hrow.
  - intros n' j' Hnj. rewrite (Hne n' j' Hnj).
    apply heap_at_insert_at_ne. exact Hnj.
Qed.

Lemma merge_workers (j : nat) (ns : list nat) :
  j < size_q -> (forall n, In n ns -> n <> 0) ->
  forall sc : list (list k_min_heap),
  rows_ok nthreads size_q sc ->
  let sc' :=
    fold_left (fun sc n =>
        fold_left (fun sc (e : edge) => insert_at sc 0 j (fst e) (snd e))
          (entries (default (empty_heap 0) (default [] (sc !! n) !! j))) sc)
      ns sc in
  rows_ok nthreads size_q sc' /\
  heap_at sc' 0 j
  = fold_left (fun h n => insert_all h (entries (heap_at sc n j))) ns
      (heap_at sc 0 j) /\
  forall n' j', n' <> 0 \/ j' <> j -> heap_at sc' n' j' = heap_at sc n' j'.
Proof.
  intros Hj. induction ns as [|n ns IH]; intros Hns sc Hok.
  { simpl. split; [exact Hok|]. split; [reflexivity|]. intros; reflexivity. }
  cbn [fold_left]. cbv zeta.
  change (default (empty_heap 0) (default [] (sc !! n) !! j))
    with (heap_at sc n j).
  destruct (merge_entries j (entries (heap_at sc n j)) Hj sc Hok)
    as (Hok1 & H01 & Hne1).
  cbv zeta in *.
  set (sc1 := fold_left
                (fun sc (e : edge) => insert_at sc 0 j (fst e) (snd e))
                (entries (heap_at sc n j)) sc) in *.
  destruct (IH (fun n' Hn' => Hns n' (or_intror Hn')) sc1 Hok1)
    as (Hok2 & H02 & Hne2).
  split; [exact Hok2|]. split.
  - rewrite H02, H01. apply fold_left_ext_in. intros h n' Hn'.
    rewrite (Hne1 n' j); [reflexivity|]. left. apply Hns. right. exact Hn'.
  - intros n' j' Hnj. rewrite (Hne2 n' j' Hnj). apply Hne1. exact Hnj.
Qed.

(** After the merge the heap of worker 0 for a query was offered the
    entries of the heaps of the workers 1, 2, ... for the same query. *)
Lemma merge_heaps_spec (sc : list (list k_min_heap)) (j : nat) :
  rows_ok nthreads size_q sc -> j < size_q ->
  rows_ok nthreads size_q (merge_heaps nthreads size_q sc) /\
  heap_at (merge_heaps nthreads size_q sc) 0 j
  = fold_left (fun h n => insert_all h (entries (heap_at sc n j)))
      (seq 1 (nthreads - 1)) (heap_at sc 0 j).
Proof.
  intros Hok Hj. unfold merge_heaps.
  assert (Hgen : forall m, m <= size_q ->
    let sc' :=
      fold_left (fun sc j =>
          fold_left (fun sc n =>
              fold_left
                (fun sc (e : edge) => insert_at sc 0 j (fst e) (snd e))
                (entries (default (empty_heap 0)
                            (default [] (sc !! n) !! j))) sc)
            (seq 1 (nthreads - 1)) sc)
        (seq 0 m) sc in
    rows_ok nthreads size_q sc' /\
    (forall n j', n <> 0 -> heap_at sc' n j' = heap_at sc n j') /\
    (forall j', j' < m ->
       heap_at sc' 0 j'
       = fold_left (fun h n => insert_all h (entries (heap_at sc n j')))
           (seq 1 (nthreads - 1)) (heap_at sc 0 j')) /\
    (forall j', m <= j' -> heap_at sc' 0 j' = heap_at sc 0 j')).
  { induction m as [|m IH]; intros Hm.
    { simpl. split; [exact Hok|]. split; [intros; reflexivity|].
      split; [intros j' Hj'; lia|intros; reflexivity]. }
    rewrite seq_S, fold_left_app. cbn [fold_left Nat.add].
    specialize (IH ltac:(lia)). cbv zeta in IH.
    set (scm := fold_left _ (seq 0 m) sc) in *.
    destruct IH as (Hokm & Hrows & Hdone & Hrest).
    destruct (merge_workers m (seq 1 (nthreads - 1)) ltac:(lia)
                (fun n Hn => ltac:(apply in_seq in Hn; lia)) scm Hokm)
      as (Hok' & H0 & Hne).
    cbv zeta in *. split; [exact Hok'|]. split.
    { intros n j' Hn. rewrite Hne by (left; exact Hn). apply Hrows.
      exact Hn. }
    split.
    - intros j' Hj'. destruct (decide (j' = m)) as [->|Hjm].
      + rewrite H0. rewrite (Hrest m (le_n _)).
        apply fold_left_ext_in. intros h n Hn. apply in_seq in Hn.
        rewrite (Hrows n m) by lia. reflexivity.
      + rewrite Hne by (right; exact Hjm). apply Hdone. lia.
    - intros j' Hj'. rewrite Hne by (right; lia). apply Hrest. lia. }
  destruct (Hgen size_q (le_n _)) as (Hrows & _ & Hdone & _).
  split; [exact Hrows|]. apply Hdone. exact Hj.
Qed.

End MergeHeaps.

Lemma insert_all_app (h : k_min_heap) (l1 l2 : list edge) :
  insert_all h (l1 ++ l2) = insert_all (insert_all h l1) l2.
Proof. unfold insert_all. apply fold_left_app. Qed.

Lemma ascending_lookup (l : list edge) :
  ascending l ->
  forall a b x y, a <= b -> l !! a = Some x -> l !! b = Some y ->
  (fst x <= fst y)%Q.
Proof.
  induction l as [|e l IH]; intros Hasc a b x y Hab Ha Hb.
  { rewrite lookup_nil in Ha. discriminate. }
  destruct Hasc as [Hhead Hasc]. destruct a as [|a].
  - cbn in Ha. injection Ha as <-. destruct b as [|b].
    + cbn in Hb. injection Hb as <-. apply Qle_refl.
    + cbn in Hb. apply Hhead. apply list_elem_of_In.
      eapply list_elem_of_lookup_2. exact Hb.
  - destruct b as [|b]; [lia|]. cbn in Ha, Hb.
    apply (IH Hasc a b x y); [lia|exact Ha|exact Hb].
Qed.

(** *** Lists cut into the parts of the workers *)

Lemma concat_map_insert {A : Type} (x : A) (v : nat) (G : nat -> list A)
    (ns : list nat) :
  NoDup ns -> In v ns ->
  concat (map (fun n => if v =? n then x :: G n else G n) ns)
  ≡ₚ x :: concat (map G ns).
Proof.
  induction ns as [|a ns IH]; intros Hnd Hin; [destruct Hin|].
  apply NoDup_cons in Hnd as [Ha Hnd]. cbn [map concat].
  destruct (decide (v = a)) as [->|Hne].
  - rewrite Nat.eqb_refl. cbn [app]. apply perm_skip.
    apply Permutation_app_head.
    assert (Hsame : map (fun n => if a =? n then x :: G n else G n) ns
                    = map G ns).
    { apply map_ext_in. intros n Hn. destruct (a =? n) eqn:E; [|reflexivity].
      apply Nat.eqb_eq in E. subst n. exfalso. apply Ha.
      apply list_elem_of_In. exact Hn. }
    rewrite Hsame. reflexivity.
  - replace (v =? a) with false by (symmetry; apply Nat.eqb_neq; exact Hne).
    destruct Hin as [->|Hin]; [contradiction Hne; reflexivity|].
    rewrite (IH Hnd Hin). symmetry. apply Permutation_middle.
Qed.

(** The parts that a list is cut into by the worker of each element make up
    the list. *)
Lemma filter_partition {A : Type} (f : A -> nat) (nt : nat) (l : list A) :
  (forall x, In x l -> f x < nt) ->
  concat (map (fun n => List.filter (fun x => f x =? n) l) (seq 0 nt)) ≡ₚ l.
Proof.
  induction l as [|x l IH]; intros Hf.
  - cbn [List.filter]. induction (seq 0 nt) as [|a ns IHn]; [reflexivity|].
    cbn [map concat app]. exact IHn.
  - assert (Hmap : map (fun n => List.filter (fun y => f y =? n) (x :: l))
                     (seq 0 nt)
                   = map (fun n =>
                            if f x =? n
                            then x :: List.filter (fun y => f y =? n) l
                            else List.filter (fun y => f y =? n) l)
                       (seq 0 nt)).
    { apply map_ext. intros n. reflexivity. }
    rewrite Hmap.
    rewrite (concat_map_insert x (f x)
               (fun n => List.filter (fun y => f y =? n) l) (seq 0 nt)).
    + apply perm_skip. apply IH. intros y Hy. apply Hf. right. exact Hy.
    + apply NoDup_seq.
    + apply in_seq. specialize (Hf x (or_introl eq_refl)). lia.
Qed.

Lemma concat_map_app {A : Type} (F G : nat -> list A) (ns : list nat) :
  concat (map (fun n => F n ++ G n) ns)
  ≡ₚ concat (map F ns) ++ concat (map G ns).
Proof.
  induction ns as [|a ns IH]; [reflexivity|].
  cbn [map concat]. rewrite IH. rewrite <- !app_assoc.
  apply Permutation_app_head. rewrite !app_assoc.
  apply Permutation_app_tail. apply Permutation_app_comm.
Qed.

Lemma NoDup_concat_each {A : Type} (Ss : nat -> list A) (ns : list nat) :
  NoDup (concat (map Ss ns)) -> forall n, In n ns -> NoDup (Ss n).
Proof.
  induction ns as [|a ns IH]; intros Hnd n Hin; [destruct Hin|].
  cbn [map concat] in Hnd. apply NoDup_app in Hnd as (H1 & _ & H3).
  destruct Hin as [->|Hin]; [exact H1|]. apply IH; assumption.
Qed.

Lemma NoDup_concat_disjoint {A : Type} (Ss : nat -> list A) (ns : list nat) :
  NoDup (concat (map Ss ns)) ->
  forall n n' e, In n ns -> In n' ns -> n <> n' ->
  In e (Ss n) -> In e (Ss n') -> False.
Proof.
  induction ns as [|a ns IH]; intros Hnd n n' e Hn Hn' Hne He He';
    [destruct Hn|].
  cbn [map concat] in Hnd. apply NoDup_app in Hnd as (_ & H2 & H3).
  assert (Hrest : forall m, In m ns -> In e (Ss m) ->
                  e ∈ concat (map Ss ns)).
  { intros m Hm Hem. apply list_elem_of_In. apply in_concat.
    exists (Ss m). split; [apply in_map; exact Hm|exact Hem]. }
  destruct Hn as [->|Hn], Hn' as [->|Hn'].
  - apply Hne. reflexivity.
  - apply (H2 e); [apply list_elem_of_In; exact He|].
    apply (Hrest n'); assumption.
  - apply (H2 e); [apply list_elem_of_In; exact He'|].
    apply (Hrest n); assumption.
  - apply (IH H3 n n' e); assumption.
Qed.

(** The heaps of the workers, each a selection among the pairs of its own
    worker, merge into a selection among the pairs of all the workers. *)
Lemma selects_merge_family (k nt : nat) (hs : nat -> k_min_heap)
    (Ss : nat -> list edge) :
  (forall n, n < nt -> capacity (hs n) = k) ->
  (forall n, n < nt -> selects (hs n) (Ss n)) ->
  (forall n n' e, n < nt -> n' < nt -> n <> n' ->
     In e (Ss n) -> In e (Ss n') -> False) ->
  forall m, m + 1 <= nt ->
  let h := fold_left (fun h n => insert_all h (entries (hs n))) (seq 1 m)
             (hs 0) in
  capacity h = k /\ selects h (concat (map Ss (seq 0 (1 + m)))).
Proof.
  intros Hcap Hsel Hdis. induction m as [|m IH]; intros Hm; cbv zeta.
  - cbn [seq fold_left Nat.add map concat]. rewrite app_nil_r.
    split; [apply Hcap; lia|apply Hsel; lia].
  - rewrite seq_S, fold_left_app. cbn [fold_left].
    specialize (IH ltac:(lia)). cbv zeta in IH.
    set (h := fold_left _ (seq 1 m) (hs 0)) in *.
    destruct IH as [Hk Hh]. split.
    + rewrite insert_all_capacity. exact Hk.
    + replace (1 + S m) with (S (1 + m)) by lia.
      rewrite seq_S, map_app, concat_app. cbn [map concat Nat.add].
      rewrite app_nil_r. apply selects_merge.
      * exact Hh.
      * apply Hsel. lia.
      * rewrite Hk. symmetry. apply Hcap. lia.
      * intros e He Hin. apply in_concat in Hin.
        destruct Hin as (l & Hl & Hel). apply in_map_iff in Hl.
        destruct Hl as (n & <- & Hn). apply in_seq in Hn.
        apply (Hdis n (S m) e); try assumption; lia.
Qed.

(** *** The pairs of a database *)

Section AllPairs.
Context {T U : Type} `{Scalar T} `{Scalar U}.

Lemma all_pairs_In (qv : list U) (db : list (list T)) (off : nat) (e : edge) :
  In e (all_pairs qv db off)
  <-> exists a, a < length db /\
        e = (sum_of_squares qv (default [] (db !! a)), a + off).
Proof.
  unfold all_pairs. rewrite in_map_iff. split.
  - intros (a & <- & Ha). apply in_seq in Ha. exists a. split; [lia|].
    reflexivity.
  - intros (a & Ha & ->). exists a. split; [reflexivity|]. apply in_seq. lia.
Qed.

Lemma all_pairs_NoDup (qv : list U) (db : list (list T)) (off : nat) :
  NoDup (all_pairs qv db off).
Proof.
  unfold all_pairs.
  change (NoDup ((fun a => (sum_of_squares qv (default [] (db !! a)), a + off))
                   <$> seq 0 (length db))).
  apply NoDup_fmap_2_strong; [|apply NoDup_seq].
  intros a a' _ _ Heq. apply (f_equal snd) in Heq. cbn [snd] in Heq. lia.
Qed.

Lemma all_pairs_length (qv : list U) (db : list (list T)) (off : nat) :
  length (all_pairs qv db off) = length db.
Proof. unfold all_pairs. rewrite length_map, length_seq. reflexivity. Qed.

Lemma all_pairs_app (qv : list U) (l1 l2 : list (list T)) (off : nat) :
  all_pairs qv (l1 ++ l2) off
  = all_pairs qv l1 off ++ all_pairs qv l2 (off + length l1).
Proof.
  unfold all_pairs. rewrite length_app, seq_app, map_app. f_equal.
  - apply map_ext_in. intros a Ha. apply in_seq in Ha.
    rewrite lookup_app_l by lia. reflexivity.
  - cbn [Nat.add]. rewrite <- (Nat.add_0_r (length l1)) at 1.
    rewrite <- fmap_add_seq.
    change (Nat.add (length l1) <$> seq 0 (length l2))
      with (map (Nat.add (length l1)) (seq 0 (length l2))).
    rewrite map_map. apply map_ext. intros a.
    rewrite lookup_app_r by lia.
    replace (length l1 + a - length l1) with a by lia.
    f_equal. lia.
Qed.

(** A heap that holds a selection among the pairs of a database lists, when
    it is sorted, the indices of nearest vectors. *)
Lemma selects_k_nearest (qv : list U) (db : list (list T)) (k : nat)
    (h : k_min_heap) :
  capacity h = k -> selects h (all_pairs qv db 0) ->
  length (entries h) <= k /\
  k_nearest db qv k (map snd (sort_heap (entries h))).
Proof.
  intros Hcap Hsel.
  pose proof (selects_length h _ Hsel (all_pairs_NoDup qv db 0)) as Hlen.
  rewrite Hcap, all_pairs_length in Hlen.
  pose proof (sort_heap_Permutation (entries h)) as Hperm.
  assert (Hin : forall e, In e (sort_heap (entries h)) ->
                exists a, a < length db /\
                  e = (sum_of_squares qv (default [] (db !! a)), a)).
  { intros e He. apply (proj1 (sort_heap_In _ _)) in He.
    destruct Hsel as (_ & Hincl & _). apply Hincl in He.
    apply all_pairs_In in He. destruct He as (a & Ha & ->).
    exists a. split; [exact Ha|]. rewrite Nat.add_0_r. reflexivity. }
  split; [lia|]. unfold k_nearest. cbv zeta.
  split; [rewrite length_map, (Permutation_length Hperm); exact Hlen|].
  split.
  { change (NoDup (snd <$> sort_heap (entries h))).
    apply NoDup_fmap_2_strong.
    - intros x y Hx Hy Hxy. apply list_elem_of_In in Hx, Hy.
      destruct (Hin x Hx) as (ix & _ & ->), (Hin y Hy) as (iy & _ & ->).
      cbn [snd] in Hxy. rewrite Hxy. reflexivity.
    - rewrite Hperm. destruct Hsel as [Hnd _]. exact Hnd. }
  split.
  { intros i Hi. apply in_map_iff in Hi. destruct Hi as (e & <- & He).
    destruct (Hin e He) as (i' & Hi' & ->). exact Hi'. }
  split.
  { intros a b ia ib Hab Ha Hb.
    change (map snd (sort_heap (entries h)))
      with (snd <$> sort_heap (entries h)) in Ha, Hb.
    rewrite list_lookup_fmap in Ha, Hb.
    destruct (sort_heap (entries h) !! a) as [x|] eqn:Hx; [|discriminate].
    destruct (sort_heap (entries h) !! b) as [y|] eqn:Hy; [|discriminate].
    cbn in Ha, Hb. injection Ha as <-. injection Hb as <-.
    pose proof (ascending_lookup _ (sort_heap_ascending (entries h))
                  a b x y Hab Hx Hy) as Hle.
    destruct (Hin x) as (ix & _ & Hex);
      [apply list_elem_of_In; eapply list_elem_of_lookup_2; exact Hx|].
    destruct (Hin y) as (iy & _ & Hey);
      [apply list_elem_of_In; eapply list_elem_of_lookup_2; exact Hy|].
    rewrite Hex, Hey in Hle |- *. exact Hle. }
  intros i i' Hi Hi' Hout.
  apply in_map_iff in Hi. destruct Hi as (e & <- & He).
  destruct (Hin e He) as (ie & _ & Hee).
  destruct Hsel as (_ & _ & _ & Hall).
  destruct (Hall (sum_of_squares qv (default [] (db !! i')), i'))
    as [Hheld|[_ Hleast]].
  - apply all_pairs_In. exists i'. split; [exact Hi'|].
    rewrite Nat.add_0_r. reflexivity.
  - exfalso. apply Hout. apply in_map_iff.
    exists (sum_of_squares qv (default [] (db !! i')), i').
    split; [reflexivity|]. apply sort_heap_In. exact Hheld.
  - specialize (Hleast e (proj1 (sort_heap_In _ _) He)).
    rewrite Hee in Hleast |- *. exact Hleast.
Qed.

End AllPairs.

(** *** The scan of the database and the merge of the heaps *)

Section VqScan.
Context {T U : Type} `{Scalar T} `{Scalar U}.
Variables (q : blocked_matrix U) (k nthreads : nat).
Hypothesis q_resident : is_blocked q = false.
Hypothesis nthreads_pos : 1 <= nthreads.

Lemma rows_ok_lookup (sc : list (list k_min_heap)) (n : nat) :
  rows_ok nthreads (length (window q)) sc -> n < nthreads ->
  exists row, sc !! n = Some row /\ length row = length (window q).
Proof.
  intros [Hlen Hrows] Hn.
  destruct (lookup_lt_is_Some_2 sc n) as [row Hrow]; [lia|].
  exists row. split; [exact Hrow|].
  rewrite Forall_forall in Hrows. apply Hrows.
  eapply list_elem_of_lookup_2. exact Hrow.
Qed.

(** The loop over the queries for one database vector: the heap of worker
    [n] for each of the first [m] queries is offered the pair of [i]. *)
Lemma scan_vector_prefix (db : blocked_matrix T) (n i : nat)
    (db_vec : list T) (m : nat) :
  n < nthreads -> m <= length (window q) ->
  db_vec = default [] (window db !! i) ->
  forall (sc : list (list k_min_heap)) (ev : list event),
  rows_ok nthreads (length (window q)) sc ->
  let st := fold_left (fun (st : list (list k_min_heap) * list event)
                           (j : nat) =>
      let score := sum_of_squares (default [] (window q !! j)) db_vec in
      let scores' :=
        if is_blocked db then insert_at (fst st) n j score (i + offset db)
        else if is_blocked q then insert_at (fst st) n (j + offset q) score i
        else insert_at (fst st) n j score i in
      (scores', snd st ++ [ScoreComputed; HeapUpdated]))
    (seq 0 m) (sc, ev) in
  rows_ok nthreads (length (window q)) (fst st) /\
  forall n' j',
    heap_at (fst st) n' j'
    = if (n' =? n) && (j' <? m)
      then snd (heap_insert false (heap_at sc n' j')
                  (fst (offer db q j' i)) (snd (offer db q j' i)))
      else heap_at sc n' j'.
Proof.
  intros Hn Hm Hvec sc ev Hok. induction m as [|m IH].
  { simpl. split; [exact Hok|]. intros n' j'. rewrite andb_false_r.
    reflexivity. }
  rewrite seq_S, fold_left_app. cbn [fold_left Nat.add].
  specialize (IH ltac:(lia)). cbv zeta in IH.
  destruct (fold_left _ (seq 0 m) (sc, ev)) as [sc1 ev1].
  cbn [fst snd] in *. destruct IH as [Hok1 Hat1].
  rewrite q_resident. cbv zeta. cbn [fst].
  assert (Hins :
    (if is_blocked db
     then insert_at sc1 n m
            (sum_of_squares (default [] (window q !! m)) db_vec)
            (i + offset db)
     else insert_at sc1 n m
            (sum_of_squares (default [] (window q !! m)) db_vec) i)
    = insert_at sc1 n m (fst (offer db q m i)) (snd (offer db q m i))).
  { unfold offer, scanned_id. cbn [fst snd]. rewrite Hvec.
    destruct (is_blocked db); reflexivity. }
  rewrite Hins.
  split; [apply insert_at_rows; exact Hok1|].
  intros n' j'.
  destruct (rows_ok_lookup sc1 n Hok1 Hn) as (row & Hrow & Hlen).
  destruct (decide (n' = n /\ j' = m)) as [[-> ->]|Hne].
  - rewrite (heap_at_insert_at_eq sc1 n m row) by (try exact Hrow; lia).
    rewrite Hat1. rewrite Nat.eqb_refl.
    assert (Hlt : (m <? m) = false) by (apply Nat.ltb_ge; lia).
    assert (Hlt' : (m <? S m) = true) by (apply Nat.ltb_lt; lia).
    rewrite Hlt, Hlt'. cbn [andb]. reflexivity.
  - rewrite heap_at_insert_at_ne
      by (destruct (decide (n' = n)); [right|left]; intuition congruence).
    rewrite Hat1. destruct (n' =? n) eqn:Hnn; [|reflexivity]. cbn [andb].
    apply Nat.eqb_eq in Hnn.
    assert (Hjm : j' <> m) by (intros ->; apply Hne; tauto).
    assert (Heq : (j' <? S m) = (j' <? m)).
    { destruct (j' <? m) eqn:Hlt.
      - apply Nat.ltb_lt in Hlt. apply Nat.ltb_lt. lia.
      - apply Nat.ltb_ge in Hlt. apply Nat.ltb_ge. lia. }
    rewrite Heq. reflexivity.
Qed.

Lemma scan_vector_spec (db : blocked_matrix T) (n i : nat)
    (sc : list (list k_min_heap)) (ev : list event) :
  n < nthreads ->
  rows_ok nthreads (length (window q)) sc ->
  let st := scan_vector db q (length (window q)) n (sc, ev) i
              (default [] (window db !! i)) in
  rows_ok nthreads (length (window q)) (fst st) /\
  forall n' j', j' < length (window q) ->
    heap_at (fst st) n' j'
    = if n' =? n
      then snd (heap_insert false (heap_at sc n' j')
                  (fst (offer db q j' i)) (snd (offer db q j' i)))
      else heap_at sc n' j'.
Proof.
  intros Hn Hok.
  pose proof (scan_vector_prefix db n i (default [] (window db !! i))
                (length (window q)) Hn (le_n _) eq_refl sc ev Hok) as Hpre.
  cbv zeta in *. unfold scan_vector. destruct Hpre as [Hok' Hat].
  split; [exact Hok'|]. intros n' j' Hj'. rewrite Hat.
  apply Nat.ltb_lt in Hj'. rewrite Hj', andb_true_r. reflexivity.
Qed.

(** The parallel loop over the vectors of the resident block: the heap of
    worker [n] for query [j] was offered the pairs of the vectors that the
    worker handles, in the order of the vectors. *)
Lemma scan_block_prefix (db : blocked_matrix T)
    (sc0 : list (list k_min_heap)) (ev0 : list event) (m : nat) :
  rows_ok nthreads (length (window q)) sc0 ->
  m <= length (window db) ->
  let st := fold_left (fun st (iv : nat * list T) =>
      scan_vector db q (length (window q))
        (worker_of nthreads (length (window db)) (fst iv)) st (fst iv)
        (snd iv))
    (imap (fun i v => (i, v)) (take m (window db))) (sc0, ev0) in
  rows_ok nthreads (length (window q)) (fst st) /\
  forall n j, j < length (window q) ->
    heap_at (fst st) n j
    = insert_all (heap_at sc0 n j)
        (map (offer db q j)
           (List.filter
              (fun i => worker_of nthreads (length (window db)) i =? n)
              (seq 0 m))).
Proof.
  intros Hok0. induction m as [|m IH]; intros Hm.
  { simpl. split; [exact Hok0|]. intros; reflexivity. }
  destruct (lookup_lt_is_Some_2 (window db) m) as [v Hv]; [lia|].
  rewrite (take_S_r _ _ _ Hv), imap_app, fold_left_app.
  specialize (IH ltac:(lia)). cbv zeta in IH.
  destruct (fold_left _ (imap (fun i v => (i, v)) (take m (window db)))
              (sc0, ev0)) as [sc1 ev1].
  cbn [fst snd] in IH. destruct IH as [Hok1 Hat1].
  rewrite length_take, Nat.min_l by lia.
  cbn [imap fold_left fst snd]. rewrite Nat.add_0_r.
  assert (Hvec : v = default [] (window db !! m)) by (rewrite Hv; reflexivity).
  rewrite Hvec.
  assert (Hw : worker_of nthreads (length (window db)) m < nthreads)
    by (apply worker_of_lt; [exact nthreads_pos|lia]).
  destruct (scan_vector_spec db
              (worker_of nthreads (length (window db)) m) m sc1 ev1 Hw Hok1)
    as [Hok2 Hat2].
  split; [exact Hok2|]. intros n j Hj. rewrite (Hat2 n j Hj), Hat1 by exact Hj.
  rewrite seq_S, List.filter_app, map_app, insert_all_app.
  cbn [Nat.add List.filter].
  rewrite (Nat.eqb_sym n).
  destruct (worker_of nthreads (length (window db)) m =? n); reflexivity.
Qed.

Lemma scan_block_spec (db : blocked_matrix T)
    (sc : list (list k_min_heap)) (ev : list event) :
  rows_ok nthreads (length (window q)) sc ->
  let st := scan_block nthreads db q (length (window q)) (sc, ev) in
  rows_ok nthreads (length (window q)) (fst st) /\
  forall n j, j < length (window q) ->
    heap_at (fst st) n j
    = insert_all (heap_at sc n j) (block_pairs nthreads db q j n).
Proof.
  intros Hok.
  pose proof (scan_block_prefix db sc ev (length (window db)) Hok (le_n _))
    as Hscan.
  cbv zeta in Hscan. rewrite firstn_all in Hscan. exact Hscan.
Qed.

(** The pairs that the workers offer for the resident block are the pairs
    of its vectors. *)
Lemma block_pairs_partition (db : blocked_matrix T) (j : nat) :
  concat (map (block_pairs nthreads db q j) (seq 0 nthreads))
  ≡ₚ map (offer db q j) (seq 0 (length (window db))).
Proof.
  unfold block_pairs.
  rewrite <- (map_map
                (fun n => List.filter
                   (fun i => worker_of nthreads (length (window db)) i =? n)
                   (seq 0 (length (window db))))
                (map (offer db q j))).
  rewrite <- concat_map. apply Permutation_map.
  apply filter_partition. intros i Hi. apply in_seq in Hi.
  apply worker_of_lt; [exact nthreads_pos|lia].
Qed.

(** The loop over the blocks of a streamed database. *)
Lemma scan_all_streamed (ps : list (list (list T))) :
  forall (w : list (list T)) (off : nat) (sc : list (list k_min_heap))
         (ev : list event) (fuel : nat),
  length ps < fuel ->
  rows_ok nthreads (length (window q)) sc ->
  exists st,
    scan_all fuel nthreads (mkBlocked true w off ps) q (length (window q))
      (sc, ev) = inr (st, q) /\
    rows_ok nthreads (length (window q)) (fst st) /\
    forall n j, j < length (window q) ->
      heap_at (fst st) n j
      = insert_all (heap_at sc n j) (stream_pairs nthreads q j n w off ps).
Proof.
  induction ps as [|b rest IH]; intros w off sc ev fuel Hfuel Hok;
    (destruct fuel as [|fuel]; [cbn in Hfuel; lia|]).
  - cbn [scan_all is_blocked advance pending].
    destruct (scan_block_spec (mkBlocked true w off []) sc ev Hok)
      as [Hok' Hat]. cbv zeta in Hok', Hat.
    eexists. split; [reflexivity|]. split; [exact Hok'|].
    intros n j Hj. cbn [stream_pairs]. rewrite app_nil_r. apply Hat.
    exact Hj.
  - cbn [scan_all is_blocked advance pending offset window].
    destruct (scan_block_spec (mkBlocked true w off (b :: rest)) sc ev Hok)
      as [Hok1 Hat1]. cbv zeta in Hok1, Hat1.
    destruct (scan_block nthreads (mkBlocked true w off (b :: rest)) q
                (length (window q)) (sc, ev)) as [sc1 ev1] eqn:Hscan.
    cbn [fst] in Hok1, Hat1.
    destruct (IH b (off + length w) sc1 ev1 fuel) as (st & Hrun & Hok2 & Hat2);
      [cbn in Hfuel; lia|exact Hok1|].
    exists st. split; [exact Hrun|]. split; [exact Hok2|].
    intros n j Hj. rewrite (Hat2 n j Hj), (Hat1 n j Hj).
    cbn [stream_pairs]. rewrite insert_all_app.
    reflexivity.
Qed.

(** The pairs that the workers offer over the blocks of a streamed database
    are the pairs of all its vectors, each under its position in the whole
    database. *)
Lemma stream_pairs_partition (j : nat) (ps : list (list (list T))) :
  forall (w : list (list T)) (off : nat),
  concat (map (fun n => stream_pairs nthreads q j n w off ps)
            (seq 0 nthreads))
  ≡ₚ all_pairs (default [] (window q !! j)) (w ++ concat ps) off.
Proof.
  induction ps as [|b rest IH]; intros w off.
  - cbn [stream_pairs concat]. rewrite app_nil_r.
    assert (Hmap : map (fun n =>
                          block_pairs nthreads (mkBlocked true w off []) q j n
                          ++ []) (seq 0 nthreads)
                   = map (block_pairs nthreads (mkBlocked true w off []) q j)
                       (seq 0 nthreads)).
    { apply map_ext. intros n. apply app_nil_r. }
    rewrite Hmap, block_pairs_partition. reflexivity.
  - cbn [stream_pairs concat].
    rewrite (concat_map_app
               (block_pairs nthreads (mkBlocked true w off (b :: rest)) q j)
               (fun n => stream_pairs nthreads q j n b (off + length w) rest)).
    rewrite block_pairs_partition, IH.
    rewrite (all_pairs_app _ w (b ++ concat rest) off). reflexivity.
Qed.

(** The heaps of worker 0 after the merge, when the heap of every worker
    was offered the pairs [Ss n] and the pairs of all the workers are the
    pairs [S]. *)
Lemma merged_selects (sc : list (list k_min_heap)) (j : nat)
    (Ss : nat -> list edge) (S : list edge) :
  rows_ok nthreads (length (window q)) sc -> j < length (window q) ->
  (forall n, n < nthreads ->
     heap_at sc n j = insert_all (empty_heap k) (Ss n)) ->
  concat (map Ss (seq 0 nthreads)) ≡ₚ S -> NoDup S ->
  let merged := merge_heaps nthreads (length (window q)) sc in
  rows_ok nthreads (length (window q)) merged /\
  capacity (heap_at merged 0 j) = k /\
  selects (heap_at merged 0 j) S.
Proof.
  intros Hok Hj Hheap Hperm HndS. cbv zeta.
  assert (Hnd : NoDup (concat (map Ss (seq 0 nthreads))))
    by (rewrite Hperm; exact HndS).
  destruct (merge_heaps_spec nthreads (length (window q)) nthreads_pos sc j
              Hok Hj) as [Hrows ->].
  split; [exact Hrows|].
  destruct (selects_merge_family k nthreads (fun n => heap_at sc n j) Ss)
    with (m := nthreads - 1) as [Hcap Hsel].
  - intros n Hn. rewrite (Hheap n Hn). apply insert_all_capacity.
  - intros n Hn. rewrite (Hheap n Hn).
    apply (selects_insert_all _ (empty_heap k) []).
    + apply selects_empty.
    + apply (NoDup_concat_each Ss (seq 0 nthreads) Hnd). apply in_seq. lia.
    + intros e _ [].
  - intros n n' e Hn Hn' Hne.
    apply (NoDup_concat_disjoint Ss (seq 0 nthreads) Hnd n n' e);
      try (apply in_seq; lia). exact Hne.
  - lia.
  - split; [exact Hcap|].
    replace (1 + (nthreads - 1)) with nthreads in Hsel by lia.
    eapply selects_ext; [|exact Hsel].
    intros e. split; intros He.
    + eapply Permutation_in; [exact Hperm|exact He].
    + eapply Permutation_in; [symmetry; exact Hperm|exact He].
Qed.

(** The columns of [top_k]: when the heap of every worker was offered the
    pairs [Ss j n] for query [j], and the pairs of all the workers are the
    pairs of the database [all], column [j] lists nearest vectors of
    [all]. *)
Lemma top_k_of_scanned (sc : list (list k_min_heap)) (all : list (list T))
    (Ss : nat -> nat -> list edge) (j : nat) :
  rows_ok nthreads (length (window q)) sc -> j < length (window q) ->
  (forall n, n < nthreads ->
     heap_at sc n j = insert_all (empty_heap k) (Ss j n)) ->
  concat (map (Ss j) (seq 0 nthreads))
  ≡ₚ all_pairs (default [] (window q !! j)) all 0 ->
  exists ids,
    map (fun j =>
        top_k_column k
          (default (empty_heap k)
             (default []
                (merge_heaps nthreads (length (window q)) sc !! 0) !! j)))
      (seq 0 (length (window q))) !! j
    = Some (ids ++ replicate (k - length ids) 0) /\
    k_nearest all (default [] (window q !! j)) k ids.
Proof.
  intros Hok Hj Hheap Hperm.
  destruct (merged_selects sc j (Ss j) _ Hok Hj Hheap Hperm
              (all_pairs_NoDup _ _ _)) as (Hrows & Hcap & Hsel).
  cbv zeta in Hrows, Hcap, Hsel.
  set (merged := merge_heaps nthreads (length (window q)) sc) in *.
  assert (Hrow : default (empty_heap k) (default [] (merged !! 0) !! j)
                 = heap_at merged 0 j).
  { unfold heap_at.
    destruct (rows_ok_lookup merged 0 Hrows ltac:(lia)) as (row & -> & Hlen).
    cbn. destruct (lookup_lt_is_Some_2 row j) as [h ->]; [lia|].
    reflexivity. }
  set (h := heap_at merged 0 j) in *.
  destruct (selects_k_nearest _ _ k h Hcap Hsel) as [Hsize Hnear].
  exists (map snd (sort_heap (entries h))). split; [|exact Hnear].
  change (map (fun j0 => top_k_column k
                 (default (empty_heap k) (default [] (merged !! 0) !! j0)))
            (seq 0 (length (window q))))
    with ((fun j0 => top_k_column k
             (default (empty_heap k) (default [] (merged !! 0) !! j0)))
          <$> seq 0 (length (window q))).
  rewrite list_lookup_fmap, lookup_seq_lt by exact Hj.
  cbn [fmap option_fmap option_map Nat.add].
  rewrite Hrow. unfold top_k_column. cbv zeta.
  rewrite take_ge
    by (rewrite length_map, (Permutation_length (sort_heap_Permutation _));
        exact Hsize).
  reflexivity.
Qed.

Lemma initial_heaps :
  rows_ok nthreads (length (window q))
    (replicate nthreads (replicate (length (window q)) (empty_heap k))) /\
  forall n j, n < nthreads -> j < length (window q) ->
    heap_at
      (replicate nthreads (replicate (length (window q)) (empty_heap k))) n j
    = empty_heap k.
Proof.
  split.
  - split; [apply length_replicate|]. apply Forall_replicate.
    apply length_replicate.
  - intros n j Hn Hj. unfold heap_at. rewrite lookup_replicate_2 by exact Hn.
    cbn. rewrite lookup_replicate_2 by exact Hj. reflexivity.
Qed.

(** [vq_query_heap] over a database and a query set that are both wholly
    resident, with scores that a [float] computes without rounding,
    returns for every query the indices of [k] nearest database vectors,
    nearest first, over a column of zeros.  There is one query at least:
    the kernel cuts the queries into [min(nthreads, size(q))] blocks for the
    last copy; an id is an [int]. *)
Theorem vq_query_heap_returns_k_nearest (db : blocked_matrix T) :
  is_blocked db = false ->
  pending q = [] ->
  1 <= length (window q) ->
  (Z.of_nat (length (window db)) < 2 ^ 31)%Z ->
  exact_scores (window q) (window db) ->
  exists (top_k : list (list nat)) (events : list event),
    vq_query_heap db q k nthreads = (inr top_k, events) /\
    length top_k = length (window q) /\
    forall j, j < length (window q) ->
      exists ids,
        top_k !! j = Some (ids ++ replicate (k - length ids) 0) /\
        k_nearest (window db) (default [] (window q !! j)) k ids.
Proof.
  intros Hdb Hpending _ _ _. unfold vq_query_heap.
  rewrite Hdb, q_resident. cbn [andb scan_all].
  rewrite Hdb. unfold advance. rewrite Hpending.
  destruct initial_heaps as [Hok0 Hempty].
  destruct (scan_block_spec db _ [] Hok0) as [Hok Hat].
  cbv zeta in Hok, Hat.
  set (st := scan_block nthreads db q (length (window q)) _) in *.
  eexists _, _. split; [reflexivity|].
  split; [rewrite length_map, length_seq; reflexivity|].
  intros j Hj.
  apply (top_k_of_scanned (fst st) (window db)
           (fun j n => block_pairs nthreads db q j n) j Hok Hj).
  - intros n Hn. rewrite (Hat n j Hj), (Hempty n j Hn Hj). reflexivity.
  - rewrite block_pairs_partition. unfold all_pairs.
    assert (Hmap : map (offer db q j) (seq 0 (length (window db)))
                   = map (fun a =>
                            (sum_of_squares (default [] (window q !! j))
                               (default [] (window db !! a)), a + 0))
                       (seq 0 (length (window db)))).
    { apply map_ext. intros a. unfold offer, scanned_id. rewrite Hdb.
      rewrite Nat.add_0_r. reflexivity. }
    rewrite Hmap. reflexivity.
Qed.

(** [vq_query_heap] over a database that is streamed in blocks, from its
    first vector on, with scores that a [float] computes without rounding,
    returns for every query the positions in the whole database of [k]
    nearest vectors among those of all the blocks, nearest first, over a
    column of zeros. *)
Theorem vq_query_heap_streamed_k_nearest (db : blocked_matrix T) :
  is_blocked db = true ->
  offset db = 0 ->
  1 <= length (window q) ->
  (Z.of_nat (length (window db ++ concat (pending db))) < 2 ^ 31)%Z ->
  exact_scores (window q) (window db ++ concat (pending db)) ->
  exists (top_k : list (list nat)) (events : list event),
    vq_query_heap db q k nthreads = (inr top_k, events) /\
    length top_k = length (window q) /\
    forall j, j < length (window q) ->
      exists ids,
        top_k !! j = Some (ids ++ replicate (k - length ids) 0) /\
        k_nearest (window db ++ concat (pending db))
          (default [] (window q !! j)) k ids.
Proof.
  intros Hdb Hoff _ _ _. destruct db as [blocked w off ps].
  cbn [is_blocked offset window pending] in *. subst blocked off.
  unfold vq_query_heap. cbn [is_blocked pending]. rewrite q_resident.
  cbn [andb].
  destruct initial_heaps as [Hok0 Hempty].
  destruct (scan_all_streamed ps w 0 _ []
              (S (length ps + length (pending q))) ltac:(lia) Hok0)
    as (st & Hrun & Hok & Hat).
  rewrite Hrun.
  eexists _, _. split; [reflexivity|].
  split; [rewrite length_map, length_seq; reflexivity|].
  intros j Hj.
  apply (top_k_of_scanned (fst st) (w ++ concat ps)
           (fun j n => stream_pairs nthreads q j n w 0 ps) j Hok Hj).
  - intros n Hn. rewrite (Hat n j Hj), (Hempty n j Hn Hj). reflexivity.
  - apply stream_pairs_partition.
Qed.

End VqScan.

(** ** The partition that qv_partition computes *)

Section QvPartitionProofs.
Context {T U : Type} `{Scalar T} `{Scalar U}.

Lemma best_match_scan (db : ColMajorMatrix T) (q_vec : list U) (m : nat) :
  m <= num_vectors db ->
  let score := fun i => sum_of_squares q_vec (col db i) in
  let st := fold_left (fun (st : Q * nat) (iv : nat * list T) =>
      let score := sum_of_squares q_vec (snd iv) in
      if Qltb score (fst st) then (score, fst iv) else st)
    (imap (fun i v => (i, v)) (take m (columns db))) (FLT_MAX, 0) in
  (snd st < m /\ fst st = score (snd st) /\
   (fst st < FLT_MAX)%Q /\
   (forall i, i < m -> (fst st <= score i)%Q) /\
   (forall i, i < snd st -> (fst st < score i)%Q))
  \/
  (snd st = 0 /\ fst st = FLT_MAX /\
   forall i, i < m -> (FLT_MAX <= score i)%Q).
Proof.
  induction m as [|m IH]; intros Hm score.
  { cbn. right. split; [reflexivity|]. split; [reflexivity|]. intros i Hi.
    lia. }
  destruct (lookup_lt_is_Some_2 (columns db) m) as [v Hv];
    [unfold num_vectors in Hm; lia|].
  rewrite (take_S_r _ _ _ Hv), imap_app, fold_left_app.
  specialize (IH ltac:(lia)). cbv zeta in IH.
  destruct (fold_left _ (imap (fun i v => (i, v)) (take m (columns db)))
              (FLT_MAX, 0)) as [ms idx].
  rewrite length_take, Nat.min_l by (unfold num_vectors in Hm; lia).
  cbn [imap fold_left fst snd] in *. rewrite Nat.add_0_r.
  assert (Hsv : sum_of_squares q_vec v = score m).
  { unfold score, col. rewrite Hv. reflexivity. }
  rewrite Hsv. fold score in IH.
  destruct (Qltb (score m) ms) eqn:Hcmp; cbn [fst snd].
  - apply Qltb_lt in Hcmp. left. split; [lia|]. split; [reflexivity|].
    destruct IH as [(Hidx & Hms & Hmax & Hle & Hlt)|(Hidx & Hms & Hge)].
    + split; [eapply Qlt_trans; [exact Hcmp|exact Hmax]|]. split.
      * intros i Hi. destruct (decide (i = m)) as [->|Hne];
          [apply Qle_refl|].
        apply Qlt_le_weak. eapply Qlt_le_trans; [exact Hcmp|].
        apply Hle. lia.
      * intros i Hi. eapply Qlt_le_trans; [exact Hcmp|]. apply Hle. exact Hi.
    + rewrite Hms in Hcmp. split; [exact Hcmp|]. split.
      * intros i Hi. destruct (decide (i = m)) as [->|Hne];
          [apply Qle_refl|].
        apply Qlt_le_weak. eapply Qlt_le_trans; [exact Hcmp|].
        apply Hge. lia.
      * intros i Hi. eapply Qlt_le_trans; [exact Hcmp|]. apply Hge. exact Hi.
  - apply Qltb_ge in Hcmp.
    destruct IH as [(Hidx & Hms & Hmax & Hle & Hlt)|(Hidx & Hms & Hge)].
    + left. split; [lia|]. split; [exact Hms|]. split; [exact Hmax|].
      split; [|exact Hlt].
      intros i Hi. destruct (decide (i = m)) as [->|Hne]; [exact Hcmp|].
      apply Hle. lia.
    + right. split; [exact Hidx|]. split; [exact Hms|].
      intros i Hi. destruct (decide (i = m)) as [->|Hne].
      * rewrite <- Hms. exact Hcmp.
      * apply Hge. lia.
Qed.

(** The index that the loop over the database vectors leaves in [idx]: the
    first of the vectors with the least score when that score is below
    [FLT_MAX], and 0 when no score is. *)
Lemma best_match_first_nearest (db : ColMajorMatrix T) (q_vec : list U) :
  let score := fun i => sum_of_squares q_vec (col db i) in
  let idx := snd (IvfQuery.best_match db q_vec) in
  ((idx < num_vectors db /\
    (score idx < FLT_MAX)%Q /\
    (forall i, i < num_vectors db -> (score idx <= score i)%Q) /\
    (forall i, i < idx -> (score idx < score i)%Q))
   \/
   (idx = 0 /\
    forall i, i < num_vectors db -> (FLT_MAX <= score i)%Q)) /\
  idx <= num_vectors db.
Proof.
  cbv zeta.
  pose proof (best_match_scan db q_vec (num_vectors db) (le_n _)) as Hscan.
  cbv zeta in Hscan.
  replace (take (num_vectors db) (columns db)) with (columns db) in Hscan
    by (symmetry; apply firstn_all).
  unfold IvfQuery.best_match.
  set (bm := fold_left _ _ (FLT_MAX, 0)) in *.
  destruct bm as [ms idx]. cbn [fst snd] in *.
  destruct Hscan as [(Hidx & Hms & Hmax & Hle & Hlt)|(Hidx & Hms & Hge)].
  - split; [|lia]. left. rewrite Hms in Hmax, Hle, Hlt.
    split; [exact Hidx|]. split; [exact Hmax|]. split; assumption.
  - split; [|lia]. right. split; [exact Hidx|exact Hge].
Qed.

Lemma partition_block_spec (db : ColMajorMatrix T) (q : ColMajorMatrix U)
    (len : nat) :
  forall (start : nat) (top_k : list nat),
  start + len <= length top_k ->
  let top_k' :=
    fold_left (fun top_k j =>
        <[j := IvfQuery.to_unsigned
                 (snd (IvfQuery.best_match db (col q j)))]> top_k)
      (seq start len) top_k in
  length top_k' = length top_k /\
  forall j,
    top_k' !! j
    = if (start <=? j) && (j <? start + len)
      then Some (IvfQuery.to_unsigned
                   (snd (IvfQuery.best_match db (col q j))))
      else top_k !! j.
Proof.
  induction len as [|len IH]; intros start top_k Hlen; cbv zeta.
  { cbn [seq fold_left]. split; [reflexivity|]. intros j.
    destruct (start <=? j) eqn:Hle; [|reflexivity].
    destruct (j <? start + 0) eqn:Hlt; [|reflexivity].
    apply Nat.leb_le in Hle. apply Nat.ltb_lt in Hlt. lia. }
  cbn [seq fold_left].
  destruct (IH (S start)
              (<[start := IvfQuery.to_unsigned
                            (snd (IvfQuery.best_match db (col q start)))]>
                 top_k))
    as [Hlen' Hat]; [rewrite length_insert; lia|].
  cbv zeta in Hlen', Hat. split; [rewrite Hlen', length_insert; reflexivity|].
  intros j. rewrite Hat.
  destruct (decide (j = start)) as [->|Hne].
  - replace (S start <=? start) with false
      by (symmetry; apply Nat.leb_gt; lia).
    replace (start <=? start) with true by (symmetry; apply Nat.leb_le; lia).
    replace (start <? start + S len) with true
      by (symmetry; apply Nat.ltb_lt; lia).
    cbn [andb]. apply list_lookup_insert_eq. lia.
  - rewrite list_lookup_insert_ne by (intros ->; apply Hne; reflexivity).
    replace (j <? S start + len) with (j <? start + S len)
      by (f_equal; lia).
    destruct (j <? start + S len); [|rewrite !andb_false_r; reflexivity].
    rewrite !andb_true_r.
    destruct (start <=? j) eqn:Hle.
    + apply Nat.leb_le in Hle.
      replace (S start <=? j) with true by (symmetry; apply Nat.leb_le; lia).
      reflexivity.
    + apply Nat.leb_gt in Hle.
      replace (S start <=? j) with false by (symmetry; apply Nat.leb_gt; lia).
      reflexivity.
Qed.

(** The blocks of the threads cover the queries: after the tasks of the
    first [n] threads the entries below [n * block_size] are written. *)
Lemma qv_partition_blocks (db : ColMajorMatrix T) (q : ColMajorMatrix U)
    (block_size n : nat) :
  let size := num_vectors q in
  let top_k :=
    fold_left (fun top_k n =>
        let start := Nat.min (n * block_size) size in
        let stop := Nat.min ((n + 1) * block_size) size in
        if start =? stop then top_k
        else IvfQuery.partition_block db q start stop top_k)
      (seq 0 n) (replicate size 0) in
  length top_k = size /\
  forall j, j < Nat.min (n * block_size) size ->
    top_k !! j
    = Some (IvfQuery.to_unsigned (snd (IvfQuery.best_match db (col q j)))).
Proof.
  cbv zeta. induction n as [|n IH].
  { cbn [seq fold_left]. split; [apply length_replicate|]. intros j Hj.
    cbn in Hj. lia. }
  rewrite seq_S, fold_left_app. cbn [fold_left Nat.add].
  set (top_k := fold_left _ (seq 0 n) (replicate (num_vectors q) 0)) in *.
  destruct IH as [Hlen Hat].
  replace ((n + 1) * block_size) with (n * block_size + block_size) by lia.
  replace (S n * block_size) with (n * block_size + block_size) by lia.
  set (start := Nat.min (n * block_size) (num_vectors q)) in *.
  set (stop := Nat.min (n * block_size + block_size) (num_vectors q)) in *.
  destruct (start =? stop) eqn:Hss.
  - apply Nat.eqb_eq in Hss. split; [exact Hlen|]. intros j Hj.
    apply Hat. lia.
  - apply Nat.eqb_neq in Hss. unfold IvfQuery.partition_block.
    destruct (partition_block_spec db q (stop - start) start top_k)
      as [Hlen' Hat']; [unfold start, stop in *; lia|].
    cbv zeta in Hlen', Hat'. split; [rewrite Hlen'; exact Hlen|].
    intros j Hj. rewrite Hat'.
    destruct (start <=? j) eqn:Hle.
    + replace (j <? start + (stop - start)) with true
        by (symmetry; apply Nat.ltb_lt; unfold start, stop in *; lia).
      reflexivity.
    + apply Nat.leb_gt in Hle. cbn [andb]. apply Hat. exact Hle.
Qed.

Lemma blocks_cover (size nthreads : nat) :
  1 <= nthreads -> size <= nthreads * ((size + nthreads - 1) / nthreads).
Proof.
  intros Hn.
  pose proof (Nat.div_mod_eq (size + nthreads - 1) nthreads) as Hdiv.
  pose proof (Nat.mod_upper_bound (size + nthreads - 1) nthreads
                ltac:(lia)) as Hmod.
  lia.
Qed.

Lemma col_In {A : Type} (M : ColMajorMatrix A) (j : nat) :
  j < num_vectors M -> In (col M j) (columns M).
Proof.
  intros Hj. unfold col.
  destruct (lookup_lt_is_Some_2 (columns M) j Hj) as [v Hv]. rewrite Hv.
  apply list_elem_of_In. eapply list_elem_of_lookup_2. exact Hv.
Qed.

(** [qv_partition] run by one thread or more, on queries and database
    vectors whose scores a [float] computes without rounding, returns for
    every query the first of its nearest database vectors (0 for an empty
    database); the number of threads does not change the result. *)
Theorem qv_partition_returns_first_nearest (db : ColMajorMatrix T)
    (q : ColMajorMatrix U) (nthreads : nat) :
  1 <= nthreads ->
  (Z.of_nat (num_vectors db) < 2 ^ 31)%Z ->
  exact_scores (columns q) (columns db) ->
  exists top_k,
    IvfQuery.qv_partition db q nthreads = Some top_k /\
    IvfQuery.qv_partition db q 1 = Some top_k /\
    length top_k = num_vectors q /\
    forall j, j < num_vectors q ->
      exists idx, top_k !! j = Some idx /\ first_nearest db (col q j) idx.
Proof.
  intros Hn Hdb (_ & _ & Hsmall).
  assert (Hgen : forall nt, 1 <= nt ->
    exists top_k,
      IvfQuery.qv_partition db q nt = Some top_k /\
      length top_k = num_vectors q /\
      forall j, j < num_vectors q ->
        top_k !! j
        = Some (IvfQuery.to_unsigned
                  (snd (IvfQuery.best_match db (col q j))))).
  { intros nt Hnt. unfold IvfQuery.qv_partition. cbv zeta.
    replace (nt =? 0) with false by (symmetry; apply Nat.eqb_neq; lia).
    eexists. split; [reflexivity|].
    destruct (qv_partition_blocks db q
                ((num_vectors q + nt - 1) / nt) nt) as [Hlen Hat].
    cbv zeta in Hlen, Hat. split; [exact Hlen|]. intros j Hj. apply Hat.
    pose proof (blocks_cover (num_vectors q) nt Hnt) as Hcover.
    rewrite Nat.mul_comm in Hcover. lia. }
  destruct (Hgen nthreads Hn) as (top_k & Hrun & Hlen & Hat).
  destruct (Hgen 1 (le_n _)) as (top_k1 & Hrun1 & Hlen1 & Hat1).
  assert (Heq : top_k1 = top_k).
  { apply list_eq. intros j. destruct (decide (j < num_vectors q)) as [Hj|Hj].
    - rewrite Hat, Hat1 by exact Hj. reflexivity.
    - rewrite !lookup_ge_None_2 by lia. reflexivity. }
  exists top_k. split; [exact Hrun|]. split; [rewrite <- Heq; exact Hrun1|].
  split; [exact Hlen|]. intros j Hj.
  destruct (best_match_first_nearest db (col q j)) as [Hnear Hle].
  cbv zeta in Hnear, Hle.
  exists (snd (IvfQuery.best_match db (col q j))). split.
  { rewrite (Hat j Hj). f_equal. unfold IvfQuery.to_unsigned.
    rewrite Z.mod_small by lia. apply Nat2Z.id. }
  destruct Hnear as [(Hidx & _ & Hleast & Hfirst)|[Hidx Hnone]].
  - left. split; [exact Hidx|]. split; [exact Hleast|exact Hfirst].
  - destruct (Nat.eq_dec (num_vectors db) 0) as [Hsize|Hsize];
      [right; split; [exact Hsize|exact Hidx]|].
    exfalso. specialize (Hnone 0 ltac:(lia)).
    assert (Hs : (sum_of_squares (col q j) (col db 0)
                  <= inject_Z (2 ^ 24))%Q).
    { apply Hsmall; apply col_In; [exact Hj|lia]. }
    apply (Qlt_irrefl FLT_MAX).
    eapply Qle_lt_trans; [exact Hnone|].
    eapply Qle_lt_trans; [exact Hs|exact small_score_below_FLT_MAX].
Qed.

End QvPartitionProofs.

(** ** The recall that the driver reports *)

Lemma insert_Z_Permutation (x : Z) (l : list Z) :
  Permutation (insert_Z x l) (x :: l).
Proof.
  induction l as [|y l IH]; simpl; [reflexivity|].
  destruct (x <=? y)%Z; [reflexivity|]. rewrite IH. apply perm_swap.
Qed.

Lemma sort_Z_Permutation (l : list Z) : Permutation (sort_Z l) l.
Proof.
  unfold sort_Z. induction l as [|x l IH]; simpl; [reflexivity|].
  rewrite insert_Z_Permutation, IH. reflexivity.
Qed.

Lemma insert_Z_sorted (x : Z) (l : list Z) :
  sorted_Z l -> sorted_Z (insert_Z x l).
Proof.
  induction l as [|y l IH]; simpl; [intros _; split; [intros ? []|exact I]|].
  intros [Hhd Htl]. destruct (x <=? y)%Z eqn:Hle.
  - apply Z.leb_le in Hle. simpl. split; [|split; assumption].
    intros z [<-|Hz]; [exact Hle|]. specialize (Hhd z Hz). lia.
  - apply Z.leb_gt in Hle. simpl. split; [|apply IH; exact Htl].
    intros z Hz. apply (Permutation_in _ (insert_Z_Permutation x l)) in Hz.
    destruct Hz as [<-|Hz]; [lia|apply Hhd; exact Hz].
Qed.

Lemma sort_Z_sorted (l : list Z) : sorted_Z (sort_Z l).
Proof.
  unfold sort_Z. induction l as [|x l IH]; simpl; [exact I|].
  apply insert_Z_sorted. exact IH.
Qed.

Lemma set_intersection_le (a b : list Z) :
  set_intersection a b <= length a.
Proof.
  revert b. induction a as [|x a IHa]; intros b; [destruct b; simpl; lia|].
  induction b as [|y b IHb]; simpl; [lia|].
  destruct (x <? to_size_t y)%Z.
  - specialize (IHa (y :: b)). lia.
  - destruct (to_size_t y <? x)%Z.
    + simpl in IHb. exact IHb.
    + specialize (IHa b). lia.
Qed.

Lemma filter_length_Permutation {A : Type} (f : A -> bool) (l l' : list A) :
  Permutation l l' -> length (List.filter f l) = length (List.filter f l').
Proof.
  induction 1 as [|x l l' _ IH|x y l|l l' l'' _ IH1 _ IH2]; simpl.
  - reflexivity.
  - destruct (f x); simpl; congruence.
  - destruct (f x), (f y); reflexivity.
  - congruence.
Qed.

Lemma existsb_Zeqb (x : Z) (l : list Z) :
  existsb (Z.eqb x) l = true <-> In x l.
Proof.
  rewrite existsb_exists. split.
  - intros (y & Hy & Heq). apply Z.eqb_eq in Heq. subst. exact Hy.
  - intros Hx. exists x. split; [exact Hx|apply Z.eqb_refl].
Qed.

Lemma filter_member_ext (a b b' : list Z) :
  (forall x, In x a -> (In x b <-> In x b')) ->
  List.filter (fun x => existsb (Z.eqb x) b) a
  = List.filter (fun x => existsb (Z.eqb x) b') a.
Proof.
  intros Hext. apply List.filter_ext_in. intros x Hx.
  specialize (Hext x Hx).
  destruct (existsb (Z.eqb x) b) eqn:Hb, (existsb (Z.eqb x) b') eqn:Hb';
    try reflexivity.
  - apply existsb_Zeqb in Hb. apply Hext in Hb. apply existsb_Zeqb in Hb.
    congruence.
  - apply existsb_Zeqb in Hb'. apply Hext in Hb'. apply existsb_Zeqb in Hb'.
    congruence.
Qed.

(** The walk of [std::set_intersection] over two ascending ranges, the first
    without repetition, counts the values of the first that occur in the
    second. *)
Lemma set_intersection_count (a b : list Z) :
  sorted_Z a -> NoDup a -> sorted_Z b ->
  (forall y, In y b -> to_size_t y = y) ->
  set_intersection a b
  = length (List.filter (fun x => existsb (Z.eqb x) b) a).
Proof.
  revert b. induction a as [|x a IHa]; intros b Hsa Hnd Hsb Hconv;
    [destruct b; reflexivity|].
  destruct Hsa as [Hxa Hsa]. apply NoDup_cons in Hnd as [Hxnot Hnd].
  induction b as [|y b IHb].
  { assert (Hnil : forall l : list Z,
              List.filter (fun x0 => existsb (Z.eqb x0) []) l = [])
      by (induction l as [|z l IH]; simpl; [reflexivity|exact IH]).
    rewrite Hnil. reflexivity. }
  destruct Hsb as [Hyb Hsb].
  cbn [set_intersection]. rewrite (Hconv y (or_introl eq_refl)).
  destruct (x <? y)%Z eqn:Hxy.
  - apply Z.ltb_lt in Hxy.
    rewrite (IHa (y :: b) Hsa Hnd (conj Hyb Hsb) Hconv).
    cbn [List.filter].
    assert (Hx : existsb (Z.eqb x) (y :: b) = false).
    { destruct (existsb (Z.eqb x) (y :: b)) eqn:He; [|reflexivity].
      apply existsb_Zeqb in He. destruct He as [->|He]; [lia|].
      specialize (Hyb x He). lia. }
    rewrite Hx. reflexivity.
  - apply Z.ltb_ge in Hxy. destruct (y <? x)%Z eqn:Hyx.
    + apply Z.ltb_lt in Hyx.
      change (set_intersection (x :: a) b
              = length (List.filter (fun x0 => existsb (Z.eqb x0) (y :: b))
                          (x :: a))).
      rewrite IHb; [|exact Hsb|intros z Hz; apply Hconv; right; exact Hz].
      f_equal. apply filter_member_ext. intros z Hz. simpl.
      split; [tauto|]. intros [->|Hb]; [|exact Hb].
      destruct Hz as [->|Hz]; [lia|]. specialize (Hxa z Hz). lia.
    + apply Z.ltb_ge in Hyx. assert (x = y) by lia. subst y.
      rewrite (IHa b Hsa Hnd Hsb
                 (fun z Hz => Hconv z (or_intror Hz))).
      assert (Hx : existsb (Z.eqb x) (x :: b) = true)
        by (apply existsb_Zeqb; left; reflexivity).
      cbn [List.filter]. rewrite Hx. cbn [length].
      f_equal. f_equal. apply filter_member_ext. intros z Hz. simpl.
      split; [tauto|]. intros [->|Hb]; [|exact Hb].
      exfalso. apply Hxnot. apply list_elem_of_In. exact Hz.
Qed.

Lemma sort_Z_length (l : list Z) : length (sort_Z l) = length l.
Proof. apply Permutation_length. apply sort_Z_Permutation. Qed.

Lemma intersect_column_le (k_nn : nat) (t g : list Z) :
  intersect_column k_nn t g <= length t.
Proof.
  unfold intersect_column. rewrite <- (sort_Z_length t).
  apply set_intersection_le.
Qed.

Lemma total_intersected_le (k_nn : nat) (top_k groundtruth : ColMajorMatrix Z) :
  matrix_wf top_k ->
  total_intersected k_nn top_k groundtruth <= total_groundtruth top_k.
Proof.
  intros Hwf. unfold total_intersected, total_groundtruth.
  assert (Hgen : forall n acc, n <= num_vectors top_k ->
    fold_left (fun total i =>
        total + intersect_column k_nn (col top_k i) (col groundtruth i))
      (seq 0 n) acc <= acc + n * num_rows top_k).
  { induction n as [|n IH]; intros acc Hn; [simpl; lia|].
    rewrite seq_S, fold_left_app. simpl.
    specialize (IH acc ltac:(lia)).
    pose proof (intersect_column_le k_nn (col top_k n) (col groundtruth n))
      as Hle.
    assert (Hlen : length (col top_k n) = num_rows top_k).
    { unfold col. destruct (lookup_lt_is_Some_2 (columns top_k) n) as [c Hc];
        [unfold num_vectors in Hn; lia|].
      rewrite Hc. simpl. unfold matrix_wf in Hwf.
      rewrite Forall_forall in Hwf. apply Hwf.
      eapply list_elem_of_lookup_2. exact Hc. }
    lia. }
  specialize (Hgen (num_vectors top_k) 0 (le_n _)). lia.
Qed.

(** The recall that the driver reports lies between 0 and 1, whatever the
    ground truth holds: the walk of [std::set_intersection] counts at most
    as many ids as a column of [top_k] has. *)
Theorem recall_between_0_and_1 (k_nn : nat)
    (top_k groundtruth : ColMajorMatrix Z) :
  matrix_wf top_k ->
  0 < total_groundtruth top_k ->
  (0 <= recall k_nn top_k groundtruth)%Q /\
  (recall k_nn top_k groundtruth <= 1)%Q.
Proof.
  intros Hwf Hpos. unfold recall.
  pose proof (total_intersected_le k_nn top_k groundtruth Hwf) as Hle.
  set (a := total_intersected k_nn top_k groundtruth) in *.
  set (b := total_groundtruth top_k) in *.
  assert (Hb : (0 < inject_Z (Z.of_nat b))%Q).
  { change 0%Q with (inject_Z 0). rewrite <- Zlt_Qlt. lia. }
  assert (Ha : (0 <= inject_Z (Z.of_nat a))%Q).
  { change 0%Q with (inject_Z 0). rewrite <- Zle_Qle. lia. }
  assert (Hab : (inject_Z (Z.of_nat a) <= inject_Z (Z.of_nat b))%Q).
  { rewrite <- Zle_Qle. lia. }
  split.
  - apply Qle_shift_div_l; [exact Hb|]. lra.
  - apply Qle_shift_div_r; [exact Hb|]. lra.
Qed.

(** When the ground truth has exactly [k] rows, no id occurs twice in a
    column of [top_k], and the ids of the ground truth are not negative, the
    driver counts for every query the ids of the result that occur in the
    ground truth, and the recall it reports is the sum of these counts
    divided by [k] times the number of queries. *)
Theorem recall_counts_common_ids (k_nn : nat)
    (top_k groundtruth : ColMajorMatrix Z) :
  num_rows top_k = k_nn ->
  (forall i, i < num_vectors top_k ->
     NoDup (col top_k i) /\
     length (col groundtruth i) = k_nn /\
     forall y, In y (col groundtruth i) -> (0 <= y < 2 ^ 31)%Z) ->
  total_intersected k_nn top_k groundtruth
  = spec_total_intersected k_nn top_k groundtruth /\
  recall k_nn top_k groundtruth = spec_recall k_nn top_k groundtruth.
Proof.
  intros Hrows Hcols.
  assert (Hcol : forall i, i < num_vectors top_k ->
    intersect_column k_nn (col top_k i) (col groundtruth i)
    = spec_intersection (col top_k i) (take k_nn (col groundtruth i))).
  { intros i Hi. destruct (Hcols i Hi) as (Hnd & Hlen & Hrange).
    unfold intersect_column, spec_intersection.
    rewrite <- Hlen at 1 2. rewrite firstn_all, drop_all, app_nil_r.
    rewrite <- Hlen, firstn_all.
    rewrite set_intersection_count.
    - rewrite nodup_fixed_point by (apply NoDup_ListNoDup; exact Hnd).
      rewrite (filter_length_Permutation _ _ _ (sort_Z_Permutation _)).
      f_equal. apply filter_member_ext. intros x _.
      split; apply Permutation_in;
        [apply sort_Z_Permutation|symmetry; apply sort_Z_Permutation].
    - apply sort_Z_sorted.
    - rewrite sort_Z_Permutation. exact Hnd.
    - apply sort_Z_sorted.
    - intros y Hy. apply (Permutation_in _ (sort_Z_Permutation _)) in Hy.
      specialize (Hrange y Hy). unfold to_size_t.
      apply Z.mod_small. lia. }
  assert (Htotal : total_intersected k_nn top_k groundtruth
                   = spec_total_intersected k_nn top_k groundtruth).
  { unfold total_intersected, spec_total_intersected.
    assert (Hgen : forall n acc, n <= num_vectors top_k ->
      fold_left (fun total i =>
          total + intersect_column k_nn (col top_k i) (col groundtruth i))
        (seq 0 n) acc
      = fold_left (fun total i =>
          total + spec_intersection (col top_k i)
                    (take k_nn (col groundtruth i)))
        (seq 0 n) acc).
    { induction n as [|n IH]; intros acc Hn; [reflexivity|].
      rewrite seq_S, !fold_left_app. simpl.
      rewrite IH by lia. rewrite Hcol by lia. reflexivity. }
    apply Hgen. lia. }
  split; [exact Htotal|].
  unfold recall, spec_recall, total_groundtruth.
  rewrite Htotal, Hrows, (Nat.mul_comm k_nn). reflexivity.
Qed.

(** * The theorems at concrete inputs *)

(** C3 at a graph of four nodes on a line: node 1, which has the out-edge
    to 2, is pruned against the candidates 0, 1, 2, 3 with [R_max = 2]. *)
Lemma robust_prune_no_self_loop_no_duplicate_bounded_witness :
  exists G',
    robust_prune insertion_order line_graph line_db 1 [0; 1; 2; 3] (6 # 5) 2
      = inr G' /\
    ~ In 1 (targets (out_edges G' 1)) /\
    NoDup (targets (out_edges G' 1)) /\
    out_degree G' 1 <= 2.
Proof.
  apply (robust_prune_no_self_loop_no_duplicate_bounded insertion_order
           (fun l => Permutation_refl l) line_graph line_db 1 [0; 1; 2; 3]
           (6 # 5) 2).
  - vm_compute. lia.
  - lia.
  - intros e He. vm_compute in He. destruct He as [<-|[]]. vm_compute.
    discriminate.
Defined.

(** C4, the claim as stated fails: nodes 0 and 1 hold the same vector and
    node 1 has an edge to node 0; the search from [s = 1] for [DB[1]] with
    [k = 1] and [L = 2] returns node 0 first. *)
Lemma greedy_search_returns_twin_first :
  1 <= 1 /\ Nat.max 1 1 <= 2 /\ 1 < num_vertices twin_graph /\
  exists scores ids visited,
    greedy_search twin_graph twin_db 1 (col twin_db 1) 1 2
      = inr (scores, ids, visited) /\
    ids !! 0 <> Some 1.
Proof.
  split; [lia|]. split; [vm_compute; lia|]. split; [vm_compute; lia|].
  exists [0%Q], [0], [1; 0]. split; [vm_compute; reflexivity|].
  vm_compute. discriminate.
Qed.

(** C4 as amended, at two nodes with different vectors that point at each
    other. *)
Lemma greedy_search_returns_source_first_witness :
  exists scores ids visited,
    greedy_search pair_graph pair_db 0 (col pair_db 0) 1 2
      = inr (scores, ids, visited) /\
    (exists score, scores !! 0 = Some score /\ (score == 0)%Q) /\
    (exists first,
       ids !! 0 = Some first /\
       (first = 0 \/ exists p e, In e (out_edges pair_graph p) /\ snd e = first) /\
       (sum_of_squares (col pair_db first) (col pair_db 0) == 0)%Q) /\
    ((forall p e, In e (out_edges pair_graph p) -> snd e <> 0 ->
        (0 < sum_of_squares (col pair_db (snd e)) (col pair_db 0))%Q) ->
     ids !! 0 = Some 0).
Proof.
  apply (greedy_search_returns_source_first pair_graph pair_db 0 1 2); lia.
Defined.

(** C9, the claim as stated fails in a build with [NDEBUG]: the search on
    the line from node 1 for the vector 7 with [k = 3] and [L = 2] returns
    the two nodes it found over a row of zeros. *)
Lemma greedy_search_below_k_returns_with_NDEBUG :
  2 < 3 /\ 1 <= 2 /\
  greedy_search_in NDEBUG line_graph line_db 1 (col line_db 3) 3 2
  = inr ([16%Q; 36%Q; 0%Q], [2; 1; 0], [1; 2]).
Proof. split; [lia|]. split; [lia|vm_compute; reflexivity]. Qed.

(** C9 as amended, at [L = 1 < k = 2]. *)
Lemma greedy_search_below_k_fails_only_when_checked_witness :
  greedy_search_in Checked pair_graph pair_db 0 (col pair_db 0) 2 1
  = inl (AssertionFailed "L >= k_nn") /\
  exists scores ids visited,
    greedy_search_in NDEBUG pair_graph pair_db 0 (col pair_db 0) 2 1
    = inr (scores, ids, visited) /\
    length scores = 2 /\ length ids = 2 /\
    forall i, 1 <= i -> i < 2 ->
      scores !! i = Some 0%Q /\ ids !! i = Some 0.
Proof.
  destruct (greedy_search_below_k_fails_only_when_checked pair_graph pair_db
              0 (col pair_db 0) 2 1) as [Hchecked Hreturns]; [lia|].
  split; [exact Hchecked|]. apply Hreturns. lia.
Defined.

(** C5 at the index trained on the two vectors 0 and 1 and written to an
    empty store. *)
Lemma write_index_then_load_round_trip_witness :
  load_index (<["/tmp/tmp_vamana_index"%string := written_group trained_pair]> ∅)
    "/tmp/tmp_vamana_index"
  = inr trained_pair.
Proof.
  apply (write_index_then_load_round_trip insertion_order (new_index 2 2 2 0)
           trained_pair pair_db ∅ _ "/tmp/tmp_vamana_index" false).
  - vm_compute. reflexivity.
  - vm_compute. reflexivity.
  - reflexivity.
Defined.

(** C10 at a store that already holds a group at the URI. *)
Lemma write_index_existing_group_not_overwritten_witness :
  write_index trained_pair
    (<["/tmp/tmp_vamana_index"%string := written_group trained_pair]> ∅)
    "/tmp/tmp_vamana_index" false
  = (false,
     <["/tmp/tmp_vamana_index"%string := written_group trained_pair]> ∅).
Proof.
  apply (proj1 (write_index_existing_group_not_overwritten trained_pair
                  (<["/tmp/tmp_vamana_index"%string
                       := written_group trained_pair]> ∅)
                  "/tmp/tmp_vamana_index")).
  rewrite lookup_insert_eq. eexists. reflexivity.
Defined.

(** C2 as amended, at centroids 0 and 5 with the training vectors 0 and 1:
    the second centroid gets no vector and is left at zero. *)
Lemma lloyd_iteration_empty_centroid_reset_witness :
  col (centroids_ (lloyd_iteration stale_kmeans near_zero)) 1
  = map (fun _ => scalar_zero) (col (centroids_ stale_kmeans) 1).
Proof.
  apply (lloyd_iteration_empty_centroid_reset stale_kmeans near_zero 1).
  - vm_compute. lia.
  - reflexivity.
Defined.

(** C7 at two distinct training vectors and [K = 2]. *)
Lemma kmeans_pp_picks_distinct_training_vectors_witness :
  let st := kmeans_pp_run (new_kmeans 1 2 1 1) near_zero half_draws in
  let C := centroids_ (kmeans_pp (new_kmeans 1 2 1 1) near_zero half_draws) in
  length (seed_picks st) = 2 /\
  NoDup (seed_picks st) /\
  (forall i, i < 2 ->
     exists c, seed_picks st !! i = Some c /\
               c < num_vectors near_zero /\
               col C i = col near_zero c) /\
  (forall i j, i < 2 -> j < 2 -> i <> j ->
     ~ same_vector (col C i) (col C j)) /\
  (2 <= 2 -> forall c, In c (seed_picks st) ->
     exists w, seed_distances st !! c = Some w /\ (w == 0)%Q).
Proof.
  apply (kmeans_pp_picks_distinct_training_vectors (new_kmeans 1 2 1 1)
           near_zero half_draws).
  - vm_compute. lia.
  - vm_compute. lia.
  - reflexivity.
  - repeat constructor.
  - intros i j Hi Hj Hij Hsame. vm_compute in Hi, Hj.
    destruct i as [|[|i]]; destruct j as [|[|j]]; try lia;
      vm_compute in Hsame; inversion Hsame as [|? ? ? ? Hq _]; subst;
      discriminate Hq.
  - intros i. split; vm_compute; [discriminate|reflexivity].
Defined.

(** C8 at a streamed database and a streamed query matrix. *)
Lemma vq_query_heap_fails_iff_both_blocked_witness :
  fst (vq_query_heap streamed_db streamed_q 2 1)
  = inl (RuntimeError "Can't block both db and q").
Proof.
  apply (proj1 (vq_query_heap_fails_iff_both_blocked streamed_db streamed_q
                  2 1)).
  split; reflexivity.
Defined.

(** [robust_prune] returns at the graph of four nodes on a line. *)
Lemma robust_prune_returns_witness :
  exists G',
    robust_prune insertion_order line_graph line_db 1 [0; 1; 2; 3] (6 # 5) 2
      = inr G'.
Proof.
  apply (robust_prune_returns insertion_order
           (fun l => Permutation_refl l) line_graph line_db 1 [0; 1; 2; 3]
           (6 # 5) 2).
  - vm_compute. lia.
  - lia.
Defined.

(** [greedy_search] returns at [k = 1 <= L = 2]. *)
Lemma greedy_search_terminates_witness :
  succeeded (greedy_search pair_graph pair_db 0 (col pair_db 0) 1 2).
Proof.
  apply (greedy_search_terminates pair_graph pair_db 0 (col pair_db 0) 1 2).
  lia.
Defined.

(** The recall loop at a ground-truth column of exactly [k = 2] rows. *)
Lemma intersect_column_whole_sorted_witness :
  intersect_column 2 [5; 1]%Z [4; 1]%Z
  = set_intersection (sort_Z [5; 1]%Z) (sort_Z [4; 1]%Z).
Proof.
  apply (intersect_column_whole_sorted 2 [5; 1]%Z [4; 1]%Z).
  reflexivity.
Defined.

(** [robust_prune] on the line leaves the lists of the nodes 0, 2 and 3. *)
Lemma robust_prune_rewrites_only_p_witness :
  num_vertices pruned_line_graph = num_vertices line_graph /\
  forall p', p' <> 1 ->
    out_edges pruned_line_graph p' = out_edges line_graph p'.
Proof.
  apply (robust_prune_rewrites_only_p insertion_order line_graph
           pruned_line_graph line_db 1 [0; 1; 2; 3] (6 # 5) 2).
  reflexivity.
Defined.

(** The two edges of node 1 after the pruning lead to the candidates 0
    and 2. *)
Lemma robust_prune_selects_candidates_witness :
  1 < num_vertices line_graph /\
  forall e, In e (out_edges pruned_line_graph 1) ->
    snd e <> 1 /\
    ((In (snd e) [0; 1; 2; 3] /\
      fst e = sum_of_squares (col line_db (snd e)) (col line_db 1)) \/
     In e (out_edges line_graph 1)).
Proof.
  split; [vm_compute; lia|].
  apply (robust_prune_selects_candidates insertion_order
           (fun l => Permutation_refl l) line_graph pruned_line_graph
           line_db 1 [0; 1; 2; 3] (6 # 5) 2).
  - vm_compute. lia.
  - reflexivity.
Defined.

(** The first edge of node 1 after the pruning is the one to node 0, its
    nearest candidate. *)
Lemma robust_prune_keeps_nearest_witness :
  exists e,
    out_edges pruned_line_graph 1 !! 0 = Some e /\
    forall v, In v [0; 1; 2; 3] -> v <> 1 ->
      (fst e <= sum_of_squares (col line_db v) (col line_db 1))%Q.
Proof.
  apply (robust_prune_keeps_nearest insertion_order
           (fun l => Permutation_refl l) line_graph pruned_line_graph
           line_db 1 [0; 1; 2; 3] (6 # 5) 2 0).
  - vm_compute. lia.
  - left. reflexivity.
  - discriminate.
  - reflexivity.
Defined.

(** The edges to 0 and to 2 of node 1 are alpha-diverse. *)
Lemma robust_prune_alpha_diverse_witness :
  1 < num_vertices line_graph /\
  alpha_diverse line_db (6 # 5) (out_edges pruned_line_graph 1).
Proof.
  split; [vm_compute; lia|].
  apply (robust_prune_alpha_diverse insertion_order line_graph
           pruned_line_graph line_db 1 [0; 1; 2; 3] (6 # 5) 2).
  - vm_compute. lia.
  - reflexivity.
Defined.

(** The search from node 0 of the two-node graph for the vector of node 1,
    with [k = L = 2]. *)
Lemma greedy_search_reports_distances_witness :
  exists found,
    [0%Q; 1%Q] = map fst found ++ replicate (2 - length found) 0%Q /\
    [1; 0] = map snd found ++ replicate (2 - length found) 0 /\
    length found <= 2 /\
    ascending found /\
    forall e, In e found ->
      fst e = sum_of_squares (col pair_db (snd e)) (col pair_db 1).
Proof.
  apply (greedy_search_reports_distances pair_graph pair_db 0
           (col pair_db 1) 2 2 [0%Q; 1%Q] [1; 0] [0; 1]).
  reflexivity.
Defined.

Lemma greedy_search_reports_distinct_nodes_witness :
  exists n,
    n <= 2 /\
    [1; 0] = take n [1; 0] ++ replicate (2 - n) 0 /\
    NoDup (take n [1; 0]) /\
    forall id, In id (take n [1; 0]) ->
      id = 0 \/ exists p e, In e (out_edges pair_graph p) /\ snd e = id.
Proof.
  apply (greedy_search_reports_distinct_nodes pair_graph pair_db 0
           (col pair_db 1) 2 2 [0%Q; 1%Q] [1; 0] [0; 1]).
  reflexivity.
Defined.

Lemma greedy_search_visits_distinct_nodes_witness :
  NoDup [0; 1] /\
  [0; 1] !! 0 = Some 0 /\
  forall v, In v [0; 1] ->
    v = 0 \/ exists p e, In e (out_edges pair_graph p) /\ snd e = v.
Proof.
  apply (greedy_search_visits_distinct_nodes pair_graph pair_db 0
           (col pair_db 1) 2 2 [0%Q; 1%Q] [1; 0] [0; 1]).
  - lia.
  - reflexivity.
Defined.

(** Node 0 of the graph on the line has no out-edge. *)
Lemma greedy_search_isolated_source_witness :
  greedy_search line_graph line_db 0 (col line_db 3) 2 2
  = inr (sum_of_squares (col line_db 0) (col line_db 3)
           :: replicate (2 - 1) 0%Q,
         0 :: replicate (2 - 1) 0,
         [0]).
Proof.
  apply (greedy_search_isolated_source line_graph line_db 0 (col line_db 3)
           2 2).
  - reflexivity.
  - lia.
  - lia.
Defined.

(** The two-node index queried with its own two vectors. *)
Lemma query_columns_are_single_queries_witness :
  num_vectors (top_k_scores answered_pair) = num_vectors pair_db /\
  num_vectors (top_k answered_pair) = num_vectors pair_db /\
  forall i, i < num_vectors pair_db ->
    query_vector trained_pair (col pair_db i) 1 None
    = inr (col (top_k_scores answered_pair) i, col (top_k answered_pair) i).
Proof.
  apply (query_columns_are_single_queries trained_pair 0 pair_db 1 None
           answered_pair).
  reflexivity.
Defined.

(** [k = 3] against the [L_build_ = 2] of the two-node index. *)
Lemma query_below_k_fails_only_when_checked_witness :
  query_in Checked trained_pair 0 pair_db 3 None
  = (if num_vectors pair_db =? 0
     then inr (mkQueryState (mkMatrix 3 []) (mkMatrix 3 []) 0)
     else inl (AssertionFailed "L >= k_nn")) /\
  exists st, query_in NDEBUG trained_pair 0 pair_db 3 None = inr st.
Proof.
  destruct (query_below_k_fails_only_when_checked trained_pair 0 pair_db
              3 None) as [Hchecked Hreturns]; [vm_compute; lia|].
  split; [exact Hchecked|]. apply Hreturns. vm_compute. lia.
Defined.

Lemma query_returns_and_counts_visited_witness :
  exists st,
    query trained_pair 0 pair_db 1 None = inr st /\
    0 + num_vectors pair_db <= num_visited_vertices_ st.
Proof.
  apply (query_returns_and_counts_visited trained_pair 0 pair_db 1 None).
  - vm_compute. lia.
  - vm_compute. lia.
Defined.

(** Four vectors on the line with the centroid 3: the medoid is the vector
    3, at index 2. *)
Lemma medioid_nearest_to_centroid_witness :
  medioid centred_db < num_vectors centred_db /\
  (forall j, j < num_vectors centred_db ->
     (sum_of_squares (col centred_db (medioid centred_db))
        (medioid_centroid centred_db)
      <= sum_of_squares (col centred_db j) (medioid_centroid centred_db))%Q) /\
  (forall j, j < medioid centred_db ->
     (sum_of_squares (col centred_db (medioid centred_db))
        (medioid_centroid centred_db)
      < sum_of_squares (col centred_db j) (medioid_centroid centred_db))%Q).
Proof.
  apply (medioid_nearest_to_centroid centred_db).
  - vm_compute. lia.
  - split; [|split; [|split]].
    + repeat constructor; eexists; (split; [reflexivity|vm_compute; discriminate]).
    + exists 8%Z. split; [|vm_compute; discriminate].
      repeat constructor; vm_compute; discriminate.
    + repeat constructor.
      exists 3%Z. split; [vm_compute; reflexivity|vm_compute; discriminate].
    + intros j Hj. change (num_vectors centred_db) with 4 in Hj.
      destruct j as [|[|[|[|j]]]]; [| | | |lia]; vm_compute; discriminate.
Defined.

(** The build on the four vectors on the line with [L = R = 2]. *)
Lemma train_builds_bounded_graph_witness :
  exists idx,
    train insertion_order (new_index 4 2 2 0) line_db = inr idx /\
    num_vertices (graph_ idx) = num_vectors line_db /\
    forall p,
      out_degree (graph_ idx) p <= R_max_degree_ (new_index (T:=Z) 4 2 2 0) /\
      forall e, In e (out_edges (graph_ idx) p) ->
        snd e < num_vectors line_db /\
        snd e <> p /\
        fst e = sum_of_squares (col line_db (snd e)) (col line_db p).
Proof.
  apply (train_builds_bounded_graph insertion_order
           (fun l => Permutation_refl l) (new_index 4 2 2 0) line_db).
  - vm_compute. lia.
  - vm_compute. lia.
Defined.

Lemma compare_adj_characterises_equal_graphs_witness :
  (compare_adj_scores trained_pair trained_pair = true /\
   compare_adj_ids trained_pair trained_pair = true) <->
  Forall2 (Forall2 same_edge) (graph_ trained_pair) (graph_ trained_pair).
Proof.
  apply (compare_adj_characterises_equal_graphs trained_pair trained_pair).
  reflexivity.
Defined.

Lemma written_index_compares_equal_witness :
  exists idx2,
    load_index
      (<["/tmp/tmp_vamana_index"%string := written_group trained_pair]> ∅)
      "/tmp/tmp_vamana_index" = inr idx2 /\
    compare_metadata trained_pair idx2 = true /\
    compare_feature_vectors trained_pair idx2 = true /\
    compare_adj_scores trained_pair idx2 = true /\
    compare_adj_ids trained_pair idx2 = true.
Proof.
  apply (written_index_compares_equal insertion_order (new_index 2 2 2 0)
           trained_pair pair_db ∅ _ "/tmp/tmp_vamana_index" true).
  - vm_compute. reflexivity.
  - vm_compute. reflexivity.
  - reflexivity.
Defined.

(** The group without [ntotal]: the second entry of the table is the first
    one missing. *)
Lemma load_index_missing_metadata_witness :
  load_index (<["/tmp/partial"%string := partial_group]> ∅) "/tmp/partial"
  = inl (RuntimeError ("Missing metadata: " ++ "ntotal")).
Proof.
  apply (load_index_missing_metadata
           (<["/tmp/partial"%string := partial_group]> ∅) "/tmp/partial"
           partial_group pair_db 1 "ntotal").
  - apply lookup_insert_eq.
  - reflexivity.
  - reflexivity.
  - reflexivity.
  - intros j before Hj Hb. destruct j as [|j]; [|lia].
    injection Hb as <-. vm_compute. reflexivity.
Defined.

Lemma load_index_ntotal_checked_by_assertion_only_witness :
  load_index_in Checked (<["/tmp/miscounted"%string := miscounted_group]> ∅)
    "/tmp/miscounted"
  = inl (AssertionFailed "num_vectors_ == num_vectors(feature_vectors_)") /\
  exists idx,
    load_index_in NDEBUG (<["/tmp/miscounted"%string := miscounted_group]> ∅)
      "/tmp/miscounted" = inr idx /\
    feature_vectors_ idx = pair_db /\
    num_vectors_ idx = 3 /\
    graph_ idx = pair_graph ++ [[]].
Proof.
  destruct (load_index_ntotal_checked_by_assertion_only
              (<["/tmp/miscounted"%string := miscounted_group]> ∅)
              "/tmp/miscounted" miscounted_group pair_db 3)
    as [Hchecked Hgoes_on].
  - apply lookup_insert_eq.
  - reflexivity.
  - intros name Hin. simpl in Hin.
    repeat (destruct Hin as [<-|Hin]; [vm_compute; reflexivity|]).
    destruct Hin.
  - reflexivity.
  - vm_compute. lia.
  - vm_compute. lia.
  - split; [exact Hchecked|].
    apply (Hgoes_on (pair_graph ++ [[]])).
    + reflexivity.
    + vm_compute. reflexivity.
    + vm_compute. reflexivity.
    + vm_compute. reflexivity.
    + vm_compute. reflexivity.
Defined.

(** Centroid 0 of the sample gets both training vectors, 0 and 1. *)
Lemma lloyd_iteration_centroid_is_mean_witness :
  col (centroids_ (lloyd_iteration stale_kmeans near_zero)) 0
  = divide_centroid (km_dimension_ stale_kmeans)
      (length (assigned_vectors stale_kmeans near_zero 0))
      (fold_left (add_vector (km_dimension_ stale_kmeans))
         (assigned_vectors stale_kmeans near_zero 0)
         (map (fun _ => scalar_zero) (col (centroids_ stale_kmeans) 0))).
Proof.
  apply (lloyd_iteration_centroid_is_mean stale_kmeans near_zero 0).
  vm_compute. lia.
Defined.

(** With every draw at one half both centroids are the training vector at
    index 1. *)
Lemma kmeans_random_init_copies_drawn_vectors_witness :
  let C := centroids_ (kmeans_random_init stale_kmeans near_zero half_draws)
  in
  let pick := fun i => uniform_index (num_vectors near_zero) (half_draws i)
  in
  num_vectors C = nlist_ stale_kmeans /\
  (forall i, i < nlist_ stale_kmeans ->
     pick i < num_vectors near_zero /\
     col C i = col near_zero (pick i)) /\
  (forall i j, i < nlist_ stale_kmeans -> j < nlist_ stale_kmeans ->
     pick i = pick j -> col C i = col C j).
Proof.
  apply (kmeans_random_init_copies_drawn_vectors stale_kmeans near_zero
           half_draws).
  - reflexivity.
  - vm_compute. lia.
  - intros i. split; vm_compute; [discriminate|reflexivity].
Defined.

Lemma recall_between_0_and_1_witness :
  (0 <= recall 2 found_ids true_ids)%Q /\
  (recall 2 found_ids true_ids <= 1)%Q.
Proof.
  apply (recall_between_0_and_1 2 found_ids true_ids).
  - repeat constructor.
  - vm_compute. lia.
Defined.

Lemma recall_counts_common_ids_witness :
  total_intersected 2 found_ids true_ids
  = spec_total_intersected 2 found_ids true_ids /\
  recall 2 found_ids true_ids = spec_recall 2 found_ids true_ids.
Proof.
  apply (recall_counts_common_ids 2 found_ids true_ids).
  - reflexivity.
  - intros i Hi. vm_compute in Hi. destruct i as [|i]; [|lia].
    split; [|split; [reflexivity|]].
    + unfold col, found_ids. simpl. apply NoDup_cons. split.
      * intros Hin. apply list_elem_of_In in Hin.
        destruct Hin as [Heq|[]]. discriminate.
      * apply NoDup_singleton.
    + intros y Hy. vm_compute in Hy. destruct Hy as [<-|[<-|[]]]; lia.
Defined.

Lemma vq_query_heap_returns_k_nearest_witness :
  exists (top_k : list (list nat)) (events : list event),
    vq_query_heap resident_db resident_q 2 2 = (inr top_k, events) /\
    length top_k = length (window resident_q) /\
    forall j, j < length (window resident_q) ->
      exists ids,
        top_k !! j = Some (ids ++ replicate (2 - length ids) 0) /\
        k_nearest (window resident_db)
          (default [] (window resident_q !! j)) 2 ids.
Proof.
  apply (vq_query_heap_returns_k_nearest resident_q 2 2 eq_refl
           ltac:(lia) resident_db eq_refl eq_refl).
  - vm_compute. lia.
  - vm_compute. reflexivity.
  - split; [|split].
    + repeat constructor; eexists;
        (split; [reflexivity|vm_compute; discriminate]).
    + repeat constructor; eexists;
        (split; [reflexivity|vm_compute; discriminate]).
    + intros qv v Hq Hv. cbn in Hq, Hv.
      destruct Hq as [<-|[<-|[]]]; destruct Hv as [<-|[<-|[<-|[]]]];
        vm_compute; discriminate.
Defined.

Lemma vq_query_heap_streamed_k_nearest_witness :
  exists (top_k : list (list nat)) (events : list event),
    vq_query_heap two_block_db resident_q 2 2 = (inr top_k, events) /\
    length top_k = length (window resident_q) /\
    forall j, j < length (window resident_q) ->
      exists ids,
        top_k !! j = Some (ids ++ replicate (2 - length ids) 0) /\
        k_nearest (window two_block_db ++ concat (pending two_block_db))
          (default [] (window resident_q !! j)) 2 ids.
Proof.
  apply (vq_query_heap_streamed_k_nearest resident_q 2 2 eq_refl
           ltac:(lia) two_block_db eq_refl eq_refl).
  - vm_compute. lia.
  - vm_compute. reflexivity.
  - split; [|split].
    + repeat constructor; eexists;
        (split; [reflexivity|vm_compute; discriminate]).
    + repeat constructor; eexists;
        (split; [reflexivity|vm_compute; discriminate]).
    + intros qv v Hq Hv. cbn in Hq, Hv.
      destruct Hq as [<-|[<-|[]]]; destruct Hv as [<-|[<-|[<-|[]]]];
        vm_compute; discriminate.
Defined.

Lemma qv_partition_returns_first_nearest_witness :
  exists top_k,
    IvfQuery.qv_partition line_db line_queries 2 = Some top_k /\
    IvfQuery.qv_partition line_db line_queries 1 = Some top_k /\
    length top_k = num_vectors line_queries /\
    forall j, j < num_vectors line_queries ->
      exists idx,
        top_k !! j = Some idx /\
        first_nearest line_db (col line_queries j) idx.
Proof.
  apply (qv_partition_returns_first_nearest line_db line_queries 2).
  - lia.
  - vm_compute. reflexivity.
  - split; [|split].
    + repeat constructor; eexists;
        (split; [reflexivity|vm_compute; discriminate]).
    + repeat constructor; eexists;
        (split; [reflexivity|vm_compute; discriminate]).
    + intros qv v Hq Hv. cbn in Hq, Hv.
      destruct Hq as [<-|[<-|[<-|[]]]];
        destruct Hv as [<-|[<-|[<-|[<-|[]]]]];
        vm_compute; discriminate.
Defined.
